(** * A shallow embedding of the gsip SIP parser (package [sip])

    The development follows the parser source: the helpers of Go's
    [strings] and [strconv] packages that the parser calls, the grammar-level
    sub-parsers ([ParseParams], [ParseSipUri], [ParseAddressValue], ...), the
    header-parser registry with [ParseHeader], and the framing loop
    [parser.parse].

    Conventions.
    - A Go [string] is a byte string: Rocq's [string].  The helpers of the
      [strings] package are modelled on bytes; on ASCII text, which is what
      the SIP grammar is made of, they agree with Go (Go's handling of
      multi-byte Unicode spaces and case mappings is not modelled).  The
      conversions the parser itself writes are modelled as Go defines them:
      [string(b)] of a byte is [byteString], the loop over the runes of a
      string uses [decodeRune], and [string(r)] of a rune is [runeString].
    - A Go [int] index is a [Z]; [-1] is the "not found" result of
      [strings.Index], as in Go.
    - A Go function returning [(v, err)] is a function into [outcome]: [Ok v]
      when [err == nil], [Err e] otherwise, and [Panic] where Go raises a
      run-time panic (index or slice bounds out of range, failed type
      assertion).  The partial values Go returns next to a non-nil error are
      dropped: every caller in the sources discards them. *)

From Stdlib Require Import ZArith Lia Ascii.
From stdpp Require Import base option list gmap strings.

Local Open Scope Z_scope.

(** ** Errors and outcomes *)

(** The error kinds of the package.  [Errorf] stands for [fmt.Errorf] and
    [errors.New]; the formatted arguments of the messages are left out. *)
Inductive error : Type :=
  | Errorf (msg : string)
  | SyntaxError (fn : string)
  | RangeError (fn : string)
  | InvalidStartLineError (cause : error)
  | MalformedMessageError (cause : error)
  | BrokenMessageError (cause : error)
  | WriteError (msg : string).

Inductive outcome (A : Type) : Type :=
  | Ok (a : A)
  | Err (e : error)
  | Panic.

Arguments Ok {A} a.
Arguments Err {A} e.
Arguments Panic {A}.

#[global] Instance outcome_ret : MRet outcome := fun A a => Ok a.

#[global] Instance outcome_bind : MBind outcome := fun A B k m =>
  match m with
  | Ok a => k a
  | Err e => Err e
  | Panic => Panic
  end.

#[global] Instance outcome_fmap : FMap outcome := fun A B f m =>
  match m with
  | Ok a => Ok (f a)
  | Err e => Err e
  | Panic => Panic
  end.

Definition is_ok {A : Type} (m : outcome A) : bool :=
  match m with Ok _ => true | _ => false end.

Definition is_err {A : Type} (m : outcome A) : bool :=
  match m with Err _ => true | _ => false end.

(** ** Byte strings: indexing and slicing *)

Module Str.

Definition len (s : string) : Z := Z.of_nat (String.length s).

Fixpoint take (n : nat) (s : string) : string :=
  match n, s with
  | S k, String c t => String c (take k t)
  | _, _ => EmptyString
  end.

Fixpoint drop (n : nat) (s : string) : string :=
  match n, s with
  | S k, String _ t => drop k t
  | _, _ => s
  end.

(** [s[lo:hi]] where the bounds are known to be in range. *)
Definition sub (s : string) (lo hi : Z) : string :=
  take (Z.to_nat (hi - lo)) (drop (Z.to_nat lo) s).

(** [s[lo:hi]] as Go evaluates it: a run-time panic unless
    [0 <= lo <= hi <= len(s)]. *)
Definition slice (s : string) (lo hi : Z) : outcome string :=
  if (0 <=? lo) && (lo <=? hi) && (hi <=? len s)
  then Ok (sub s lo hi) else Panic.

(** [s[i]] as Go evaluates it. *)
Definition at_ (s : string) (i : Z) : outcome ascii :=
  if (0 <=? i) && (i <? len s)
  then match String.get (Z.to_nat i) s with Some c => Ok c | None => Panic end
  else Panic.

Fixpoint isPrefix (p s : string) : bool :=
  match p, s with
  | EmptyString, _ => true
  | String a p', String b s' => if Ascii.eqb a b then isPrefix p' s' else false
  | String _ _, EmptyString => false
  end.

Fixpoint find (sub s : string) : option nat :=
  if isPrefix sub s then Some O
  else match s with
       | EmptyString => None
       | String _ t => S <$> find sub t
       end.

Fixpoint mem (c : ascii) (s : string) : bool :=
  match s with
  | EmptyString => false
  | String a t => Ascii.eqb a c || mem c t
  end.

Fixpoint findAny (chars s : string) : option nat :=
  match s with
  | EmptyString => None
  | String c t => if mem c chars then Some O else S <$> findAny chars t
  end.

Fixpoint map (f : ascii -> ascii) (s : string) : string :=
  match s with
  | EmptyString => EmptyString
  | String c t => String (f c) (map f t)
  end.

Fixpoint dropWhile (p : ascii -> bool) (s : string) : string :=
  match s with
  | EmptyString => EmptyString
  | String c t => if p c then dropWhile p t else s
  end.

Fixpoint dropWhileEnd (p : ascii -> bool) (s : string) : string :=
  match s with
  | EmptyString => EmptyString
  | String c t =>
      match dropWhileEnd p t with
      | EmptyString => if p c then EmptyString else String c EmptyString
      | r => String c r
      end
  end.

Definition isEmpty (s : string) : bool :=
  match s with EmptyString => true | _ => false end.

End Str.

(** ** The functions of Go's [strings] package used by the parser *)

Definition ofIndex (o : option nat) : Z :=
  match o with Some i => Z.of_nat i | None => -1 end.

Definition Index (s substr : string) : Z := ofIndex (Str.find substr s).

Definition IndexAny (s chars : string) : Z := ofIndex (Str.findAny chars s).

Definition Contains (s substr : string) : bool := negb (Index s substr =? -1).

Definition ContainsAny (s chars : string) : bool := negb (IndexAny s chars =? -1).

(** Non-overlapping occurrences of a non-empty [sep]: [skip] counts the bytes
    of a matched separator still to be passed over. *)
Fixpoint count_go (sep s : string) (skip : nat) : Z :=
  match s with
  | EmptyString => 0
  | String _ t =>
      match skip with
      | S k => count_go sep t k
      | O => if Str.isPrefix sep s
             then 1 + count_go sep t (String.length sep - 1)
             else count_go sep t O
      end
  end.

Definition Count (s sep : string) : Z := count_go sep s O.

Fixpoint split_go (sep s : string) (skip : nat) : string * list string :=
  match s with
  | EmptyString => (EmptyString, [])
  | String c t =>
      match skip with
      | S k => split_go sep t k
      | O => if Str.isPrefix sep s
             then let '(p, ps) := split_go sep t (String.length sep - 1) in
                  (EmptyString, p :: ps)
             else let '(p, ps) := split_go sep t O in (String c p, ps)
      end
  end.

(** [strings.Split] for a non-empty separator. *)
Definition Split (s sep : string) : list string :=
  let '(p, ps) := split_go sep s O in p :: ps.

Fixpoint Join (parts : list string) (sep : string) : string :=
  match parts with
  | [] => EmptyString
  | [p] => p
  | p :: ps => p +:+ sep +:+ Join ps sep
  end.

Definition lowerByte (c : ascii) : ascii :=
  let n := nat_of_ascii c in
  if ((65 <=? n) && (n <=? 90))%nat then ascii_of_nat (n + 32) else c.

Definition upperByte (c : ascii) : ascii :=
  let n := nat_of_ascii c in
  if ((97 <=? n) && (n <=? 122))%nat then ascii_of_nat (n - 32) else c.

Definition ToLower (s : string) : string := Str.map lowerByte s.
Definition ToUpper (s : string) : string := Str.map upperByte s.

(** The ASCII white space of [unicode.IsSpace]: tab, LF, VT, FF, CR, space. *)
Definition isSpace (c : ascii) : bool :=
  let n := nat_of_ascii c in
  (((9 <=? n) && (n <=? 13)) || (n =? 32))%nat.

Definition TrimSpace (s : string) : string :=
  Str.dropWhileEnd isSpace (Str.dropWhile isSpace s).

Definition TrimLeft (s cutset : string) : string :=
  Str.dropWhile (fun c => Str.mem c cutset) s.

(** ** Go's conversions between bytes, runes and strings *)

Definition byteVal (c : ascii) : Z := Z.of_nat (nat_of_ascii c).
Definition byteOf (n : Z) : ascii := ascii_of_nat (Z.to_nat n).

(** A byte below [utf8.RuneSelf]. *)
Definition isAsciiByte (c : ascii) : bool := byteVal c <? 0x80.

(** [utf8.RuneError], U+FFFD. *)
Definition RuneError : Z := 0xFFFD.

(** [string(r)] for a rune [r]: its UTF-8 encoding; a surrogate or a value
    out of range is encoded as [RuneError]. *)
Definition runeString (r : Z) : string :=
  if (0 <=? r) && (r <=? 0x7F) then String (byteOf r) EmptyString
  else if (0x80 <=? r) && (r <=? 0x7FF) then
    String (byteOf (0xC0 + r / 64)) (String (byteOf (0x80 + r mod 64)) EmptyString)
  else if ((0x800 <=? r) && (r <? 0xD800)) || ((0xE000 <=? r) && (r <=? 0xFFFF)) then
    String (byteOf (0xE0 + r / 4096))
      (String (byteOf (0x80 + (r / 64) mod 64))
         (String (byteOf (0x80 + r mod 64)) EmptyString))
  else if (0x10000 <=? r) && (r <=? 0x10FFFF) then
    String (byteOf (0xF0 + r / 262144))
      (String (byteOf (0x80 + (r / 4096) mod 64))
         (String (byteOf (0x80 + (r / 64) mod 64))
            (String (byteOf (0x80 + r mod 64)) EmptyString)))
  else String (byteOf 0xEF) (String (byteOf 0xBF) (String (byteOf 0xBD) EmptyString)).

(** [string(b)] for a byte [b]: the UTF-8 encoding of the code point [b],
    which is two bytes long from 0x80 on. *)
Definition byteString (c : ascii) : string := runeString (byteVal c).

(** The size of the sequence that a first byte announces and the range its
    second byte must lie in (the tables [first] and [acceptRanges] of package
    [utf8]); [None] for a byte that starts no sequence. *)
Definition firstByte (s0 : Z) : option (nat * Z * Z) :=
  if (0xC2 <=? s0) && (s0 <=? 0xDF) then Some (2%nat, 0x80, 0xBF)
  else if s0 =? 0xE0 then Some (3%nat, 0xA0, 0xBF)
  else if (0xE1 <=? s0) && (s0 <=? 0xEC) then Some (3%nat, 0x80, 0xBF)
  else if s0 =? 0xED then Some (3%nat, 0x80, 0x9F)
  else if (0xEE <=? s0) && (s0 <=? 0xEF) then Some (3%nat, 0x80, 0xBF)
  else if s0 =? 0xF0 then Some (4%nat, 0x90, 0xBF)
  else if (0xF1 <=? s0) && (s0 <=? 0xF3) then Some (4%nat, 0x80, 0xBF)
  else if s0 =? 0xF4 then Some (4%nat, 0x80, 0x8F)
  else None.

Definition between (lo hi : Z) (c : ascii) : bool :=
  (lo <=? byteVal c) && (byteVal c <=? hi).

(** [utf8.DecodeRuneInString], which is also what [range] over a string
    does: the first rune of [s] and its width in bytes.  An encoding that is
    not valid gives [(RuneError, 1)]. *)
Definition decodeRune (s : string) : Z * nat :=
  match s with
  | EmptyString => (RuneError, 0%nat)
  | String c0 t =>
      let s0 := byteVal c0 in
      if s0 <? 0x80 then (s0, 1%nat)
      else
        match firstByte s0 with
        | None => (RuneError, 1%nat)
        | Some (sz, lo, hi) =>
            if (String.length s <? sz)%nat then (RuneError, 1%nat)
            else
              match t with
              | EmptyString => (RuneError, 1%nat)
              | String c1 t1 =>
                  if negb (between lo hi c1) then (RuneError, 1%nat)
                  else if (sz <=? 2)%nat then
                    (Z.lor (Z.shiftl (Z.land s0 0x1F) 6) (Z.land (byteVal c1) 0x3F), 2%nat)
                  else
                    match t1 with
                    | EmptyString => (RuneError, 1%nat)
                    | String c2 t2 =>
                        if negb (between 0x80 0xBF c2) then (RuneError, 1%nat)
                        else if (sz <=? 3)%nat then
                          (Z.lor (Z.lor (Z.shiftl (Z.land s0 0x0F) 12)
                                    (Z.shiftl (Z.land (byteVal c1) 0x3F) 6))
                             (Z.land (byteVal c2) 0x3F), 3%nat)
                        else
                          match t2 with
                          | EmptyString => (RuneError, 1%nat)
                          | String c3 _ =>
                              if negb (between 0x80 0xBF c3) then (RuneError, 1%nat)
                              else
                                (Z.lor (Z.lor (Z.lor (Z.shiftl (Z.land s0 0x07) 18)
                                                 (Z.shiftl (Z.land (byteVal c1) 0x3F) 12))
                                          (Z.shiftl (Z.land (byteVal c2) 0x3F) 6))
                                   (Z.land (byteVal c3) 0x3F), 4%nat)
                          end
                    end
              end
        end
  end.

(** ** [strconv.ParseUint] in base 10 *)

Definition digitVal (c : ascii) : option Z :=
  let n := nat_of_ascii c in
  if ((48 <=? n) && (n <=? 57))%nat then Some (Z.of_nat n - 48) else None.

Fixpoint digits (s : string) (acc : Z) : option Z :=
  match s with
  | EmptyString => Some acc
  | String c t =>
      match digitVal c with
      | Some d => digits t (10 * acc + d)
      | None => None
      end
  end.

(** [strconv.ParseUint(s, 10, bitSize)]: the empty string and any non-digit
    are syntax errors, a value above [2^bitSize - 1] is a range error. *)
Definition ParseUint (s : string) (bitSize : Z) : outcome Z :=
  match s with
  | EmptyString => Err (SyntaxError "ParseUint")
  | _ =>
      match digits s 0 with
      | None => Err (SyntaxError "ParseUint")
      | Some n => if n <=? 2 ^ bitSize - 1 then Ok n else Err (RangeError "ParseUint")
      end
  end.

(** The whitespace characters recognised by the ABNF syntax that SIP uses. *)
Definition abnfWs : string := String " " (String (ascii_of_nat 9) EmptyString).

(** [strings.Contains(abnfWs, string(c))] for a byte [c]: the bytes from
    0x80 on, which [string(c)] turns into two bytes, are not in [abnfWs]
    either way (lemma [inAbnfWs_byteString]). *)
Definition inAbnfWs (c : ascii) : bool := Str.mem c abnfWs.

(** The maximum permissible CSeq number in a SIP message (2**31 - 1). *)
Definition maxCseq : Z := 2147483647.

(** ** Data model *)

(** [MaybeString]: either [nil] or a [String{Str: s}]. *)
Definition MaybeString : Type := option string.

(** Modelled from the spec: the [Params] type ([NewParams], [Add], [Length])
    is not part of the sources.  Per the data model it is an ordered multimap
    from parameter name to optional value that preserves insertion order. *)
Definition Params : Type := list (string * MaybeString).

Definition NewParams : Params := [].

Definition Params_Add (params : Params) (key : string) (val : MaybeString) : Params :=
  params ++ [(key, val)].

Definition Params_Length (params : Params) : Z := Z.of_nat (length params).

(** [Port] is a [uint16]; [*Port] is [nil] when the port is absent. *)
Record Domain : Type := mkDomain { Host : string; Port : option Z }.

Record SipUri : Type := mkSipUri {
  FIsEncrypted : bool;
  FUser : MaybeString;
  FPassword : MaybeString;
  FDomain : Domain;
  FUriParams : Params;
  FHeaders : Params
}.

Inductive Uri : Type :=
  | SipUriOf (u : SipUri)
  | WildcardUri.

Definition IsWildcard (u : Uri) : bool :=
  match u with WildcardUri => true | SipUriOf _ => false end.

Record ViaHop : Type := mkViaHop {
  ProtocolName : string;
  ProtocolVersion : string;
  Transport : string;
  HopHost : string;
  HopPort : option Z;
  HopParams : Params
}.

Inductive Header : Type :=
  | ToHeader (DisplayName : MaybeString) (Address : Uri) (params : Params)
  | FromHeader (DisplayName : MaybeString) (Address : Uri) (params : Params)
  | ContactHeader (DisplayName : MaybeString) (Address : Uri) (params : Params)
  | CallID (id : string)
  | CSeq (SeqNo : Z) (MethodName : string)
  | ViaHeader (hops : list ViaHop)
  | MaxForwards (n : Z)
  | Expires (n : Z)
  | ContentLength (n : Z)
  | UserAgentHeader (s : string)
  | ContentType (s : string)
  | Accept (s : string)
  | AllowHeader (methods : list string)
  | RequireHeader (Options : list string)
  | SupportedHeader (Options : list string)
  | RouteHeader (Addresses : list Uri)
  | RecordRouteHeader (Addresses : list Uri)
  | Authorization (name : string) (params : Params)
  | GenericHeader (HeaderName : string) (Contents : string).

(** A [HeaderParser] turns raw header data, received in the form
    [("max-forwards", "70")], into one or more headers. *)
Definition HeaderParser : Type := string -> string -> outcome (list Header).

(** ** [ParseParams] *)

Definition NUL : ascii := ascii_of_nat 0.
Definition quoteChar : ascii := ascii_of_nat 34.

Definition snoc (buffer : string) (c : ascii) : string :=
  buffer +:+ String c EmptyString.

(** The local variables of [ParseParams] that the scanning loop updates. *)
Record scan : Type := mkScan {
  sc_params : Params;
  sc_buffer : string;
  sc_key : string;
  sc_parsingKey : bool;
  sc_inQuotes : bool
}.

(** The [parseLoop] of [ParseParams]: [rest] is [source[consumed:]].  The
    result is the state and the value of [consumed] when the loop is left by
    [break] or by its condition.  The buffer is written with
    [buffer.WriteString(string(b))] for a byte [b], that is [byteString b];
    only the double quote is written as a literal. *)
Fixpoint parseLoop (sep end_ : ascii) (quoteValues permitSingletons : bool)
    (rest : string) (consumed : Z) (st : scan) : outcome (scan * Z) :=
  match rest with
  | EmptyString => Ok (st, consumed)
  | String c t =>
      let continue st' := parseLoop sep end_ quoteValues permitSingletons t (consumed + 1) st' in
      if Ascii.eqb c end_ then
        if sc_inQuotes st then
          continue (mkScan (sc_params st) (sc_buffer st +:+ byteString end_) (sc_key st)
                      (sc_parsingKey st) (sc_inQuotes st))
        else Ok (st, consumed)
      else if Ascii.eqb c sep then
        if sc_inQuotes st then
          continue (mkScan (sc_params st) (sc_buffer st +:+ byteString sep) (sc_key st)
                      (sc_parsingKey st) (sc_inQuotes st))
        else if sc_parsingKey st && permitSingletons then
          continue (mkScan (Params_Add (sc_params st) (sc_buffer st) None)
                      EmptyString (sc_key st) true (sc_inQuotes st))
        else if sc_parsingKey st then
          Err (Errorf "singleton param when parsing params which disallow singletons")
        else
          continue (mkScan (Params_Add (sc_params st) (sc_key st) (Some (sc_buffer st)))
                      EmptyString (sc_key st) true (sc_inQuotes st))
      else if Ascii.eqb c quoteChar then
        if negb quoteValues then
          continue (mkScan (sc_params st) (snoc (sc_buffer st) quoteChar) (sc_key st)
                      (sc_parsingKey st) (sc_inQuotes st))
        else if sc_parsingKey st then
          Err (Errorf "unexpected quote in parameter key")
        else if negb (sc_inQuotes st) && negb (Str.isEmpty (sc_buffer st)) then
          Err (Errorf "unexpected quote in params")
        else if sc_inQuotes st
                && negb (Str.isEmpty t)
                && negb (match t with String n _ => Ascii.eqb n sep | EmptyString => false end)
        then Err (Errorf "unexpected character after quoted param")
        else
          continue (mkScan (sc_params st) (sc_buffer st) (sc_key st)
                      (sc_parsingKey st) (negb (sc_inQuotes st)))
      else if Ascii.eqb c "=" then
        if Str.isEmpty (sc_buffer st) then Err (Errorf "key of length 0 in params")
        else if negb (sc_parsingKey st) then Err (Errorf "unexpected = char in value token")
        else continue (mkScan (sc_params st) EmptyString (sc_buffer st) false (sc_inQuotes st))
      else if negb (sc_inQuotes st) && inAbnfWs c then
        continue st
      else
        continue (mkScan (sc_params st) (sc_buffer st +:+ byteString c) (sc_key st)
                    (sc_parsingKey st) (sc_inQuotes st))
  end.

(** What [ParseParams] does once the param string has ended. *)
Definition finishParams (permitSingletons : bool) (st : scan) : outcome Params :=
  if sc_inQuotes st then Err (Errorf "unclosed quotes in parameter string")
  else if sc_parsingKey st && permitSingletons then
    Ok (Params_Add (sc_params st) (sc_buffer st) None)
  else if sc_parsingKey st then
    Err (Errorf "singleton param when parsing params which disallow singletons")
  else Ok (Params_Add (sc_params st) (sc_key st) (Some (sc_buffer st))).

(** [ParseParams(source, start, sep, end, quoteValues, permitSingletons)]
    returns the parameters and the number of bytes consumed. *)
Definition ParseParams (source : string) (start sep end_ : ascii)
    (quoteValues permitSingletons : bool) : outcome (Params * Z) :=
  match source with
  | EmptyString => Ok (NewParams, 0)
  | String c0 t0 =>
      let init := mkScan NewParams EmptyString EmptyString true false in
      if negb (Ascii.eqb start NUL) then
        if negb (Ascii.eqb c0 start) then
          Err (Errorf "unexpected character at start of key-value section")
        else
          '(st, consumed) ← parseLoop sep end_ quoteValues permitSingletons t0 1 init;
          params ← finishParams permitSingletons st;
          Ok (params, consumed)
      else
        '(st, consumed) ← parseLoop sep end_ quoteValues permitSingletons source 0 init;
        params ← finishParams permitSingletons st;
        Ok (params, consumed)
  end.

(** ** URIs *)

(** [ParseHostPort]: a [host[:port]] pair; the port is absent when there is
    no colon. *)
Definition ParseHostPort (rawText : string) : outcome Domain :=
  let colonIdx := Index rawText ":" in
  if colonIdx =? -1 then Ok (mkDomain rawText None)
  else
    let host := Str.sub rawText 0 colonIdx in
    portRaw64 ← ParseUint (Str.sub rawText (colonIdx + 1) (Str.len rawText)) 16;
    Ok (mkDomain host (Some portRaw64)).

(** Where the [host[:port]] part of a SIP URI ends, as [ParseSipUri] computes
    it (the three steps on [endOfUriPart]). *)
Definition endOfUriPart (uriStr : string) : Z :=
  let e := Index uriStr ";" in
  let e := if e =? -1 then Index uriStr "?" else e in
  if e =? -1 then Str.len uriStr else e.

(** The end of [ParseSipUri]: [uriStr] is what follows the [host[:port]]
    part, that is the URI parameters and the URI headers. *)
Definition parseUriTail (secure : bool) (user password : MaybeString)
    (domain : Domain) (uriStr : string) : outcome SipUri :=
  if Str.len uriStr =? 0 then
    Ok (mkSipUri secure user password domain NewParams NewParams)
  else
    c ← Str.at_ uriStr 0;
    '(uriParams, n) ←
      (if Ascii.eqb c ";" then ParseParams uriStr ";" ";" "?" true true
       else Ok (NewParams, 0));
    uriStr ← Str.slice uriStr n (Str.len uriStr);
    '(headers, n) ← ParseParams uriStr "?" "&" NUL true false;
    uriStr ← Str.slice uriStr n (Str.len uriStr);
    if 0 <? Str.len uriStr
    then Err (Errorf "internal error: parse of SIP uri ended early!")
    else Ok (mkSipUri secure user password domain uriParams headers).

(** The part of [ParseSipUri] that follows the user-info: host and port, then
    the parameters and headers. *)
Definition parseSipUriRest (secure : bool) (user password : MaybeString)
    (uriStr : string) : outcome SipUri :=
  let e := endOfUriPart uriStr in
  domain ← ParseHostPort (Str.sub uriStr 0 e);
  parseUriTail secure user password domain (Str.sub uriStr e (Str.len uriStr)).

(** [ParseSipUri] converts a string representation of a SIP or SIPS URI. *)
Definition ParseSipUri (uriStr : string) : outcome SipUri :=
  proto ← Str.slice uriStr 0 3;
  if negb (String.eqb (ToLower proto) "sip") then
    Err (Errorf "invalid SIP uri protocol name")
  else
    uriStr ← Str.slice uriStr 3 (Str.len uriStr);
    s ← Str.slice uriStr 0 1;
    '(secure, uriStr) ←
      (if String.eqb (ToLower s) "s"
       then t ← Str.slice uriStr 1 (Str.len uriStr); Ok (true, t)
       else Ok (false, uriStr));
    c ← Str.at_ uriStr 0;
    if negb (Ascii.eqb c ":") then
      Err (Errorf "no : after protocol name in SIP uri")
    else
      uriStr ← Str.slice uriStr 1 (Str.len uriStr);
      let endOfUserInfoPart := Index uriStr "@" in
      if negb (endOfUserInfoPart =? -1) then
        let endOfUsernamePart := Index uriStr ":" in
        let endOfUsernamePart :=
          if endOfUserInfoPart <? endOfUsernamePart then -1 else endOfUsernamePart in
        let '(user, password) :=
          if endOfUsernamePart =? -1
          then (Some (Str.sub uriStr 0 endOfUserInfoPart), None)
          else (Some (Str.sub uriStr 0 endOfUsernamePart),
                Some (Str.sub uriStr (endOfUsernamePart + 1) endOfUserInfoPart)) in
        parseSipUriRest secure user password
          (Str.sub uriStr (endOfUserInfoPart + 1) (Str.len uriStr))
      else
        parseSipUriRest secure None None uriStr.

(** [ParseUri]: the wildcard [*], or a [sip:] / [sips:] URI. *)
Definition ParseUri (uriStr : string) : outcome Uri :=
  if String.eqb (TrimSpace uriStr) "*" then Ok WildcardUri
  else
    let colonIdx := Index uriStr ":" in
    if colonIdx =? -1 then Err (Errorf "no : in URI")
    else
      let schema := ToLower (Str.sub uriStr 0 colonIdx) in
      if String.eqb schema "sip" || String.eqb schema "sips"
      then SipUriOf <$> ParseSipUri uriStr
      else Err (Errorf "unsupported URI schema").

(** ** Escaped search and whitespace splitting *)

(** A delimiter is any pair of characters used for quoting text. *)
Record delimiter : Type := mkDelimiter { d_start : ascii; d_end : ascii }.

Definition quotesDelim : delimiter := mkDelimiter quoteChar quoteChar.
Definition anglesDelim : delimiter := mkDelimiter "<" ">".

(** The loop of [findAnyUnescaped].  The test
    [strings.Contains(targets, string(text[idx]))] is written as the
    membership of the byte in the targets, which it is for targets made of
    ASCII bytes (lemma [Contains_byteString]); the callers pass [<]. *)
Fixpoint findAnyUnescaped_go (endChars : gmap ascii ascii) (targets text : string)
    (idx : Z) (escaped : bool) (endEscape : ascii) : Z :=
  match text with
  | EmptyString => -1
  | String c t =>
      if negb escaped && Str.mem c targets then idx
      else if escaped then
        findAnyUnescaped_go endChars targets t (idx + 1) (negb (Ascii.eqb c endEscape)) endEscape
      else
        match endChars !! c with
        | Some e => findAnyUnescaped_go endChars targets t (idx + 1) true e
        | None => findAnyUnescaped_go endChars targets t (idx + 1) false NUL
        end
  end.

(** Find the first instance of any of the targets in the given text that is
    not enclosed in any delimiters from the list provided. *)
Definition findAnyUnescaped (text targets : string) (delims : list delimiter) : Z :=
  let endChars : gmap ascii ascii :=
    foldl (fun m d => <[d_start d := d_end d]> m) ∅ delims in
  findAnyUnescaped_go endChars targets text 0 false NUL.

Definition findUnescaped (text : string) (target : ascii) (delims : list delimiter) : Z :=
  findAnyUnescaped text (String target EmptyString) delims.

(** The loop [for _, char := range text] of [SplitByWhitespace]: it steps
    through the runes of the text, and [s] is [string(char)], so a byte that
    is not part of a valid UTF-8 sequence is written as [RuneError].  [skip]
    counts the bytes of the rune just decoded that are still to be passed
    over. *)
Fixpoint SplitByWhitespace_go (text : string) (skip : nat) (buffer : string)
    (inString : bool) (result : list string) : list string :=
  match text with
  | EmptyString =>
      if negb (Str.isEmpty buffer) then result ++ [buffer] else result
  | String _ t =>
      match skip with
      | S skip => SplitByWhitespace_go t skip buffer inString result
      | O =>
          let '(char, width) := decodeRune text in
          let s := runeString char in
          if Contains abnfWs s then
            if inString
            then SplitByWhitespace_go t (width - 1) EmptyString false (result ++ [buffer])
            else SplitByWhitespace_go t (width - 1) buffer false result
          else SplitByWhitespace_go t (width - 1) (buffer +:+ s) true result
      end
  end.

(** Splits the given string into sections, separated by one or more
    characters from [abnfWs]. *)
Definition SplitByWhitespace (text : string) : list string :=
  SplitByWhitespace_go text O EmptyString true [].

(** ** Address values *)

Definition address : Type := MaybeString * Uri * Params.

(** [ParseAddressValue] parses one address, such as from a From, To or
    Contact header: display name, URI and header parameters. *)
Definition ParseAddressValue (addressText : string) : outcome address :=
  if Str.len addressText =? 0 then Err (Errorf "address-type header has empty body")
  else
    let addressText := TrimSpace addressText in
    let firstAngleBracket := findUnescaped addressText "<" [quotesDelim] in
    '(displayName, addressText) ←
      (if 0 <? firstAngleBracket then
         c ← Str.at_ addressText 0;
         if Ascii.eqb c quoteChar then
           addressText ← Str.slice addressText 1 (Str.len addressText);
           let nextQuote := Index addressText (String quoteChar EmptyString) in
           if nextQuote =? -1 then Err (Errorf "unclosed quotes in header text")
           else
             nameField ← Str.slice addressText 0 nextQuote;
             rest ← Str.slice addressText (nextQuote + 1) (Str.len addressText);
             Ok (Some nameField, rest)
         else
           nameField ← Str.slice addressText 0 firstAngleBracket;
           rest ← Str.slice addressText firstAngleBracket (Str.len addressText);
           Ok (Some (TrimSpace nameField), rest)
       else Ok (None, addressText));
    let addressText := TrimSpace addressText in
    c ← Str.at_ addressText 0;
    '(addressText, endOfUri, startOfParams) ←
      (if negb (Ascii.eqb c "<") then
         match displayName with
         | Some _ => Err (Errorf "invalid character following display name in address line")
         | None =>
             let endOfUri := Index addressText ";" in
             let endOfUri := if endOfUri =? -1 then Str.len addressText else endOfUri in
             Ok (addressText, endOfUri, endOfUri)
         end
       else
         addressText ← Str.slice addressText 1 (Str.len addressText);
         let endOfUri := Index addressText ">" in
         if endOfUri =? 0 then Err (Errorf "< without closing > in address")
         else Ok (addressText, endOfUri, endOfUri + 1));
    uriText ← Str.slice addressText 0 endOfUri;
    uri ← ParseUri uriText;
    if Str.len addressText <=? startOfParams then Ok (displayName, uri, NewParams)
    else
      addressText ← Str.slice addressText startOfParams (Str.len addressText);
      '(headerParams, _) ← ParseParams addressText ";" ";" "," true true;
      Ok (displayName, uri, headerParams).

Fixpoint ParseAddressValues_go (addresses rest : string) (idx prevIdx : Z)
    (inBrackets inQuotes : bool) (acc : list address) : outcome (list address) :=
  match rest with
  | EmptyString => Ok acc
  | String char t =>
      if Ascii.eqb char "<" && negb inQuotes then
        ParseAddressValues_go addresses t (idx + 1) prevIdx true inQuotes acc
      else if Ascii.eqb char ">" && negb inQuotes then
        ParseAddressValues_go addresses t (idx + 1) prevIdx false inQuotes acc
      else if Ascii.eqb char quoteChar then
        ParseAddressValues_go addresses t (idx + 1) prevIdx inBrackets (negb inQuotes) acc
      else if negb inQuotes && negb inBrackets && Ascii.eqb char "," then
        segment ← Str.slice addresses prevIdx idx;
        a ← ParseAddressValue segment;
        ParseAddressValues_go addresses t (idx + 1) (idx + 1) inBrackets inQuotes (acc ++ [a])
      else
        ParseAddressValues_go addresses t (idx + 1) prevIdx inBrackets inQuotes acc
  end.

(** [ParseAddressValues] parses a comma-separated list of addresses.  The
    three slices Go returns always have the same length; they are one list
    of triples here. *)
Definition ParseAddressValues (addresses : string) : outcome (list address) :=
  let addresses := addresses +:+ "," in
  ParseAddressValues_go addresses addresses 0 0 false false [].

(** ** Typed header parsers *)

Definition isToName (headerName : string) : bool :=
  String.eqb headerName "to" || String.eqb headerName "t".
Definition isFromName (headerName : string) : bool :=
  String.eqb headerName "from" || String.eqb headerName "f".
Definition isContactName (headerName : string) : bool :=
  String.eqb headerName "contact" || String.eqb headerName "m".

(** The loop of [parseAddressHeader] over the parsed addresses; [idx] is
    the loop index, [headers] the slice built so far. *)
Fixpoint addressHeaders (headerName : string) (idx : Z) (addrs : list address)
    (headers : list Header) : outcome (list Header) :=
  match addrs with
  | [] => Ok headers
  | (displayName, uri, paramSet) :: rest =>
      if isToName headerName then
        if 0 <? idx then Err (Errorf "multiple to: headers in message")
        else match uri with
             | WildcardUri => Err (Errorf "wildcard uri not permitted in to: header")
             | _ => addressHeaders headerName (idx + 1) rest
                      (headers ++ [ToHeader displayName uri paramSet])
             end
      else if isFromName headerName then
        if 0 <? idx then Err (Errorf "multiple from: headers in message")
        else match uri with
             | WildcardUri => Err (Errorf "wildcard uri not permitted in from: header")
             | _ => addressHeaders headerName (idx + 1) rest
                      (headers ++ [FromHeader displayName uri paramSet])
             end
      else if isContactName headerName then
        (* both kinds of [Uri] are [ContactUri]s: the [default] case of the
           type switch is not reachable *)
        if IsWildcard uri && (0 <? Params_Length paramSet) then
          Err (Errorf "wildcard contact header should contain no parameters")
        else if IsWildcard uri && bool_decide (displayName <> None) then
          Err (Errorf "wildcard contact header should contain no display name")
        else addressHeaders headerName (idx + 1) rest
               (headers ++ [ContactHeader displayName uri paramSet])
      else Ok headers
  end.

(** Parse a To, From or Contact header line, producing one or more logical
    headers. *)
Definition parseAddressHeader : HeaderParser := fun headerName headerText =>
  if isToName headerName || isFromName headerName || isContactName headerName then
    addrs ← ParseAddressValues headerText;
    addressHeaders headerName 0 addrs []
  else Ok [].

(** Parse a string representation of a CSeq header. *)
Definition parseCSeq : HeaderParser := fun headerName headerText =>
  match SplitByWhitespace headerText with
  | [part0; part1] =>
      seqno ← ParseUint part0 32;
      if maxCseq <? seqno then Err (Errorf "invalid CSeq: exceeds maximum permitted value")
      else
        let MethodName := TrimSpace part1 in
        if Contains MethodName ";" then Err (Errorf "unexpected ; in CSeq body")
        else Ok [CSeq seqno MethodName]
  | _ => Err (Errorf "CSeq field should have precisely one whitespace section")
  end.

(** Parse a string representation of a Call-ID header. *)
Definition parseCallId : HeaderParser := fun headerName headerText =>
  let callId := TrimSpace headerText in
  if ContainsAny callId abnfWs then Err (Errorf "unexpected whitespace in CallID header body")
  else if Contains callId ";" then Err (Errorf "unexpected semicolon in CallID header body")
  else if Str.len callId =? 0 then Err (Errorf "empty Call-ID body")
  else Ok [CallID callId].

(** The loop of [parseViaHeader] over the comma-separated sections.  [err] is
    Go's named result: the error of a section's [ParseParams] call stays in it
    until the next check. *)
Fixpoint viaSections (sections : list string) (via : list ViaHop) (err : option error)
    : outcome (list ViaHop) :=
  match sections with
  | [] => match err with Some e => Err e | None => Ok via end
  | section :: more =>
      match Split section "/" with
      | part0 :: part1 :: rest2 =>
          match rest2 with
          | [] => Err (Errorf "not enough protocol parts in via header")
          | _ =>
              let part2 := Join rest2 "/" in
              let initialSpaces := Str.len part2 - Str.len (TrimLeft part2 abnfWs) in
              let sentByIdx :=
                IndexAny (Str.sub part2 initialSpaces (Str.len part2)) abnfWs
                + initialSpaces + 1 in
              if sentByIdx =? 0 then
                Err (Errorf "expected whitespace after sent-protocol part in via header")
              else if sentByIdx =? 1 then
                Err (Errorf "empty transport field in via header")
              else
                let name := TrimSpace part0 in
                let version := TrimSpace part1 in
                transportRaw ← Str.slice part2 0 (sentByIdx - 1);
                let transport := TrimSpace transportRaw in
                let err :=
                  if Str.len name =? 0
                  then Some (Errorf "no protocol name provided in via header")
                  else if Str.len version =? 0
                  then Some (Errorf "no version provided in via header")
                  else if Str.len transport =? 0
                  then Some (Errorf "no transport provided in via header")
                  else err in
                match err with
                | Some e => Err e
                | None =>
                    viaBody ← Str.slice part2 sentByIdx (Str.len part2);
                    let paramsIdx := Index viaBody ";" in
                    if paramsIdx =? -1 then
                      d ← ParseHostPort viaBody;
                      viaSections more
                        (via ++ [mkViaHop name version transport (Host d) (Port d) NewParams])
                        None
                    else
                      d ← ParseHostPort (Str.sub viaBody 0 paramsIdx);
                      match ParseParams (Str.sub viaBody paramsIdx (Str.len viaBody))
                              ";" ";" NUL true true with
                      | Ok (ps, _) =>
                          viaSections more
                            (via ++ [mkViaHop name version transport (Host d) (Port d) ps])
                            None
                      | Err e =>
                          viaSections more
                            (via ++ [mkViaHop name version transport (Host d) (Port d) NewParams])
                            (Some e)
                      | Panic => Panic
                      end
                end
          end
      | _ => Err (Errorf "not enough protocol parts in via header")
      end
  end.

(** Parse a string representation of a Via header: one header whose hops
    are the comma-separated sections. *)
Definition parseViaHeader : HeaderParser := fun headerName headerText =>
  via ← viaSections (Split headerText ",") [] None;
  Ok [ViaHeader via].

Definition parseMaxForwards : HeaderParser := fun headerName headerText =>
  value ← ParseUint (TrimSpace headerText) 32; Ok [MaxForwards value].

Definition parseExpires : HeaderParser := fun headerName headerText =>
  value ← ParseUint (TrimSpace headerText) 32; Ok [Expires value].

Definition parseContentLength : HeaderParser := fun headerName headerText =>
  value ← ParseUint (TrimSpace headerText) 32; Ok [ContentLength value].

Definition parseUserAgent : HeaderParser := fun headerName headerText =>
  Ok [UserAgentHeader (TrimSpace headerText)].

Definition parseContentType : HeaderParser := fun headerName headerText =>
  Ok [ContentType (TrimSpace headerText)].

Definition parseAccept : HeaderParser := fun headerName headerText =>
  Ok [Accept (TrimSpace headerText)].

Definition parseAllow : HeaderParser := fun headerName headerText =>
  Ok [AllowHeader (TrimSpace <$> Split headerText ",")].

Definition parseRequire : HeaderParser := fun headerName headerText =>
  Ok [RequireHeader (TrimSpace <$> Split headerText ",")].

Definition parseSupported : HeaderParser := fun headerName headerText =>
  Ok [SupportedHeader (TrimSpace <$> Split headerText ",")].

Definition addressUris (addrs : list address) : list Uri :=
  (fun a : address => a.1.2) <$> addrs.

Definition parseRouteHeader : HeaderParser := fun headerName headerText =>
  addrs ← ParseAddressValues headerText; Ok [RouteHeader (addressUris addrs)].

Definition parseRecordRouteHeader : HeaderParser := fun headerName headerText =>
  addrs ← ParseAddressValues headerText; Ok [RecordRouteHeader (addressUris addrs)].

(** Modelled from the spec: [parseAuthorization] is named by the registry but
    is not part of the sources.  Per the spec it delegates to the parameter
    parser with [quote_values=true] and [permit_singletons=true]; the header
    keeps the name it was parsed under. *)
Definition parseAuthorization : HeaderParser := fun headerName headerText =>
  '(params, _) ← ParseParams headerText NUL "," NUL true true;
  Ok [Authorization headerName params].

(** ** The header-parser registry *)

Definition defaultHeaderParsers : gmap string HeaderParser :=
  list_to_map [
    ("to", parseAddressHeader);
    ("t", parseAddressHeader);
    ("from", parseAddressHeader);
    ("f", parseAddressHeader);
    ("contact", parseAddressHeader);
    ("m", parseAddressHeader);
    ("Call-ID", parseCallId);
    ("cseq", parseCSeq);
    ("via", parseViaHeader);
    ("v", parseViaHeader);
    ("max-forwards", parseMaxForwards);
    ("content-length", parseContentLength);
    ("l", parseContentLength);
    ("expires", parseExpires);
    ("user-agent", parseUserAgent);
    ("allow", parseAllow);
    ("content-type", parseContentType);
    ("accept", parseAccept);
    ("c", parseContentType);
    ("require", parseRequire);
    ("supported", parseSupported);
    ("route", parseRouteHeader);
    ("record-route", parseRecordRouteHeader);
    ("Authorization", parseAuthorization);
    ("Proxy-Authorization", parseAuthorization)
  ].

(** ** Messages *)

(** What the framing loop gives to the constructor of a message.  A request
    is created by [CreateSimpleRequest(method, recipient.Domain().String())]
    and then given its version: of the URI on the request line only the
    domain reaches the message.  A response is created by [NewResponse] from
    the version, the status code and the reason. *)
Inductive StartLine : Type :=
  | RequestLine (method : string) (recipient : Domain) (sipVersion : string)
  | StatusLine (sipVersion : string) (statusCode : Z) (reasonPhrase : string).

(** Modelled from the spec: the constructors [CreateSimpleRequest] and
    [NewResponse], the [Domain] method of a URI with the [String] method of
    its result, and the [headers] container of a message ([AddHeader],
    [GetHeaders], the [Name] of each header type) are not part of the
    sources.  Per the data model a message is a start line, an ordered list
    of headers, looked up by case-insensitive name, and a body; the start
    line of a request keeps the arguments the loop passes to the constructor,
    the domain as the [host[:port]] pair that [ParseSipUri] filled. *)
Record Message : Type := mkMessage {
  startLine : StartLine;
  headers : list Header;
  body : string
}.

Definition Name (h : Header) : string :=
  match h with
  | ToHeader _ _ _ => "To"
  | FromHeader _ _ _ => "From"
  | ContactHeader _ _ _ => "Contact"
  | CallID _ => "Call-ID"
  | CSeq _ _ => "CSeq"
  | ViaHeader _ => "Via"
  | MaxForwards _ => "Max-Forwards"
  | Expires _ => "Expires"
  | ContentLength _ => "Content-Length"
  | UserAgentHeader _ => "User-Agent"
  | ContentType _ => "Content-Type"
  | Accept _ => "Accept"
  | AllowHeader _ => "Allow"
  | RequireHeader _ => "Require"
  | SupportedHeader _ => "Supported"
  | RouteHeader _ => "Route"
  | RecordRouteHeader _ => "Record-Route"
  | Authorization name _ => name
  | GenericHeader name _ => name
  end.

Definition AddHeader (msg : Message) (h : Header) : Message :=
  mkMessage (startLine msg) (headers msg ++ [h]) (body msg).

Definition GetHeaders (msg : Message) (name : string) : list Header :=
  filter (fun h => ToLower (Name h) = ToLower name) (headers msg).

(** [msg.SetBody(body, false)] *)
Definition SetBody (msg : Message) (b : string) : Message :=
  mkMessage (startLine msg) (headers msg) b.

(** ** The parser and its registry *)

(** The [parser] struct.  The two sinks [output] and [errs] are the lists of
    what has been sent on them; [input] is the content of the managed buffer
    and [bodyLengths] the content of the elastic channel. *)
Record parser : Type := mkParser {
  headerParsers : gmap string HeaderParser;
  streamed : bool;
  input : string;
  bodyLengths : list (Z * Z);
  output : list Message;
  errs : list error;
  terminalErr : option error;
  stopped : bool
}.

Definition SetHeaderParser (p : parser) (headerName : string) (headerParser : HeaderParser)
    : parser :=
  mkParser (<[ToLower headerName := headerParser]> (headerParsers p))
    (streamed p) (input p) (bodyLengths p) (output p) (errs p) (terminalErr p) (stopped p).

(** [NewParser]: the registry is filled by ranging over
    [defaultHeaderParsers()] and registering every entry. *)
Definition NewParser (streamed : bool) : parser :=
  map_fold (fun headerName headerParser p => SetHeaderParser p headerName headerParser)
    (mkParser ∅ streamed EmptyString [] [] [] None false)
    defaultHeaderParsers.

(** Parse a header string, producing one or more headers.  [p] is [None]
    for Go's [nil] parser. *)
Definition ParseHeader (headerText : string) (p : option parser) : outcome (list Header) :=
  let colonIdx := Index headerText ":" in
  if colonIdx =? -1 then Err (Errorf "field name with no value in header")
  else
    let fieldName := TrimSpace (Str.sub headerText 0 colonIdx) in
    let lowerFieldName := ToLower fieldName in
    let fieldText := TrimSpace (Str.sub headerText (colonIdx + 1) (Str.len headerText)) in
    let registry :=
      match p with
      | Some p => headerParsers p
      | None => defaultHeaderParsers
      end in
    let registered : option HeaderParser := registry !! lowerFieldName in
    match registered with
    | Some headerParser => headerParser lowerFieldName fieldText
    | None => Ok [GenericHeader fieldName fieldText]
    end.

(** The loop of [GetNextHeaderLine] over [contents[1:]]. *)
Fixpoint nextHeaderLine_go (contents : list string) (buffer : string) (consumed : Z)
    : string * Z :=
  match contents with
  | [] => (buffer, consumed)
  | line :: more =>
      match line with
      | EmptyString => (buffer, consumed)
      | String firstChar _ =>
          if negb (isSpace firstChar) then (buffer, consumed)
          else nextHeaderLine_go more (buffer +:+ " " +:+ TrimSpace line) (consumed + 1)
      end
  end.

(** Extract the next logical header line from the message; lines that start
    with whitespace are a continuation of the previous line. *)
Definition GetNextHeaderLine (contents : list string) : string * Z :=
  match contents with
  | [] => (EmptyString, 0)
  | EmptyString :: _ => (EmptyString, 0)
  | first :: more => nextHeaderLine_go more first 1
  end.

(** ** Start lines *)

Definition startsWithSIP (part : string) : bool :=
  if Str.len part <? 3 then false
  else String.eqb (ToUpper (Str.sub part 0 3)) "SIP".

(** Heuristic to determine if the given transmission looks like a SIP
    request. *)
Definition isRequest (startLine : string) : bool :=
  if negb (Count startLine " " =? 2) then false
  else match Split startLine " " with
       | _ :: _ :: part2 :: _ => startsWithSIP part2
       | _ => false
       end.

(** Heuristic to determine if the given transmission looks like a SIP
    response. *)
Definition isResponse (startLine : string) : bool :=
  if Count startLine " " <? 2 then false
  else match Split startLine " " with
       | part0 :: _ :: _ :: _ => startsWithSIP part0
       | _ => false
       end.

(** Parse the first line of a SIP request. *)
Definition ParseRequestLine (requestLine : string) : outcome (string * Uri * string) :=
  match Split requestLine " " with
  | [part0; part1; part2] =>
      let method := ToUpper part0 in
      recipient ← ParseUri part1;
      match recipient with
      | WildcardUri => Err (Errorf "wildcard URI * not permitted in request line")
      | _ => Ok (method, recipient, part2)
      end
  | _ => Err (Errorf "request line should have 2 spaces")
  end.

(** Parse the first line of a SIP response. *)
Definition ParseStatusLine (statusLine : string) : outcome (string * Z * string) :=
  match Split statusLine " " with
  | part0 :: part1 :: ((_ :: _) as rest) =>
      statusCodeRaw ← ParseUint part1 16;
      Ok (part0, statusCodeRaw, Join rest " ")
  | _ => Err (Errorf "status line has too few spaces")
  end.

(** The start-line step of the framing loop: the new message, or the error
    that becomes the cause of an [InvalidStartLineError]. *)
Definition parseStartLine (startLine : string) : outcome Message :=
  if isRequest startLine then
    '(method, recipient, sipVersion) ← ParseRequestLine startLine;
    match recipient with
    | SipUriOf uri =>
        Ok (mkMessage (RequestLine method (FDomain uri) sipVersion) [] EmptyString)
    | WildcardUri =>
        (* not reached: [ParseRequestLine] has returned its error
           (lemma [ParseRequestLine_no_wildcard]) *)
        Err (Errorf "wildcard URI * not permitted in request line")
    end
  else if isResponse startLine then
    '(sipVersion, statusCode, reason) ← ParseStatusLine startLine;
    Ok (mkMessage (StatusLine sipVersion statusCode reason) [] EmptyString)
  else Err (Errorf "transmission beginning is not a SIP message").

(** ** The managed input buffer and the body-length channel *)

Definition CR : ascii := ascii_of_nat 13.
Definition LF : ascii := ascii_of_nat 10.
Definition CRLF : string := String CR (String LF EmptyString).

(** Modelled from the spec: the [parserBuffer] type is not part of the
    sources.  [NextLine] returns the next line terminated by CRLF, without
    the terminator, and the buffer after it; [None] is the error of a read
    that the stopped buffer cannot satisfy. *)
Fixpoint NextLine (buf : string) : option (string * string) :=
  match buf with
  | EmptyString => None
  | String c t =>
      if Str.isPrefix CRLF buf then Some (EmptyString, Str.drop 1 t)
      else '(line, rest) ← NextLine t; Some (String c line, rest)
  end.

(** Modelled from the spec: [NextChunk(n)] returns the next [n] bytes
    verbatim, or fails when the stopped buffer holds fewer. *)
Definition NextChunk (n : Z) (buf : string) : option (string * string) :=
  if (0 <=? n) && (n <=? Str.len buf)
  then Some (Str.take (Z.to_nat n) buf, Str.drop (Z.to_nat n) buf)
  else None.

(** The successive results of [NextLine] on a buffer: every complete line
    with the buffer that is left after it. *)
Fixpoint lines (buf : string) : list (string * string) :=
  match buf with
  | EmptyString => []
  | String c t =>
      match t with
      | String c' t' =>
          if Ascii.eqb c CR && Ascii.eqb c' LF then (EmptyString, t') :: lines t'
          else match lines t with
               | [] => []
               | (line, rest) :: more => (String c line, rest) :: more
               end
      | EmptyString => []
      end
  end.

(** Calculate the size of a SIP message's body, given the entire contents of
    the message. *)
Definition getBodyLength (data : string) : Z :=
  let idx := Index data (CRLF +:+ CRLF) in
  if idx =? -1 then -1
  else
    let bodyStart := idx + 4 in
    Str.len data - bodyStart.

(** [parser.Write]: the updated parser with the returned [(n, err)]. *)
Definition Write (p : parser) (data : string) : parser * outcome Z :=
  if stopped p then (p, Err (WriteError "cannot write data to stopped parser"))
  else
    let bl := getBodyLength data in
    if negb (streamed p) && (bl =? -1) then (p, Ok 0)
    else
      let lengths :=
        if negb (streamed p) then bodyLengths p ++ [(bl, Str.len data)] else bodyLengths p in
      (mkParser (headerParsers p) (streamed p) (input p +:+ data) lengths
         (output p) (errs p) (terminalErr p) (stopped p),
       Ok (Str.len data)).

(** ** The framing loop *)

Definition withInput (p : parser) (buf : string) : parser :=
  mkParser (headerParsers p) (streamed p) buf (bodyLengths p)
    (output p) (errs p) (terminalErr p) (stopped p).

Definition withBodyLengths (p : parser) (q : list (Z * Z)) : parser :=
  mkParser (headerParsers p) (streamed p) (input p) q
    (output p) (errs p) (terminalErr p) (stopped p).

(** [p.setError(termErr); p.errs <- termErr] *)
Definition raise (p : parser) (termErr : error) : parser :=
  mkParser (headerParsers p) (streamed p) (input p) (bodyLengths p)
    (output p) (errs p ++ [termErr]) (Some termErr) (stopped p).

(** [p.output <- msg] *)
Definition emit (p : parser) (msg : Message) : parser :=
  mkParser (headerParsers p) (streamed p) (input p) (bodyLengths p)
    (output p ++ [msg]) (errs p) (terminalErr p) (stopped p).

(** [p.input.NextChunk(n)] with the result dropped: a failed read leaves the
    stopped buffer exhausted. *)
Definition skipChunk (p : parser) (n : Z) : parser :=
  match NextChunk n (input p) with
  | Some (_, rest) => withInput p rest
  | None => withInput p EmptyString
  end.

(** The closure [flushBuffer]: a header that fails to parse is logged and
    dropped. *)
Definition flushBuffer (p : parser) (buffer : string) (headers : list Header)
    : outcome (list Header) :=
  if Str.isEmpty buffer then Ok headers
  else match ParseHeader buffer (Some p) with
       | Ok newHeaders => Ok (headers ++ newHeaders)
       | Err _ => Ok headers
       | Panic => Panic
       end.

(** The loop over the header section.  [ls] holds the lines the successive
    calls of [NextLine] return, each with the buffer left after it; the
    result is the headers and the buffer at the point where the loop is
    left. *)
Fixpoint readHeaders (p : parser) (ls : list (string * string)) (buffer : string)
    (headers : list Header) : outcome (list Header * string) :=
  match ls with
  | [] => Ok (headers, EmptyString)
  | (line, rest) :: more =>
      match line with
      | EmptyString =>
          headers ← flushBuffer p buffer headers; Ok (headers, rest)
      | String c _ =>
          if negb (inAbnfWs c) then
            headers ← flushBuffer p buffer headers;
            readHeaders p more line headers
          else if negb (Str.isEmpty buffer) then
            readHeaders p more (buffer +:+ " " +:+ line) headers
          else
            readHeaders p more buffer headers
      end
  end.

(** How one pass through the body of the outer [for] loop ends. *)
Inductive step : Type :=
  | Continue (p : parser)   (* [continue], or the end of the loop body *)
  | Break (p : parser)      (* [break]: the buffer is closed *)
  | Blocked (p : parser)    (* waiting on an empty body-length channel *)
  | Crashed (p : parser).   (* a run-time panic *)

(** The part of the loop body that follows the header section: body length,
    body, emission. *)
Definition readBody (p : parser) (msg : Message) : step :=
  let next (p : parser) (contentLength : Z) : step :=
    match NextChunk contentLength (input p) with
    | None =>
        Continue (raise (withInput p EmptyString)
                    (BrokenMessageError (Errorf "read message body failed")))
    | Some (body, rest) =>
        let p := withInput p rest in
        if negb (Str.len body =? contentLength) then
          Continue (raise p (BrokenMessageError (Errorf "incomplete message body")))
        else
          let msg := if negb (Str.isEmpty (TrimSpace body)) then SetBody msg body else msg in
          Continue (emit p msg)
    end in
  if streamed p then
    match GetHeaders msg "Content-Length" with
    | [] =>
        Continue (raise p (MalformedMessageError
                             (Errorf "missing required Content-Length header")))
    | [h] =>
        (* the type assertion [contentLengthHeaders[0].( *ContentLength)] *)
        match h with
        | ContentLength n => next p n
        | _ => Crashed p
        end
    | _ :: _ :: _ =>
        Continue (raise p (MalformedMessageError
                             (Errorf "multiple Content-Length headers on message")))
    end
  else
    match bodyLengths p with
    | [] => Blocked p
    | (bl, _) :: q => next (withBodyLengths p q) bl
    end.

(** One pass through the body of the [for] loop of [parser.parse]. *)
Definition iteration (p : parser) : step :=
  match NextLine (input p) with
  | None => Break p
  | Some (startLine, rest) =>
      let p := withInput p rest in
      match parseStartLine startLine with
      | Panic => Crashed p
      | Err termErr =>
          let p := raise p (InvalidStartLineError termErr) in
          if negb (streamed p) then
            match bodyLengths p with
            | [] => Blocked p
            | (_, total) :: q =>
                let skip := total - Str.len startLine - 2 in
                Continue (skipChunk (withBodyLengths p q) skip)
            end
          else Continue p
      | Ok msg =>
          match readHeaders p (lines (input p)) EmptyString [] with
          | Ok (hs, rest) =>
              readBody (withInput p rest) (foldl AddHeader msg hs)
          | Err _ | Panic => Crashed p
          end
      end
  end.

(** How the framing loop ends. *)
Inductive ending : Type := Exited | Waiting | Panicked | OutOfFuel.

Fixpoint forLoop (fuel : nat) (p : parser) : ending * parser :=
  match fuel with
  | O => (OutOfFuel, p)
  | S fuel =>
      match iteration p with
      | Continue p => forLoop fuel p
      | Break p => (Exited, p)
      | Blocked p => (Waiting, p)
      | Crashed p => (Panicked, p)
      end
  end.

(** [parser.parse], run on everything that was written before [Stop]: each
    pass that continues has read a line, so the length of the buffer bounds
    the number of passes. *)
Definition parse (p : parser) : ending * parser :=
  forLoop (S (String.length (input p))) p.

(** Write the given datagrams or stream fragments, then run the loop. *)
Definition feed (p : parser) (writes : list string) : parser :=
  foldl (fun p data => (Write p data).1) p writes.

(** ** Notions used to state the properties *)

(** What [NewParser] registers: every default entry under its lowercased
    name. *)
Definition registeredParsers : list (string * HeaderParser) := [
    ("to", parseAddressHeader);
    ("t", parseAddressHeader);
    ("from", parseAddressHeader);
    ("f", parseAddressHeader);
    ("contact", parseAddressHeader);
    ("m", parseAddressHeader);
    ("call-id", parseCallId);
    ("cseq", parseCSeq);
    ("via", parseViaHeader);
    ("v", parseViaHeader);
    ("max-forwards", parseMaxForwards);
    ("content-length", parseContentLength);
    ("l", parseContentLength);
    ("expires", parseExpires);
    ("user-agent", parseUserAgent);
    ("allow", parseAllow);
    ("content-type", parseContentType);
    ("accept", parseAccept);
    ("c", parseContentType);
    ("require", parseRequire);
    ("supported", parseSupported);
    ("route", parseRouteHeader);
    ("record-route", parseRecordRouteHeader);
    ("authorization", parseAuthorization);
    ("proxy-authorization", parseAuthorization)
  ].

(** The local variables [fieldName] and [fieldText] of [ParseHeader]. *)
Definition fieldNameOf (headerText : string) : string :=
  TrimSpace (Str.sub headerText 0 (Index headerText ":")).

Definition fieldTextOf (headerText : string) : string :=
  TrimSpace (Str.sub headerText (Index headerText ":" + 1) (Str.len headerText)).

(** [s] between double quotes. *)
Definition quoted (s : string) : string :=
  String quoteChar (s +:+ String quoteChar EmptyString).

(** The parser a pass of the loop leaves behind. *)
Definition after (s : step) : parser :=
  match s with
  | Continue p | Break p | Blocked p | Crashed p => p
  end.

(** A message whose start line and headers have the given properties. *)
Definition goodMessage (goodStart : StartLine -> Prop) (goodHeader : Header -> Prop)
    (msg : Message) : Prop :=
  goodStart (startLine msg) /\ Forall goodHeader (headers msg).

(** The loop keeps the registry of [NewParser] and has emitted good messages
    only. *)
Definition emitsGood (goodStart : StartLine -> Prop) (goodHeader : Header -> Prop)
    (p : parser) : Prop :=
  headerParsers p = list_to_map registeredParsers
  /\ Forall (goodMessage goodStart goodHeader) (output p).

(** The status code of a response is a [uint16]. *)
Definition statusIsUint16 (l : StartLine) : Prop :=
  match l with
  | StatusLine _ statusCode _ => 0 <= statusCode <= 65535
  | RequestLine _ _ _ => True
  end.


Definition wildcardConfinedHeader (h : Header) : Prop :=
  match h with
  | ToHeader _ uri _ | FromHeader _ uri _ => uri <> WildcardUri
  | ContactHeader displayName uri params =>
      uri = WildcardUri -> displayName = None /\ params = []
  | _ => True
  end.


(** ** Sample traffic *)

Definition register : string :=
  "REGISTER sip:registrar.example.com SIP/2.0" +:+ CRLF +:+
  "Via: SIP/2.0/UDP client.example.com:5060" +:+ CRLF +:+
  "From: Alice <sip:alice@example.com>;tag=1928" +:+ CRLF +:+
  "To: Alice <sip:alice@example.com>" +:+ CRLF +:+
  "Call-ID: a84b4c76e66710@client.example.com" +:+ CRLF +:+
  "CSeq: 314159 REGISTER" +:+ CRLF +:+
  "Max-Forwards: 70" +:+ CRLF +:+
  "Content-Length: 0" +:+ CRLF +:+ CRLF.

Definition folded : string :=
  "SIP/2.0 200 OK" +:+ CRLF +:+
  "Subject: foo" +:+ CRLF +:+
  " bar" +:+ CRLF +:+
  "Content-Length: 0" +:+ CRLF +:+ CRLF.

Definition duplicated : string :=
  "SIP/2.0 200 OK" +:+ CRLF +:+
  "Content-Length: 0" +:+ CRLF +:+
  "l: 0" +:+ CRLF +:+ CRLF.

Definition helloWorld : string :=
  "HELLO WORLD" +:+ CRLF +:+ "Content-Length: 0" +:+ CRLF +:+ CRLF.

Definition ok200 : string :=
  "SIP/2.0 200 OK" +:+ CRLF +:+ "Content-Length: 0" +:+ CRLF +:+ CRLF.

Definition status42 : string :=
  "SIP/2.0 42 Foo" +:+ CRLF +:+ "Content-Length: 0" +:+ CRLF +:+ CRLF.


(** ** Further notions used to state properties *)

(** The text without its ABNF white space. *)
Fixpoint withoutAbnfWs (s : string) : string :=
  match s with
  | EmptyString => EmptyString
  | String c t => if inAbnfWs c then withoutAbnfWs t else String c (withoutAbnfWs t)
  end.

(** The short forms in the default registry, each with the name it stands
    for. *)
Definition shortForms : list (string * string) :=
  [("t", "to"); ("f", "from"); ("m", "contact");
   ("v", "via"); ("l", "content-length"); ("c", "content-type")].

(** A Via hop whose protocol name, version and transport are all present. *)
Definition hopComplete (hop : ViaHop) : Prop :=
  ProtocolName hop <> EmptyString
  /\ ProtocolVersion hop <> EmptyString
  /\ Transport hop <> EmptyString.

(** A line that [GetNextHeaderLine] takes as the continuation of the line
    before it: it starts with white space. *)
Definition continuation (line : string) : bool :=
  match line with
  | EmptyString => false
  | String firstChar _ => isSpace firstChar
  end.

(** The state of a datagram-mode parser that holds exactly the given
    datagrams: the buffer is the datagrams one after the other, the
    body-length channel has the pair that [Write] computed for each. *)
Definition aligned (p : parser) (datagrams : list string) : Prop :=
  streamed p = false
  /\ input p = foldr String.append EmptyString datagrams
  /\ bodyLengths p = (fun d : string => (getBodyLength d, Str.len d)) <$> datagrams
  /\ Forall (fun d : string => getBodyLength d <> -1) datagrams.

(** The bytes of a datagram after its first blank line. *)
Definition bodyOf (datagram : string) : string :=
  Str.sub datagram (Str.len datagram - getBodyLength datagram) (Str.len datagram).

(** A message as stream mode frames it: exactly one Content-Length header,
    and a body that is empty or has the length the header gives. *)
Definition framedByContentLength (msg : Message) : Prop :=
  exists n : Z,
    GetHeaders msg "Content-Length" = [ContentLength n]
    /\ 0 <= n
    /\ (body msg = EmptyString \/ Str.len (body msg) = n).

(** How a pass of the loop may change the parser [p] into [p']: the
    registry, the mode and the stopped flag are kept, and at most one result
    is reported, a message or an error; an error also becomes the terminal
    error. *)
Definition reportsAtMostOne (p p' : parser) : Prop :=
  headerParsers p' = headerParsers p
  /\ streamed p' = streamed p
  /\ stopped p' = stopped p
  /\ ((output p' = output p /\ errs p' = errs p /\ terminalErr p' = terminalErr p)
      \/ (exists msg : Message,
            output p' = output p ++ [msg] /\ errs p' = errs p
            /\ terminalErr p' = terminalErr p)
      \/ (exists e : error,
            errs p' = errs p ++ [e] /\ terminalErr p' = Some e
            /\ output p' = output p)).

(** A URI text between angle brackets. *)
Definition bracketed (uriText : string) : string := "<" +:+ uriText +:+ ">".

(** A byte that [ParseParams] copies into its buffer outside quotes as it
    is: an ASCII byte that is not the separator, the end byte, the double
    quote, the equals sign, space or tab. *)
Definition plainByte (sep end_ : ascii) (c : ascii) : bool :=
  isAsciiByte c
  && negb (Ascii.eqb c end_ || Ascii.eqb c sep || Ascii.eqb c quoteChar
           || Ascii.eqb c "=" || inAbnfWs c).

Fixpoint allBytes (p : ascii -> bool) (s : string) : bool :=
  match s with
  | EmptyString => true
  | String c t => p c && allBytes p t
  end.

(** A list of keys with values, written as [ParseParams] reads it: every
    pair preceded by the separator, the key and the value around an equals
    sign. *)
Definition renderParams (sep : ascii) (pairs : list (string * string)) : string :=
  foldr (fun (kv : string * string) (rest : string) =>
           String sep (kv.1 +:+ String "=" (kv.2 +:+ rest)))
    EmptyString pairs.

(** * Facts about byte strings *)

Section StringFacts.

Implicit Types (s t : string) (c : ascii) (n : nat).

Lemma app_String c s t : String c s +:+ t = String c (s +:+ t).
Proof. reflexivity. Qed.

Lemma app_Empty t : EmptyString +:+ t = t.
Proof. reflexivity. Qed.

Lemma length_app s t :
  String.length (s +:+ t) = (String.length s + String.length t)%nat.
Proof.
  induction s as [|a s IH]; [reflexivity|].
  rewrite app_String. simpl. now rewrite IH.
Qed.

Lemma len_app s t : Str.len (s +:+ t) = Str.len s + Str.len t.
Proof. unfold Str.len. rewrite length_app. lia. Qed.

Lemma len_nonneg s : 0 <= Str.len s.
Proof. unfold Str.len. lia. Qed.

Lemma take_drop n s : Str.take n s +:+ Str.drop n s = s.
Proof.
  revert s. induction n as [|n IH]; intros [|a s]; simpl; try reflexivity.
  rewrite app_String. f_equal. apply IH.
Qed.

Lemma length_take n s : (n <= String.length s)%nat -> String.length (Str.take n s) = n.
Proof.
  revert s. induction n as [|n IH]; intros [|a s]; simpl; intros; try lia.
  rewrite IH; lia.
Qed.

Lemma take_app_length s t : Str.take (String.length s) (s +:+ t) = s.
Proof.
  induction s as [|a s IH]; [now destruct t|].
  rewrite app_String. simpl. now rewrite IH.
Qed.

Lemma drop_app_length s t : Str.drop (String.length s) (s +:+ t) = t.
Proof. induction s as [|a s IH]; [now destruct t | exact IH]. Qed.

Lemma length_drop n s : String.length (Str.drop n s) = (String.length s - n)%nat.
Proof. revert s. induction n as [|n IH]; intros [|a s]; simpl; auto. Qed.

Lemma append_assoc s t u : (s +:+ t) +:+ u = s +:+ (t +:+ u).
Proof.
  induction s as [|a s IH]; [reflexivity|].
  rewrite !app_String. now rewrite IH.
Qed.

Lemma mem_app c s t : Str.mem c (s +:+ t) = Str.mem c s || Str.mem c t.
Proof.
  induction s as [|a s IH]; [reflexivity|].
  rewrite app_String. simpl. rewrite IH. now rewrite orb_assoc.
Qed.

(** Searching for a single byte. *)
Lemma find_char_None c s :
  Str.find (String c EmptyString) s = None <-> Str.mem c s = false.
Proof.
  induction s as [|a s IH]; simpl; [tauto|].
  rewrite (Ascii.eqb_sym c a).
  destruct (Ascii.eqb a c); simpl; [split; discriminate|].
  destruct (Str.find (String c EmptyString) s); simpl.
  - split; [discriminate|]. intros H. apply IH in H. discriminate.
  - split; [intros _; now apply IH | reflexivity].
Qed.

Lemma find_char_Some c s i :
  Str.find (String c EmptyString) s = Some i ->
  s = Str.take i s +:+ String c (Str.drop (S i) s)
  /\ Str.mem c (Str.take i s) = false
  /\ (i < String.length s)%nat.
Proof.
  revert i. induction s as [|a s IH]; simpl; intros i; [discriminate|].
  rewrite (Ascii.eqb_sym c a).
  destruct (Ascii.eqb_spec a c) as [->|Hne]; simpl.
  - intros [= <-]. split; [reflexivity|]. split; [reflexivity | simpl; lia].
  - destruct (Str.find (String c EmptyString) s) as [j|]; simpl; [|discriminate].
    intros [= <-]. destruct (IH j eq_refl) as (E & M & L).
    split; [|split].
    + change (String a s = String a (Str.take j s +:+ String c (Str.drop (S j) s))).
      now rewrite <- E.
    + change (Ascii.eqb a c || Str.mem c (Str.take j s) = false).
      rewrite M. destruct (Ascii.eqb_spec a c); [contradiction | reflexivity].
    + simpl. lia.
Qed.

Lemma Index_char_absent c s :
  Index s (String c EmptyString) = -1 <-> Str.mem c s = false.
Proof.
  unfold Index, ofIndex. rewrite <- find_char_None.
  destruct (Str.find _ s); split; intros; try reflexivity; try discriminate; lia.
Qed.

Lemma Index_char_present c s :
  Index s (String c EmptyString) <> -1 ->
  exists i : nat,
    Index s (String c EmptyString) = Z.of_nat i
    /\ s = Str.take i s +:+ String c (Str.drop (S i) s)
    /\ Str.mem c (Str.take i s) = false
    /\ (i < String.length s)%nat.
Proof.
  unfold Index, ofIndex.
  destruct (Str.find _ s) as [i|] eqn:E; [|congruence].
  intros _. exists i. split; [reflexivity|]. now apply find_char_Some.
Qed.

Lemma Contains_char c s : Contains s (String c EmptyString) = Str.mem c s.
Proof.
  unfold Contains. destruct (Str.mem c s) eqn:M.
  - destruct (Z.eqb_spec (Index s (String c EmptyString)) (-1)) as [E|]; [|reflexivity].
    apply Index_char_absent in E. congruence.
  - apply Index_char_absent in M. now rewrite M.
Qed.

Lemma mem_dropWhile (p : ascii -> bool) c s :
  p c = false -> Str.mem c (Str.dropWhile p s) = Str.mem c s.
Proof.
  intros Hp. induction s as [|a s IH]; simpl; [reflexivity|].
  destruct (p a) eqn:Ha; simpl; [|reflexivity].
  rewrite IH. destruct (Ascii.eqb_spec a c) as [->|]; [congruence | reflexivity].
Qed.

Lemma mem_dropWhileEnd (p : ascii -> bool) c s :
  p c = false -> Str.mem c (Str.dropWhileEnd p s) = Str.mem c s.
Proof.
  intros Hp. induction s as [|a s IH]; simpl; [reflexivity|].
  destruct (Str.dropWhileEnd p s) as [|b r] eqn:E.
  - rewrite <- IH. simpl. destruct (p a) eqn:Ha; simpl.
    + destruct (Ascii.eqb_spec a c) as [->|]; [congruence | reflexivity].
    + now rewrite orb_false_r.
  - simpl. now rewrite <- IH.
Qed.

Lemma mem_TrimSpace c s : isSpace c = false -> Str.mem c (TrimSpace s) = Str.mem c s.
Proof.
  intros H. unfold TrimSpace. now rewrite mem_dropWhileEnd, mem_dropWhile.
Qed.

End StringFacts.

(** Slices and trimming. *)

Lemma take_all (n : nat) (s : string) :
  (String.length s <= n)%nat -> Str.take n s = s.
Proof.
  revert s. induction n as [|n IH]; intros [|a s]; simpl; intros; try reflexivity; try lia.
  f_equal. apply IH. lia.
Qed.

Lemma drop_all (s : string) : Str.drop (String.length s) s = EmptyString.
Proof. induction s as [|a s IH]; [reflexivity | exact IH]. Qed.

Lemma app_Empty_r (s : string) : s +:+ EmptyString = s.
Proof.
  induction s as [|a s IH]; [reflexivity|]. rewrite app_String. now rewrite IH.
Qed.

Lemma sub_prefix (s : string) (i : nat) : Str.sub s 0 (Z.of_nat i) = Str.take i s.
Proof. unfold Str.sub. now rewrite Z.sub_0_r, Nat2Z.id. Qed.

Lemma sub_suffix (s : string) (i : nat) :
  Str.sub s (Z.of_nat i) (Str.len s) = Str.drop i s.
Proof.
  unfold Str.sub. rewrite Nat2Z.id. apply take_all.
  rewrite length_drop. unfold Str.len. lia.
Qed.

Lemma sub_whole (s : string) : Str.sub s 0 (Str.len s) = s.
Proof. unfold Str.len. rewrite sub_prefix. now apply take_all. Qed.

Lemma sub_end (s : string) : Str.sub s (Str.len s) (Str.len s) = EmptyString.
Proof. unfold Str.sub. now rewrite Z.sub_diag. Qed.

Lemma drop_split (s : string) (i : nat) (c : ascii) :
  s = Str.take i s +:+ String c (Str.drop (S i) s) ->
  (i < String.length s)%nat ->
  Str.drop i s = String c (Str.drop (S i) s).
Proof.
  intros E L. rewrite E at 1.
  rewrite <- (length_take i s) at 1 by lia.
  apply drop_app_length.
Qed.

Lemma dropWhileEnd_keeps (p : ascii -> bool) (c : ascii) (s : string) :
  p c = false -> Str.dropWhileEnd p (String c s) = String c (Str.dropWhileEnd p s).
Proof. intros H. simpl. rewrite H. now destruct (Str.dropWhileEnd p s). Qed.

Lemma dropWhileEnd_idem (p : ascii -> bool) (s : string) :
  Str.dropWhileEnd p (Str.dropWhileEnd p s) = Str.dropWhileEnd p s.
Proof.
  induction s as [|c t IH]; [reflexivity|]. simpl.
  destruct (Str.dropWhileEnd p t) as [|b r] eqn:E.
  - destruct (p c) eqn:Hc; [reflexivity|]. simpl. now rewrite Hc.
  - change (Str.dropWhileEnd p (String c (String b r))) with
      (match Str.dropWhileEnd p (String b r) with
       | EmptyString => if p c then EmptyString else String c EmptyString
       | String _ _ as r' => String c r'
       end).
    now rewrite IH.
Qed.

Lemma slice_tail (c : ascii) (s : string) :
  Str.slice (String c s) 1 (Str.len (String c s)) = Ok s.
Proof.
  unfold Str.slice. rewrite Z.leb_refl.
  assert (L : Str.len (String c s) = 1 + Str.len s) by (unfold Str.len; simpl; lia).
  pose proof (len_nonneg s).
  replace (1 <=? Str.len (String c s)) with true by (symmetry; apply Z.leb_le; lia).
  simpl. f_equal. unfold Str.sub. rewrite L.
  replace (1 + Str.len s - 1) with (Str.len s) by lia.
  unfold Str.len. rewrite Nat2Z.id. simpl. now apply take_all.
Qed.

Lemma at_head (c : ascii) (s : string) : Str.at_ (String c s) 0 = Ok c.
Proof.
  unfold Str.at_.
  replace (0 <? Str.len (String c s)) with true; [reflexivity|].
  symmetry. apply Z.ltb_lt. unfold Str.len. simpl. lia.
Qed.

Lemma slice_in_range (s : string) (lo hi : Z) :
  0 <= lo <= hi -> hi <= Str.len s -> Str.slice s lo hi = Ok (Str.sub s lo hi).
Proof.
  intros [L1 L2] H. unfold Str.slice.
  apply Z.leb_le in L1, L2, H. now rewrite L1, L2, H.
Qed.

Lemma length_map (f : ascii -> ascii) (s : string) :
  String.length (Str.map f s) = String.length s.
Proof. induction s as [|c t IH]; simpl; [reflexivity | now rewrite IH]. Qed.

(** * Worked examples *)

Example Split_ex : Split "a b  c" " " = ["a"; "b"; EmptyString; "c"].
Proof. reflexivity. Qed.

Example Index_ex : Index "abc;d?e" ";" = 3 /\ Index "abc" "?" = -1.
Proof. split; reflexivity. Qed.

Example TrimSpace_ex : TrimSpace "  foo  bar " = "foo  bar".
Proof. reflexivity. Qed.

Example ParseUint_ex :
  ParseUint "65535" 16 = Ok 65535 /\ ParseUint "65536" 16 = Err (RangeError "ParseUint").
Proof. split; reflexivity. Qed.

Example ParseParams_ex :
  ParseParams ";tag=1928;lr" ";" ";" "," true true
  = Ok ([("tag", Some "1928"); ("lr", None)], 12).
Proof. reflexivity. Qed.

Example ParseUri_ex :
  ParseUri "sips:alice:pw@example.com:5061;transport=tcp;lr?subject=hi"
  = Ok (SipUriOf (mkSipUri true (Some "alice") (Some "pw")
                    (mkDomain "example.com" (Some 5061))
                    [("transport", Some "tcp"); ("lr", None)]
                    [("subject", Some "hi")])).
Proof. reflexivity. Qed.

Example SplitByWhitespace_ex :
  SplitByWhitespace "314159  REGISTER" = ["314159"; "REGISTER"]
  /\ SplitByWhitespace " 1 INVITE" = [EmptyString; "1"; "INVITE"].
Proof. split; reflexivity. Qed.

Example ParseAddressValue_ex :
  ParseAddressValue "Alice <sip:alice@example.com>;tag=1928"
  = Ok (Some "Alice",
        SipUriOf (mkSipUri false (Some "alice") None (mkDomain "example.com" None) [] []),
        [("tag", Some "1928")]).
Proof. reflexivity. Qed.

Example parseViaHeader_ex :
  parseViaHeader "via" "SIP/2.0/UDP host1:5060;branch=z9hG4bK1,SIP/2.0/TCP host2;branch=z9hG4bK2"
  = Ok [ViaHeader [mkViaHop "SIP" "2.0" "UDP" "host1" (Some 5060) [("branch", Some "z9hG4bK1")];
                   mkViaHop "SIP" "2.0" "TCP" "host2" None [("branch", Some "z9hG4bK2")]]].
Proof. reflexivity. Qed.

Example parseAddressHeader_ex :
  parseAddressHeader "contact" "*" = Ok [ContactHeader None WildcardUri []]
  /\ is_err (parseAddressHeader "contact" "*;expires=0") = true
  /\ is_err (parseAddressHeader "to" "*") = true.
Proof. repeat split; reflexivity. Qed.

Example ParseHeader_ex :
  ParseHeader "CSeq: 314159 REGISTER" (Some (NewParser true)) = Ok [CSeq 314159 "REGISTER"]
  /\ ParseHeader "X-Custom: value" (Some (NewParser true))
     = Ok [GenericHeader "X-Custom" "value"].
Proof. split; vm_compute; reflexivity. Qed.

Example parseStartLine_ex :
  parseStartLine "SIP/2.0 200 OK" = Ok (mkMessage (StatusLine "SIP/2.0" 200 "OK") [] EmptyString)
  /\ is_err (parseStartLine "HELLO WORLD") = true
  /\ is_err (parseStartLine "REGISTER * SIP/2.0") = true.
Proof. repeat split; reflexivity. Qed.

Example register_stream :
  let '(e, p) := parse (feed (NewParser true) [register]) in
  e = Exited /\ errs p = [] /\
  (fun m => (startLine m, Name <$> headers m, body m)) <$> output p =
  [(RequestLine "REGISTER" (mkDomain "registrar.example.com" None) "SIP/2.0",
    ["Via"; "From"; "To"; "Call-ID"; "CSeq"; "Max-Forwards"; "Content-Length"], EmptyString)].
Proof. vm_compute. repeat split; reflexivity. Qed.

(** * CSeq *)

(** C5 (confirmed): [parseCSeq] succeeds exactly when the header value
    whitespace-splits into two tokens, the first parses as a base-10 unsigned
    32-bit integer that is at most 2^31-1, and the method token holds no
    semicolon; it then returns one CSeq header with that number and that
    method (the token as [strings.TrimSpace] leaves it). *)
Theorem parseCSeq_accepts_iff (headerName headerText : string) (hs : list Header) :
  parseCSeq headerName headerText = Ok hs <->
  exists (seqToken methodToken : string) (seqno : Z),
    SplitByWhitespace headerText = [seqToken; methodToken]
    /\ ParseUint seqToken 32 = Ok seqno
    /\ seqno <= 2 ^ 31 - 1
    /\ Str.mem ";" methodToken = false
    /\ hs = [CSeq seqno (TrimSpace methodToken)].
Proof.
  unfold parseCSeq. split.
  - destruct (SplitByWhitespace headerText) as [|a [|b [|? ?]]]; try discriminate.
    destruct (ParseUint a 32) as [n| |] eqn:En; simpl; try discriminate.
    unfold maxCseq. destruct (Z.ltb_spec 2147483647 n); [discriminate|].
    rewrite Contains_char, mem_TrimSpace by reflexivity.
    destruct (Str.mem ";" b) eqn:Eb; [discriminate|].
    intros [= <-]. exists a, b, n. repeat split; try assumption; lia.
  - intros (a & b & n & -> & -> & Hn & Hb & ->). simpl.
    unfold maxCseq. destruct (Z.ltb_spec 2147483647 n); [lia|].
    rewrite Contains_char, mem_TrimSpace by reflexivity. now rewrite Hb.
Qed.

(** * The host section of a SIP URI *)

(** C6 (as amended): after the user-info, the [host[:port]] section that
    [ParseSipUri] parses ends at the first semicolon when the remaining text
    holds one; otherwise at the first question mark; otherwise at the end of
    the string.  URI parameters and headers are parsed from that position. *)
Theorem host_section_end (secure : bool) (user password : MaybeString) (uriStr : string) :
  exists hostport tail : string,
    uriStr = hostport +:+ tail
    /\ Str.len hostport = endOfUriPart uriStr
    /\ Str.mem ";" hostport = false
    /\ (Str.mem ";" uriStr = true -> exists t, tail = String ";" t)
    /\ (Str.mem ";" uriStr = false ->
        Str.mem "?" hostport = false
        /\ (Str.mem "?" uriStr = true -> exists t, tail = String "?" t)
        /\ (Str.mem "?" uriStr = false -> tail = EmptyString))
    /\ parseSipUriRest secure user password uriStr
       = (domain ← ParseHostPort hostport;
          parseUriTail secure user password domain tail).
Proof.
  unfold parseSipUriRest, endOfUriPart. cbv zeta.
  destruct (Index uriStr ";" =? -1) eqn:Semi; cbv beta iota.
  - apply Z.eqb_eq in Semi.
    pose proof (proj1 (Index_char_absent _ _) Semi) as NoSemi.
    destruct (Index uriStr "?" =? -1) eqn:Q; cbv beta iota.
    + apply Z.eqb_eq, Index_char_absent in Q.
      exists uriStr, EmptyString.
      rewrite sub_whole, sub_end, app_Empty_r.
      repeat split; try assumption; try congruence.
    + apply Z.eqb_neq in Q.
      destruct (Index_char_present _ _ Q) as (i & Ei & Es & M & L).
      exists (Str.take i uriStr), (String "?" (Str.drop (S i) uriStr)).
      rewrite Ei, sub_prefix, sub_suffix, (drop_split _ _ _ Es L).
      split; [exact Es|]. split; [unfold Str.len; rewrite length_take; lia|].
      assert (Str.mem ";" (Str.take i uriStr) = false).
      { rewrite Es in NoSemi. rewrite mem_app in NoSemi.
        now apply orb_false_iff in NoSemi. }
      repeat split; try assumption; try congruence; eauto.
      intros NoQ. apply Index_char_absent in NoQ. contradiction.
  - rewrite Semi. apply Z.eqb_neq in Semi.
    destruct (Index_char_present _ _ Semi) as (i & Ei & Es & M & L).
    exists (Str.take i uriStr), (String ";" (Str.drop (S i) uriStr)).
    rewrite Ei, sub_prefix, sub_suffix, (drop_split _ _ _ Es L).
    split; [exact Es|]. split; [unfold Str.len; rewrite length_take; lia|].
    split; [exact M|]. split; [eauto|]. split; [|reflexivity].
    intros NoSemi. apply Index_char_absent in NoSemi. contradiction.
Qed.

(** C6 (counterexample): in [sip:host?a=b;c] the first of the two delimiters
    is the question mark at offset 4, yet the host section runs to the
    semicolon at offset 8, and the URI parses with host [host?a=b]. *)
Lemma host_section_question_mark_first :
  IndexAny "host?a=b;c" ";?" = 4
  /\ endOfUriPart "host?a=b;c" = 8
  /\ endOfUriPart "host?a=b;c" <> IndexAny "host?a=b;c" ";?"
  /\ ParseSipUri "sip:host?a=b;c"
     = Ok (mkSipUri false None None (mkDomain "host?a=b" None) [("c", None)] []).
Proof. repeat split; try reflexivity. discriminate. Qed.

(** * Quoted parameter values *)

(** Inside a quoted value, a closing quote that is followed by the [end]
    byte is an error whenever [end] differs from [sep]. *)
Lemma closing_quote_then_end_byte (sep end_ : ascii) (permitSingletons : bool)
    (t : string) (consumed : Z) (st : scan) :
  sc_inQuotes st = true ->
  sc_parsingKey st = false ->
  Ascii.eqb quoteChar end_ = false ->
  Ascii.eqb quoteChar sep = false ->
  Ascii.eqb end_ sep = false ->
  parseLoop sep end_ true permitSingletons (String quoteChar (String end_ t)) consumed st
  = Err (Errorf "unexpected character after quoted param").
Proof.
  intros Q K E S ES. cbn [parseLoop].
  rewrite E, S, Ascii.eqb_refl, Q, K, ES. reflexivity.
Qed.

(** C8 (code defect): a closing quote followed by the [end] byte is
    rejected.  With [sep = ';'] and [end = '?'], the closing quote of
    [;a="b"] is accepted before the separator and at the end of the text, and
    the unquoted [;a=b?x=y] stops at the end byte, but [;a="b"?x=y] fails. *)
Theorem closing_quote_before_end_byte :
  ParseParams (";a=" +:+ quoted "b" +:+ "?x=y") ";" ";" "?" true true
  = Err (Errorf "unexpected character after quoted param")
  /\ ParseParams (";a=" +:+ quoted "b" +:+ ";x=y") ";" ";" "?" true true
     = Ok ([("a", Some "b"); ("x", Some "y")], 10)
  /\ ParseParams (";a=" +:+ quoted "b") ";" ";" "?" true true
     = Ok ([("a", Some "b")], 6)
  /\ ParseParams ";a=b?x=y" ";" ";" "?" true true
     = Ok ([("a", Some "b")], 4).
Proof. repeat split; reflexivity. Qed.

(** * Unclosed angle brackets *)

Lemma TrimSpace_bracket (body : string) :
  TrimSpace (String "<" body) = String "<" (Str.dropWhileEnd isSpace body).
Proof. unfold TrimSpace. simpl Str.dropWhile. now apply dropWhileEnd_keeps. Qed.

(** C2 (code defect): when an opening bracket has no closing bracket after
    it, [strings.Index] returns -1, the test [endOfUri == 0] does not fire,
    and the slice [addressText[:endOfUri]] panics; no error is returned. *)
Theorem unclosed_bracket_panics (body : string) :
  Str.mem ">" body = false ->
  ParseAddressValue (String "<" body) = Panic.
Proof.
  intros NoClose. unfold ParseAddressValue.
  change (Str.len (String "<" body) =? 0) with false.
  cbv beta iota. rewrite TrimSpace_bracket.
  set (text := Str.dropWhileEnd isSpace body).
  assert (NoClose' : Index text ">" = -1).
  { apply Index_char_absent. unfold text. now rewrite mem_dropWhileEnd. }
  change (findUnescaped (String "<" text) "<" [quotesDelim]) with 0.
  change (0 <? 0) with false. cbn [mbind outcome_bind].
  assert (T : TrimSpace (String "<" text) = String "<" text).
  { rewrite TrimSpace_bracket. unfold text. now rewrite dropWhileEnd_idem. }
  rewrite T, at_head. cbn [mbind outcome_bind].
  change (negb ("<" =? "<")%char) with false. cbv beta iota.
  rewrite slice_tail. cbn [mbind outcome_bind]. rewrite NoClose'.
  reflexivity.
Qed.

(** The failing input of C2, and the one input that reaches the error
    branch. *)
Lemma unclosed_bracket_panics_witness :
  Str.mem ">" "sip:alice@example.com" = false
  /\ ParseAddressValue "<sip:alice@example.com" = Panic
  /\ ParseAddressValue "<>" = Err (Errorf "< without closing > in address").
Proof.
  split; [reflexivity|].
  split; [apply (unclosed_bracket_panics "sip:alice@example.com"); reflexivity|].
  reflexivity.
Defined.

(** * Header continuation lines *)

(** C1 (code defect): the framing loop joins a continuation line to the
    buffer with a space and keeps the line's own leading white space, so the
    value is [foo  bar], with two spaces; [GetNextHeaderLine] trims the
    continuation line and yields [Subject: foo bar]. *)
Theorem continuation_keeps_leading_space :
  readHeaders (NewParser true)
    (lines ("Subject: foo" +:+ CRLF +:+ " bar" +:+ CRLF +:+ CRLF)) EmptyString []
  = Ok ([GenericHeader "Subject" "foo  bar"], EmptyString)
  /\ headers <$> output (parse (feed (NewParser true) [folded])).2
     = [[GenericHeader "Subject" "foo  bar"; ContentLength 0]]
  /\ GetNextHeaderLine ["Subject: foo"; " bar"] = ("Subject: foo bar", 2).
Proof. repeat split; vm_compute; reflexivity. Qed.

(** * The registry *)

(** Computing with the registry while the parsers stay abstract. *)
Ltac abstract_parsers :=
  generalize parseAddressHeader parseCallId parseCSeq parseViaHeader
    parseMaxForwards parseContentLength parseExpires parseUserAgent parseAllow
    parseContentType parseAccept parseRequire parseSupported parseRouteHeader
    parseRecordRouteHeader parseAuthorization;
  intros.

Lemma NewParser_headerParsers (streamed : bool) :
  headerParsers (NewParser streamed) = list_to_map registeredParsers.
Proof.
  unfold NewParser, defaultHeaderParsers, registeredParsers.
  abstract_parsers.
  match goal with |- _ = ?r => vm_cast_no_check (@eq_refl _ r) end.
Qed.

Lemma NewParser_state (mode : bool) :
  streamed (NewParser mode) = mode
  /\ input (NewParser mode) = EmptyString
  /\ bodyLengths (NewParser mode) = []
  /\ output (NewParser mode) = []
  /\ errs (NewParser mode) = []
  /\ terminalErr (NewParser mode) = None
  /\ stopped (NewParser mode) = false.
Proof.
  unfold NewParser, defaultHeaderParsers.
  abstract_parsers. vm_compute. repeat split; reflexivity.
Qed.

Lemma default_mixed_case_keys :
  defaultHeaderParsers !! "call-id" = None
  /\ defaultHeaderParsers !! "authorization" = None
  /\ defaultHeaderParsers !! "proxy-authorization" = None
  /\ defaultHeaderParsers !! "Call-ID" = Some parseCallId
  /\ defaultHeaderParsers !! "Authorization" = Some parseAuthorization
  /\ defaultHeaderParsers !! "Proxy-Authorization" = Some parseAuthorization.
Proof.
  unfold defaultHeaderParsers. abstract_parsers. vm_compute.
  repeat split; reflexivity.
Qed.

Lemma registered_lowercase_keys :
  (list_to_map registeredParsers : gmap string HeaderParser) !! "call-id"
  = Some parseCallId
  /\ (list_to_map registeredParsers : gmap string HeaderParser) !! "authorization"
     = Some parseAuthorization
  /\ (list_to_map registeredParsers : gmap string HeaderParser) !! "proxy-authorization"
     = Some parseAuthorization.
Proof.
  unfold registeredParsers. abstract_parsers. vm_compute.
  repeat split; reflexivity.
Qed.

(** C10 (confirmed): for a header line named Call-ID, Authorization or
    Proxy-Authorization (in any case), [ParseHeader] with a [nil] parser
    finds no entry under the lowercased name, because the default map stores
    these three keys in mixed case, and returns the [GenericHeader] fallback;
    with a parser built by [NewParser], which lowercases every key when it
    registers it, the same line goes to the typed parser. *)
Theorem nil_parser_misses_mixed_case_keys (headerText : string) (streamed : bool) :
  Index headerText ":" <> -1 ->
  let name := fieldNameOf headerText in
  let text := fieldTextOf headerText in
  (ToLower name = "call-id" ->
     ParseHeader headerText None = Ok [GenericHeader name text]
     /\ ParseHeader headerText (Some (NewParser streamed)) = parseCallId "call-id" text)
  /\ (ToLower name = "authorization" ->
     ParseHeader headerText None = Ok [GenericHeader name text]
     /\ ParseHeader headerText (Some (NewParser streamed))
        = parseAuthorization "authorization" text)
  /\ (ToLower name = "proxy-authorization" ->
     ParseHeader headerText None = Ok [GenericHeader name text]
     /\ ParseHeader headerText (Some (NewParser streamed))
        = parseAuthorization "proxy-authorization" text).
Proof.
  intros Colon name text.
  destruct default_mixed_case_keys as (D1 & D2 & D3 & _).
  destruct registered_lowercase_keys as (R1 & R2 & R3).
  apply Z.eqb_neq in Colon.
  unfold ParseHeader. rewrite Colon. cbv beta iota zeta.
  rewrite NewParser_headerParsers.
  fold (fieldNameOf headerText) (fieldTextOf headerText). fold name text.
  split; [|split]; intros E; rewrite E.
  - now rewrite D1, R1.
  - now rewrite D2, R2.
  - now rewrite D3, R3.
Qed.

(** The three names at work. *)
Lemma nil_parser_misses_mixed_case_keys_witness :
  ParseHeader "Call-ID: a84b4c76e66710" None
  = Ok [GenericHeader "Call-ID" "a84b4c76e66710"]
  /\ ParseHeader "Call-ID: a84b4c76e66710" (Some (NewParser false))
     = Ok [CallID "a84b4c76e66710"].
Proof.
  assert (C : Index "Call-ID: a84b4c76e66710" ":" <> -1) by discriminate.
  destruct (nil_parser_misses_mixed_case_keys "Call-ID: a84b4c76e66710" false C)
    as (H & _).
  destruct (H eq_refl) as (H1 & H2). split; [exact H1|].
  rewrite H2. reflexivity.
Defined.

(** * Start lines never panic *)

Lemma parseLoop_consumed (sep end_ : ascii) (quoteValues permitSingletons : bool)
    (rest : string) :
  forall (consumed : Z) (st st' : scan) (n : Z),
    parseLoop sep end_ quoteValues permitSingletons rest consumed st = Ok (st', n) ->
    consumed <= n <= consumed + Str.len rest.
Proof.
  induction rest as [|c t IH]; intros consumed st st' n; cbn [parseLoop].
  - intros [= _ <-]. unfold Str.len. simpl. lia.
  - assert (L : Str.len (String c t) = 1 + Str.len t) by (unfold Str.len; simpl; lia).
    pose proof (len_nonneg t).
    assert (Step : forall s, parseLoop sep end_ quoteValues permitSingletons t
                               (consumed + 1) s = Ok (st', n) ->
                             consumed <= n <= consumed + Str.len (String c t)).
    { intros s H'. apply IH in H'. lia. }
    assert (Stop : Ok (st, consumed) = Ok (st', n) ->
                   consumed <= n <= consumed + Str.len (String c t)).
    { intros [= _ <-]. lia. }
    repeat (match goal with
            | |- context [if ?b then _ else _] => destruct b
            end; try discriminate; try (apply Step); try (apply Stop)).
Qed.

Lemma parseLoop_no_panic (sep end_ : ascii) (quoteValues permitSingletons : bool)
    (rest : string) :
  forall (consumed : Z) (st : scan),
    parseLoop sep end_ quoteValues permitSingletons rest consumed st <> Panic.
Proof.
  induction rest as [|c t IH]; intros consumed st; cbn [parseLoop]; [discriminate|].
  repeat (match goal with
          | |- context [if ?b then _ else _] => destruct b
          end; try discriminate; try (apply IH)).
Qed.

Lemma ParseParams_outcome (source : string) (start sep end_ : ascii)
    (quoteValues permitSingletons : bool) :
  match ParseParams source start sep end_ quoteValues permitSingletons with
  | Ok (_, n) => 0 <= n <= Str.len source
  | Err _ => True
  | Panic => False
  end.
Proof.
  unfold ParseParams. destruct source as [|c0 t0].
  - unfold Str.len. simpl. lia.
  - assert (L : Str.len (String c0 t0) = 1 + Str.len t0) by (unfold Str.len; simpl; lia).
    pose proof (len_nonneg t0).
    assert (Fin : forall st, finishParams permitSingletons st <> Panic).
    { intros st. unfold finishParams.
      repeat (match goal with
              | |- context [if ?b then _ else _] => destruct b
              end; try discriminate). }
    destruct (negb (Ascii.eqb start NUL)).
    + destruct (negb (Ascii.eqb c0 start)); [exact I|].
      destruct (parseLoop sep end_ quoteValues permitSingletons t0 1 _)
        as [[st n]| |] eqn:E; simpl; [| exact I | now apply parseLoop_no_panic in E].
      apply parseLoop_consumed in E.
      destruct (finishParams permitSingletons st) eqn:F; simpl;
        [lia | exact I | now apply Fin in F].
    + destruct (parseLoop sep end_ quoteValues permitSingletons (String c0 t0) 0 _)
        as [[st n]| |] eqn:E; simpl; [| exact I | now apply parseLoop_no_panic in E].
      apply parseLoop_consumed in E.
      destruct (finishParams permitSingletons st) eqn:F; simpl;
        [lia | exact I | now apply Fin in F].
Qed.

Lemma ParseUint_no_panic (s : string) (bitSize : Z) : ParseUint s bitSize <> Panic.
Proof.
  unfold ParseUint. destruct s; [discriminate|].
  destruct (digits _ 0); [|discriminate]. now destruct (_ <=? _).
Qed.

Lemma ParseHostPort_no_panic (rawText : string) : ParseHostPort rawText <> Panic.
Proof.
  unfold ParseHostPort. destruct (_ =? _); [discriminate|].
  destruct (ParseUint _ 16) eqn:E; simpl; try discriminate.
  now apply ParseUint_no_panic in E.
Qed.

Lemma parseUriTail_no_panic (secure : bool) (user password : MaybeString)
    (domain : Domain) (uriStr : string) :
  parseUriTail secure user password domain uriStr <> Panic.
Proof.
  unfold parseUriTail. destruct uriStr as [|c t]; [discriminate|].
  rewrite at_head.
  set (s := String c t).
  replace (Str.len s =? 0) with false
    by (symmetry; apply Z.eqb_neq; unfold Str.len; simpl; lia).
  cbn [mbind outcome_bind].
  assert (First : match (if Ascii.eqb c ";" then ParseParams s ";" ";" "?" true true
                         else Ok (NewParams, 0)) with
                  | Ok (_, n) => 0 <= n <= Str.len s
                  | Err _ => True
                  | Panic => False
                  end).
  { destruct (Ascii.eqb c ";"); [apply ParseParams_outcome|].
    pose proof (len_nonneg s). lia. }
  destruct (if Ascii.eqb c ";" then _ else _) as [[uriParams n]| |];
    [|discriminate|contradiction].
  cbn [mbind outcome_bind]. rewrite slice_in_range by lia. cbn [mbind outcome_bind].
  pose proof (ParseParams_outcome (Str.sub s n (Str.len s)) "?" "&" NUL true false) as Second.
  destruct (ParseParams (Str.sub s n (Str.len s)) "?" "&" NUL true false)
    as [[hs m]| |]; [|discriminate|contradiction].
  cbn [mbind outcome_bind]. rewrite slice_in_range by lia. cbn [mbind outcome_bind].
  now destruct (0 <? _).
Qed.

Lemma parseSipUriRest_no_panic (secure : bool) (user password : MaybeString)
    (uriStr : string) :
  parseSipUriRest secure user password uriStr <> Panic.
Proof.
  unfold parseSipUriRest.
  destruct (ParseHostPort _) as [domain| |] eqn:E; cbn [mbind outcome_bind].
  - apply parseUriTail_no_panic.
  - discriminate.
  - now apply ParseHostPort_no_panic in E.
Qed.

(** What [ParseSipUri] does once the protocol name and its colon are
    passed. *)
Lemma afterColon_no_panic (secure : bool) (c : ascii) (rest : string) :
  (ch ← Str.at_ (String c rest) 0;
   if negb (Ascii.eqb ch ":") then Err (Errorf "no : after protocol name in SIP uri")
   else
     uriStr ← Str.slice (String c rest) 1 (Str.len (String c rest));
     let endOfUserInfoPart := Index uriStr "@" in
     if negb (endOfUserInfoPart =? -1) then
       let endOfUsernamePart := Index uriStr ":" in
       let endOfUsernamePart :=
         if endOfUserInfoPart <? endOfUsernamePart then -1 else endOfUsernamePart in
       let '(user, password) :=
         if endOfUsernamePart =? -1
         then (Some (Str.sub uriStr 0 endOfUserInfoPart), None)
         else (Some (Str.sub uriStr 0 endOfUsernamePart),
               Some (Str.sub uriStr (endOfUsernamePart + 1) endOfUserInfoPart)) in
       parseSipUriRest secure user password
         (Str.sub uriStr (endOfUserInfoPart + 1) (Str.len uriStr))
     else
       parseSipUriRest secure None None uriStr) <> Panic.
Proof.
  rewrite at_head. cbn [mbind outcome_bind].
  destruct (negb (Ascii.eqb c ":")); [discriminate|].
  rewrite slice_tail. cbn [mbind outcome_bind]. cbv zeta.
  destruct (negb (Index rest "@" =? -1)); [|apply parseSipUriRest_no_panic].
  destruct (_ =? -1); apply parseSipUriRest_no_panic.
Qed.

Lemma ParseSipUri_no_panic (uriStr : string) :
  (4 <= String.length uriStr)%nat ->
  (Ascii.eqb (lowerByte (default NUL (String.get 3 uriStr))) "s" = true ->
   (5 <= String.length uriStr)%nat) ->
  ParseSipUri uriStr <> Panic.
Proof.
  destruct uriStr as [|a [|b [|c [|d rest]]]]; simpl String.length; try lia.
  intros _ Five. unfold ParseSipUri.
  set (s := String a (String b (String c (String d rest)))).
  assert (L : Str.len s = 4 + Str.len rest) by (unfold Str.len; simpl; lia).
  pose proof (len_nonneg rest).
  rewrite (slice_in_range s 0 3) by lia. cbn [mbind outcome_bind].
  destruct (negb (String.eqb _ "sip")); [discriminate|].
  change 3 with (Z.of_nat 3) at 1.
  rewrite (slice_in_range s (Z.of_nat 3) (Str.len s)), sub_suffix by lia.
  change (Str.drop 3 s) with (String d rest). cbn [mbind outcome_bind].
  rewrite (slice_in_range (String d rest) 0 1)
    by (unfold Str.len; simpl; lia).
  change (Str.sub (String d rest) 0 1) with (String d EmptyString).
  cbn [mbind outcome_bind].
  change (ToLower (String d EmptyString)) with (String (lowerByte d) EmptyString).
  destruct (String.eqb (String (lowerByte d) EmptyString) "s") eqn:S.
  - rewrite slice_tail. cbn [mbind outcome_bind].
    assert (D : Ascii.eqb (lowerByte d) "s" = true).
    { apply String.eqb_eq in S. injection S as ->. reflexivity. }
    specialize (Five D). destruct rest as [|e rest']; [simpl in Five; lia|].
    apply afterColon_no_panic.
  - cbn [mbind outcome_bind]. apply afterColon_no_panic.
Qed.

Lemma ParseUri_no_panic (uriStr : string) : ParseUri uriStr <> Panic.
Proof.
  unfold ParseUri. destruct (String.eqb _ "*"); [discriminate|].
  destruct (Index uriStr ":" =? -1) eqn:Colon; [discriminate|].
  apply Z.eqb_neq, Index_char_present in Colon as (i & Ei & Es & _ & L).
  rewrite Ei, sub_prefix.
  destruct (String.eqb _ "sip" || String.eqb _ "sips") eqn:Schema; [|discriminate].
  assert (Len : String.length (ToLower (Str.take i uriStr)) = i).
  { unfold ToLower. rewrite length_map. apply length_take. lia. }
  assert (I : i = 3%nat \/ i = 4%nat).
  { apply orb_true_iff in Schema as [S|S]; apply String.eqb_eq in S;
      rewrite S in Len; simpl in Len; lia. }
  assert (NoPanic : ParseSipUri uriStr <> Panic).
  { apply ParseSipUri_no_panic; [lia|].
    intros D. destruct I as [->| ->]; [|lia].
    destruct uriStr as [|a [|b [|c [|d rest]]]]; simpl in L; try lia.
    injection Es as ->. discriminate D. }
  destruct (ParseSipUri uriStr); [discriminate | discriminate | contradiction].
Qed.

Lemma ParseRequestLine_no_panic (requestLine : string) :
  ParseRequestLine requestLine <> Panic.
Proof.
  unfold ParseRequestLine.
  destruct (Split requestLine " ") as [|p0 [|p1 [|p2 [|? ?]]]]; try discriminate.
  pose proof (ParseUri_no_panic p1) as U.
  destruct (ParseUri p1) as [[su|]| |]; [discriminate | discriminate | discriminate
                                        | contradiction].
Qed.

Lemma ParseStatusLine_no_panic (statusLine : string) :
  ParseStatusLine statusLine <> Panic.
Proof.
  unfold ParseStatusLine.
  destruct (Split statusLine " ") as [|p0 [|p1 [|p2 more]]]; try discriminate.
  pose proof (ParseUint_no_panic p1 16) as U.
  destruct (ParseUint p1 16); [discriminate | discriminate | contradiction].
Qed.

(** [ParseRequestLine] never returns the wildcard without an error. *)
Lemma ParseRequestLine_no_wildcard (requestLine method sipVersion : string) :
  ParseRequestLine requestLine <> Ok (method, WildcardUri, sipVersion).
Proof.
  unfold ParseRequestLine.
  destruct (Split requestLine " ") as [|p0 [|p1 [|p2 [|? ?]]]]; try discriminate.
  destruct (ParseUri p1) as [[uri|]| |]; cbn [mbind outcome_bind]; discriminate.
Qed.

(** The start line of a message either parses or fails with an error. *)
Lemma parseStartLine_no_panic (line : string) : parseStartLine line <> Panic.
Proof.
  unfold parseStartLine. destruct (isRequest line).
  - pose proof (ParseRequestLine_no_panic line) as R.
    destruct (ParseRequestLine line) as [[[? [?|]] ?]| |];
      [discriminate | discriminate | discriminate | contradiction].
  - destruct (isResponse line); [|discriminate].
    pose proof (ParseStatusLine_no_panic line) as R.
    destruct (ParseStatusLine line) as [[[? ?] ?]| |];
      [discriminate | discriminate | contradiction].
Qed.

(** * The framing loop: one pass *)

Section Lines.

Implicit Types (buf line rest tail : string).

Lemma isPrefix_CRLF buf :
  Str.isPrefix CRLF buf = true <-> exists t, buf = CRLF +:+ t.
Proof.
  split.
  - destruct buf as [|a [|b t]]; try discriminate.
    + cbn. destruct (Ascii.eqb _ a); discriminate.
    + cbn. destruct (Ascii.eqb _ a) eqn:A; [|discriminate].
      destruct (Ascii.eqb _ b) eqn:B; [|discriminate].
      apply Ascii.eqb_eq in A, B. subst. intros _. now exists t.
  - intros [t ->]. reflexivity.
Qed.

Lemma isPrefix_CRLF_app buf tail :
  Str.isPrefix CRLF (buf +:+ tail) = true ->
  (2 <= String.length buf)%nat ->
  Str.isPrefix CRLF buf = true.
Proof.
  destruct buf as [|a [|b t]]; simpl String.length; try lia.
  intros H _. exact H.
Qed.

Lemma NextLine_split buf line rest :
  NextLine buf = Some (line, rest) -> buf = line +:+ CRLF +:+ rest.
Proof.
  revert line. induction buf as [|c t IH]; intros line; [discriminate|].
  cbn [NextLine].
  destruct (Str.isPrefix CRLF (String c t)) eqn:P.
  - apply isPrefix_CRLF in P as [t' E]. injection E as -> ->.
    now intros [= <- <-].
  - destruct (NextLine t) as [[l r]|] eqn:E; [|discriminate].
    simpl. intros [= <- <-]. rewrite app_String. f_equal. now apply IH.
Qed.

Lemma isPrefix_app (pre : string) buf tail :
  Str.isPrefix pre buf = true -> Str.isPrefix pre (buf +:+ tail) = true.
Proof.
  revert buf. induction pre as [|a pre IH]; intros [|b buf]; simpl; try easy.
  destruct (Ascii.eqb a b); [apply IH | easy].
Qed.

Lemma NextLine_app buf tail line rest :
  NextLine buf = Some (line, rest) ->
  NextLine (buf +:+ tail) = Some (line, rest +:+ tail).
Proof.
  revert line. induction buf as [|c t IH]; intros line; [discriminate|].
  rewrite app_String. cbn [NextLine].
  destruct (Str.isPrefix CRLF (String c t)) eqn:P.
  - rewrite <- app_String, (isPrefix_app _ _ tail P).
    apply isPrefix_CRLF in P as [t' E]. injection E as -> ->.
    now intros [= <- <-].
  - destruct (NextLine t) as [[l r]|] eqn:E; [|discriminate].
    intros [= <- <-].
    destruct (Str.isPrefix CRLF (String c (t +:+ tail))) eqn:P'.
    + exfalso. rewrite <- app_String in P'.
      apply isPrefix_CRLF_app in P'; [congruence|].
      apply NextLine_split in E. rewrite E.
      cbn [String.length]. rewrite !length_app. cbn [String.length CRLF]. lia.
    + now rewrite (IH l eq_refl).
Qed.

Lemma isPrefix_shorter (pre more : string) buf :
  Str.isPrefix (pre +:+ more) buf = true -> Str.isPrefix pre buf = true.
Proof.
  revert buf. induction pre as [|a pre IH]; intros buf; [reflexivity|].
  rewrite app_String. destruct buf as [|b buf]; simpl; [easy|].
  destruct (Ascii.eqb a b); [apply IH | easy].
Qed.

(** A datagram that [Write] accepts holds a complete first line. *)
Lemma NextLine_of_datagram buf :
  getBodyLength buf <> -1 -> exists line rest, NextLine buf = Some (line, rest).
Proof.
  unfold getBodyLength, Index, ofIndex.
  destruct (Str.find (CRLF +:+ CRLF) buf) as [i|] eqn:F; [intros _ | easy].
  revert i F. induction buf as [|c t IH]; intros i; [discriminate|].
  cbn [Str.find NextLine].
  destruct (Str.isPrefix (CRLF +:+ CRLF) (String c t)) eqn:P4.
  - rewrite (isPrefix_shorter _ _ _ P4). eauto.
  - destruct (Str.find (CRLF +:+ CRLF) t) as [j|] eqn:F'; [|discriminate].
    intros _. destruct (IH j eq_refl) as (l & r & E). rewrite E.
    destruct (Str.isPrefix CRLF (String c t)); simpl; eauto.
Qed.

Lemma NextChunk_app rest tail :
  NextChunk (Str.len rest) (rest +:+ tail) = Some (rest, tail).
Proof.
  unfold NextChunk. rewrite len_app.
  pose proof (len_nonneg rest). pose proof (len_nonneg tail).
  replace (0 <=? Str.len rest) with true by (symmetry; apply Z.leb_le; lia).
  replace (Str.len rest <=? Str.len rest + Str.len tail) with true
    by (symmetry; apply Z.leb_le; lia).
  unfold Str.len. rewrite Nat2Z.id, take_app_length, drop_app_length.
  reflexivity.
Qed.

End Lines.

(** C3 (confirmed): in stream mode, once the start line and the header
    block of a message have been read, zero or several Content-Length headers
    make the pass raise a [MalformedMessageError] (sent on the error sink and
    stored as the terminal error) and continue; nothing is sent on the output
    sink. *)
Theorem content_length_not_unique (p : parser) (first rest rest' : string)
    (msg : Message) (hs : list Header) :
  streamed p = true ->
  NextLine (input p) = Some (first, rest) ->
  parseStartLine first = Ok msg ->
  readHeaders (withInput p rest) (lines rest) EmptyString [] = Ok (hs, rest') ->
  length (GetHeaders (foldl AddHeader msg hs) "Content-Length") <> 1%nat ->
  exists cause : error,
    iteration p
    = Continue (raise (withInput (withInput p rest) rest') (MalformedMessageError cause))
    /\ errs (after (iteration p)) = errs p ++ [MalformedMessageError cause]
    /\ terminalErr (after (iteration p)) = Some (MalformedMessageError cause)
    /\ output (after (iteration p)) = output p.
Proof.
  intros Stream Line Start Block Count.
  unfold iteration. rewrite Line, Start.
  change (input (withInput p rest)) with rest. rewrite Block.
  unfold readBody.
  change (streamed (withInput (withInput p rest) rest')) with (streamed p).
  rewrite Stream.
  destruct (GetHeaders (foldl AddHeader msg hs) "Content-Length") as [|h [|h' more]].
  - eexists. repeat split.
  - now contradict Count.
  - eexists. repeat split.

Qed.

(** Two Content-Length headers, one of them in short form. *)
Lemma content_length_not_unique_witness :
  exists cause : error,
    errs (after (iteration (feed (NewParser true) [duplicated])))
    = [MalformedMessageError cause]
    /\ output (after (iteration (feed (NewParser true) [duplicated]))) = [].
Proof.
  destruct (content_length_not_unique (feed (NewParser true) [duplicated])
              "SIP/2.0 200 OK"
              ("Content-Length: 0" +:+ CRLF +:+ "l: 0" +:+ CRLF +:+ CRLF)
              EmptyString
              (mkMessage (StatusLine "SIP/2.0" 200 "OK") [] EmptyString)
              [ContentLength 0; ContentLength 0])
    as (cause & _ & E & _ & O).
  - vm_compute; reflexivity.
  - vm_compute; reflexivity.
  - vm_compute; reflexivity.
  - vm_compute; reflexivity.
  - vm_compute. discriminate.
  - exists cause. split; [exact E | exact O].
Defined.

(** C7 (confirmed): in datagram mode, a start line that fails
    classification or sub-parsing makes the pass raise one
    [InvalidStartLineError], pop one pair from the body-length channel, skip
    [total - len(startLine) - 2] bytes of input and continue.  When the
    buffer starts with the datagram that the popped pair was computed from,
    the buffer after the pass starts with the next datagram. *)
Theorem invalid_start_line_skips_frame (p : parser) (first rest : string)
    (bl total : Z) (q : list (Z * Z)) :
  streamed p = false ->
  NextLine (input p) = Some (first, rest) ->
  is_ok (parseStartLine first) = false ->
  bodyLengths p = (bl, total) :: q ->
  let p' := after (iteration p) in
  exists cause : error,
  parseStartLine first = Err cause
  /\ iteration p = Continue p'
  /\ errs p' = errs p ++ [InvalidStartLineError cause]
  /\ terminalErr p' = Some (InvalidStartLineError cause)
  /\ bodyLengths p' = q
  /\ output p' = output p
  /\ input p' = match NextChunk (total - Str.len first - 2) rest with
                | Some (_, rest') => rest'
                | None => EmptyString
                end
  /\ (forall datagram tail : string,
        input p = datagram +:+ tail ->
        total = Str.len datagram ->
        getBodyLength datagram <> -1 ->
        input p' = tail).
Proof.
  intros Datagram Line Fails Queue p'.
  pose proof (parseStartLine_no_panic first) as NoPanic.
  destruct (parseStartLine first) as [msg|cause|] eqn:Start;
    [discriminate | clear Fails NoPanic | contradiction].
  exists cause. split; [reflexivity|].
  assert (Step : iteration p
                 = Continue (skipChunk
                               (withBodyLengths
                                  (raise (withInput p rest) (InvalidStartLineError cause)) q)
                               (total - Str.len first - 2))).
  { unfold iteration. rewrite Line, Start.
    change (streamed (raise (withInput p rest) (InvalidStartLineError cause)))
      with (streamed p).
    change (bodyLengths (raise (withInput p rest) (InvalidStartLineError cause)))
      with (bodyLengths p).
    now rewrite Datagram, Queue. }
  assert (Input : input p' = match NextChunk (total - Str.len first - 2) rest with
                             | Some (_, rest') => rest'
                             | None => EmptyString
                             end).
  { unfold p'. rewrite Step. unfold after, skipChunk.
    change (input (withBodyLengths
                     (raise (withInput p rest) (InvalidStartLineError cause)) q))
      with rest.
    now destruct (NextChunk (total - Str.len first - 2) rest) as [[? ?]|]. }
  split; [unfold p'; now rewrite Step|].
  repeat split; try (unfold p'; rewrite Step; unfold after, skipChunk;
    match goal with |- context [NextChunk ?n ?b] =>
      destruct (NextChunk n b) as [[? ?]|] end; reflexivity).
  - exact Input.
  - intros datagram tail Buf Total Accepted.
    destruct (NextLine_of_datagram _ Accepted) as (l & r & E).
    pose proof (NextLine_app _ tail _ _ E) as E'.
    rewrite <- Buf, Line in E'. injection E' as -> ->.
    apply NextLine_split in E.
    rewrite Input, Total, E, !len_app.
    replace (Str.len l + (Str.len CRLF + Str.len r) - Str.len l - 2) with (Str.len r)
      by (change (Str.len CRLF) with 2; lia).
    now rewrite NextChunk_app.
Qed.

(** An invalid datagram followed by a valid one: after the first pass the
    buffer holds exactly the second datagram, which then parses. *)
Lemma invalid_start_line_skips_frame_witness :
  let p := feed (NewParser false) [helloWorld; ok200] in
  input (after (iteration p)) = ok200
  /\ bodyLengths (after (iteration p)) = [(0, 37)]
  /\ errs (after (iteration p))
     = [InvalidStartLineError (Errorf "transmission beginning is not a SIP message")]
  /\ output (parse p).2
     = [mkMessage (StatusLine "SIP/2.0" 200 "OK") [ContentLength 0] EmptyString].
Proof.
  intros p.
  destruct (invalid_start_line_skips_frame p "HELLO WORLD"
              ("Content-Length: 0" +:+ CRLF +:+ CRLF +:+ ok200)
              0 34 [(0, 37)])
    as (cause & Cause & _ & E & _ & Q & _ & _ & Sync).
  - vm_compute; reflexivity.
  - vm_compute; reflexivity.
  - vm_compute; reflexivity.
  - vm_compute; reflexivity.
  - injection Cause as <-.
    split; [|split; [exact Q|split; [exact E|vm_compute; reflexivity]]].
    apply (Sync helloWorld ok200); [vm_compute; reflexivity | reflexivity | discriminate].
Defined.

(** * The framing loop: termination *)

Section Termination.

Implicit Types (buf line rest : string) (p : parser).

(** [lines] lists what successive calls of [NextLine] return. *)
Lemma lines_NextLine buf :
  lines buf = match NextLine buf with
              | None => []
              | Some (line, rest) => (line, rest) :: lines rest
              end.
Proof.
  induction buf as [|c t IH]; [reflexivity|].
  cbn [lines NextLine]. destruct t as [|c' t'].
  - destruct (Str.isPrefix CRLF (String c EmptyString)) eqn:P; [|reflexivity].
    apply isPrefix_CRLF in P as [? [=]].
  - destruct (Ascii.eqb c CR && Ascii.eqb c' LF) eqn:B.
    + apply andb_true_iff in B as [B1 B2].
      apply Ascii.eqb_eq in B1, B2. subst. reflexivity.
    + destruct (Str.isPrefix CRLF (String c (String c' t'))) eqn:P.
      { apply isPrefix_CRLF in P as [? [= -> -> _]]. discriminate. }
      rewrite IH. now destruct (NextLine (String c' t')) as [[l r]|].
Qed.

Lemma NextLine_shorter buf line rest :
  NextLine buf = Some (line, rest) ->
  (String.length rest + 2 <= String.length buf)%nat.
Proof.
  intros E. apply NextLine_split in E. rewrite E, !length_app.
  cbn [String.length CRLF]. lia.
Qed.

Lemma lines_shorter buf :
  Forall (fun lr : string * string => (String.length lr.2 < String.length buf)%nat)
    (lines buf).
Proof.
  remember (String.length buf) as n eqn:L. revert buf L.
  induction n as [n IH] using lt_wf_ind. intros buf ->.
  rewrite lines_NextLine. destruct (NextLine buf) as [[line rest]|] eqn:E; [|constructor].
  apply NextLine_shorter in E. constructor; [simpl; lia|].
  eapply Forall_impl; [apply (IH (String.length rest)); [lia | reflexivity]|].
  simpl. intros; lia.
Qed.

Lemma readHeaders_rest p (ls : list (string * string)) (buffer : string)
    (acc hs : list Header) rest :
  readHeaders p ls buffer acc = Ok (hs, rest) ->
  rest = EmptyString \/ exists line, (line, rest) ∈ ls.
Proof.
  revert buffer acc. induction ls as [|[line r] more IH]; intros buffer acc; cbn [readHeaders].
  - intros [= _ <-]. now left.
  - assert (Tail : forall b a, readHeaders p more b a = Ok (hs, rest) ->
              rest = EmptyString \/ exists l, (l, rest) ∈ (line, r) :: more).
    { intros b a H. destruct (IH _ _ H) as [->|[l Hl]]; [now left|].
      right. exists l. apply elem_of_cons. now right. }
    destruct line as [|c line'].
    + destruct (flushBuffer p buffer acc); simpl; try discriminate.
      intros [= _ <-]. right. eexists. apply elem_of_cons. now left.
    + destruct (negb (inAbnfWs c)).
      * destruct (flushBuffer p buffer acc); simpl; try discriminate. apply Tail.
      * destruct (negb (Str.isEmpty buffer)); apply Tail.
Qed.

Lemma NextChunk_shorter (n : Z) buf chunk rest :
  NextChunk n buf = Some (chunk, rest) ->
  (String.length rest <= String.length buf)%nat.
Proof.
  unfold NextChunk. destruct (_ && _); [|discriminate].
  intros [= _ <-]. rewrite length_drop. lia.
Qed.

Lemma readBody_input p msg p' :
  readBody p msg = Continue p' ->
  (String.length (input p') <= String.length (input p))%nat.
Proof.
  unfold readBody.
  assert (Next : forall (q : parser) (n : Z),
    match NextChunk n (input q) with
    | Some (body, rest) =>
        let q0 := withInput q rest in
        if negb (Str.len body =? n)
        then Continue (raise q0 (BrokenMessageError (Errorf "incomplete message body")))
        else Continue (emit q0 (if negb (Str.isEmpty (TrimSpace body))
                                then SetBody msg body else msg))
    | None =>
        Continue (raise (withInput q EmptyString)
                    (BrokenMessageError (Errorf "read message body failed")))
    end = Continue p' ->
    (String.length (input p') <= String.length (input q))%nat).
  { intros q n. destruct (NextChunk n (input q)) as [[body rest]|] eqn:E.
    - apply NextChunk_shorter in E. cbv zeta.
      destruct (negb (Str.len body =? n)); intros [= <-]; exact E.
    - intros [= <-]. simpl. lia. }
  destruct (streamed p).
  - destruct (GetHeaders msg "Content-Length") as [|h [|h' more]].
    + intros [= <-]. reflexivity.
    + destruct h; try discriminate. apply Next.
    + intros [= <-]. reflexivity.
  - destruct (bodyLengths p) as [|[bl total] q]; [discriminate|].
    intros H. apply Next in H. exact H.
Qed.

(** A pass that continues has consumed its start line. *)
Lemma iteration_consumes p p' :
  iteration p = Continue p' ->
  (String.length (input p') < String.length (input p))%nat.
Proof.
  unfold iteration.
  destruct (NextLine (input p)) as [[first rest]|] eqn:Line; [|discriminate].
  apply NextLine_shorter in Line.
  destruct (parseStartLine first) as [msg|cause|]; [| |discriminate].
  - change (input (withInput p rest)) with rest.
    destruct (readHeaders (withInput p rest) (lines rest) EmptyString [])
      as [[hs rest']| |] eqn:Block; try discriminate.
    intros Body. apply readBody_input in Body.
    change (input (withInput (withInput p rest) rest')) with rest' in Body.
    apply readHeaders_rest in Block as [->|[l Hl]]; [simpl in Body; lia|].
    pose proof (lines_shorter rest) as Sh.
    rewrite Forall_forall in Sh. apply Sh in Hl. simpl in Hl. lia.
  - change (streamed (raise (withInput p rest) (InvalidStartLineError cause)))
      with (streamed p).
    change (bodyLengths (raise (withInput p rest) (InvalidStartLineError cause)))
      with (bodyLengths p).
    destruct (negb (streamed p)).
    + destruct (bodyLengths p) as [|[bl total] q]; [discriminate|].
      intros [= <-]. unfold skipChunk.
      change (input (withBodyLengths
                       (raise (withInput p rest) (InvalidStartLineError cause)) q))
        with rest.
      destruct (NextChunk (total - Str.len first - 2) rest) as [[chunk rest']|] eqn:E.
      * apply NextChunk_shorter in E. simpl. lia.
      * simpl. lia.
    + intros [= <-]. simpl. lia.
Qed.

Lemma forLoop_enough_fuel (fuel : nat) p :
  (String.length (input p) < fuel)%nat -> (forLoop fuel p).1 <> OutOfFuel.
Proof.
  revert p. induction fuel as [|fuel IH]; intros p Fuel; [lia|].
  cbn [forLoop]. destruct (iteration p) as [p'|p'|p'|p'] eqn:Step; try discriminate.
  apply IH. apply iteration_consumes in Step. lia.
Qed.

(** The framing loop always comes to an end: the buffer closes, the
    body-length channel runs dry, or a panic occurs. *)
Lemma parse_terminates p : (parse p).1 <> OutOfFuel.
Proof. apply forLoop_enough_fuel. lia. Qed.

End Termination.

(** * The framing loop: what it emits *)

Lemma foldl_AddHeader (msg : Message) (hs : list Header) :
  foldl AddHeader msg hs = mkMessage (startLine msg) (headers msg ++ hs) (body msg).
Proof.
  revert msg. induction hs as [|h hs IH]; intros msg; simpl.
  - rewrite app_nil_r. now destruct msg.
  - rewrite IH. simpl. now rewrite <- app_assoc.
Qed.

Lemma parseStartLine_headers (line : string) (msg : Message) :
  parseStartLine line = Ok msg -> headers msg = [].
Proof.
  unfold parseStartLine.
  destruct (isRequest line).
  - destruct (ParseRequestLine line) as [[[? [?|]] ?]| |]; simpl; try discriminate.
    now intros [= <-].
  - destruct (isResponse line); [|discriminate].
    destruct (ParseStatusLine line) as [[[? ?] ?]| |]; simpl; try discriminate.
    now intros [= <-].
Qed.

Section Emitted.

(** A property of start lines that every parsed start line has, and a
    property of headers that every header of the registered parsers
    has. *)
Variables (goodStart : StartLine -> Prop) (goodHeader : Header -> Prop).

Hypothesis parsed_start : forall (line : string) (msg : Message),
  parseStartLine line = Ok msg -> goodStart (startLine msg).

Hypothesis parsed_header : forall (p : parser) (text : string) (hs : list Header),
  headerParsers p = list_to_map registeredParsers ->
  ParseHeader text (Some p) = Ok hs -> Forall goodHeader hs.

Lemma flushBuffer_good (p : parser) (buffer : string) (acc hs : list Header) :
  headerParsers p = list_to_map registeredParsers ->
  Forall goodHeader acc ->
  flushBuffer p buffer acc = Ok hs -> Forall goodHeader hs.
Proof.
  intros Reg Acc. unfold flushBuffer.
  destruct (Str.isEmpty buffer); [now intros [= <-]|].
  destruct (ParseHeader buffer (Some p)) as [new|e|] eqn:E; try discriminate.
  - intros [= <-]. apply Forall_app. split; [exact Acc|].
    now apply (parsed_header p buffer).
  - now intros [= <-].
Qed.

Lemma readHeaders_good (p : parser) (ls : list (string * string)) (buffer : string)
    (acc hs : list Header) (rest : string) :
  headerParsers p = list_to_map registeredParsers ->
  Forall goodHeader acc ->
  readHeaders p ls buffer acc = Ok (hs, rest) -> Forall goodHeader hs.
Proof.
  intros Reg. revert buffer acc.
  induction ls as [|[line r] more IH]; intros buffer acc Acc; cbn [readHeaders].
  - now intros [= <- _].
  - destruct line as [|c line'].
    + destruct (flushBuffer p buffer acc) as [hs'| |] eqn:F; simpl; try discriminate.
      intros [= <- _]. now apply (flushBuffer_good p buffer acc).
    + destruct (negb (inAbnfWs c)).
      * destruct (flushBuffer p buffer acc) as [hs'| |] eqn:F; simpl; try discriminate.
        apply IH. now apply (flushBuffer_good p buffer acc).
      * destruct (negb (Str.isEmpty buffer)); now apply IH.
Qed.

Lemma readBody_good (p : parser) (msg : Message) :
  emitsGood goodStart goodHeader p ->
  goodMessage goodStart goodHeader msg ->
  emitsGood goodStart goodHeader (after (readBody p msg)).
Proof.
  intros [Reg Out] [St Hs]. unfold readBody.
  assert (Next : forall (q : parser) (n : Z), emitsGood goodStart goodHeader q ->
    emitsGood goodStart goodHeader (after
      match NextChunk n (input q) with
      | Some (body, rest) =>
          let q0 := withInput q rest in
          if negb (Str.len body =? n)
          then Continue (raise q0 (BrokenMessageError (Errorf "incomplete message body")))
          else Continue (emit q0 (if negb (Str.isEmpty (TrimSpace body))
                                  then SetBody msg body else msg))
      | None =>
          Continue (raise (withInput q EmptyString)
                      (BrokenMessageError (Errorf "read message body failed")))
      end)).
  { intros q n [Rq Oq]. destruct (NextChunk n (input q)) as [[b rest]|]; cbv zeta.
    - destruct (negb (Str.len b =? n)); [exact (conj Rq Oq)|].
      split; [exact Rq|].
      change (Forall (goodMessage goodStart goodHeader)
                (output q ++ [if negb (Str.isEmpty (TrimSpace b))
                              then SetBody msg b else msg])).
      apply Forall_app. split; [exact Oq|].
      constructor; [|constructor].
      destruct (negb (Str.isEmpty (TrimSpace b))); exact (conj St Hs).
    - exact (conj Rq Oq). }
  destruct (streamed p).
  - destruct (GetHeaders msg "Content-Length") as [|h [|h' more]];
      [exact (conj Reg Out) | | exact (conj Reg Out)].
    destruct h; try exact (conj Reg Out). apply Next. exact (conj Reg Out).
  - destruct (bodyLengths p) as [|[bl total] q]; [exact (conj Reg Out)|].
    apply Next. exact (conj Reg Out).
Qed.

Lemma iteration_good (p : parser) :
  emitsGood goodStart goodHeader p ->
  emitsGood goodStart goodHeader (after (iteration p)).
Proof.
  intros [Reg Out]. unfold iteration.
  destruct (NextLine (input p)) as [[first rest]|]; [|exact (conj Reg Out)].
  destruct (parseStartLine first) as [msg|cause|] eqn:Start; [| |exact (conj Reg Out)].
  - change (input (withInput p rest)) with rest.
    destruct (readHeaders (withInput p rest) (lines rest) EmptyString [])
      as [[hs rest']| |] eqn:Block; try exact (conj Reg Out).
    apply readBody_good; [exact (conj Reg Out)|].
    rewrite foldl_AddHeader. split.
    + exact (parsed_start first msg Start).
    + cbn [headers]. rewrite (parseStartLine_headers _ _ Start).
      exact (readHeaders_good (withInput p rest) _ _ _ _ _ Reg (Forall_nil_2 _) Block).
  - change (streamed (raise (withInput p rest) (InvalidStartLineError cause)))
      with (streamed p).
    change (bodyLengths (raise (withInput p rest) (InvalidStartLineError cause)))
      with (bodyLengths p).
    destruct (negb (streamed p)); [|exact (conj Reg Out)].
    destruct (bodyLengths p) as [|[bl total] q]; [exact (conj Reg Out)|].
    unfold after, skipChunk.
    destruct (NextChunk _ _) as [[? ?]|]; exact (conj Reg Out).
Qed.

Lemma forLoop_good (fuel : nat) (p : parser) :
  emitsGood goodStart goodHeader p -> emitsGood goodStart goodHeader (forLoop fuel p).2.
Proof.
  revert p. induction fuel as [|fuel IH]; intros p Good; [exact Good|].
  cbn [forLoop]. pose proof (iteration_good p Good) as Step.
  destruct (iteration p); [now apply IH | exact Step ..].
Qed.

Lemma Write_good (p : parser) (data : string) :
  emitsGood goodStart goodHeader p -> emitsGood goodStart goodHeader (Write p data).1.
Proof.
  intros Good. unfold Write.
  destruct (stopped p); [exact Good|].
  destruct (negb (streamed p) && (getBodyLength data =? -1)); exact Good.
Qed.

Lemma feed_good (writes : list string) (p : parser) :
  emitsGood goodStart goodHeader p -> emitsGood goodStart goodHeader (feed p writes).
Proof.
  revert p. induction writes as [|data writes IH]; intros p Good; [exact Good|].
  apply IH. now apply Write_good.
Qed.

Lemma parse_good (streamed : bool) (writes : list string) :
  Forall (goodMessage goodStart goodHeader) (output (parse (feed (NewParser streamed) writes)).2).
Proof.
  apply forLoop_good, feed_good. split; [apply NewParser_headerParsers|].
  destruct (NewParser_state streamed) as (_ & _ & _ & -> & _). constructor.
Qed.

End Emitted.

(** * Status codes *)

Lemma digits_nonneg (s : string) (acc n : Z) :
  0 <= acc -> digits s acc = Some n -> 0 <= n.
Proof.
  revert acc. induction s as [|c t IH]; intros acc Acc; simpl.
  - now intros [= <-].
  - unfold digitVal.
    destruct ((48 <=? nat_of_ascii c)%nat && (nat_of_ascii c <=? 57)%nat) eqn:D;
      [|discriminate].
    apply andb_true_iff in D as [D1 D2]. apply Nat.leb_le in D1, D2.
    apply IH. lia.
Qed.

Lemma ParseUint_range (s : string) (bitSize n : Z) :
  ParseUint s bitSize = Ok n -> 0 <= n <= 2 ^ bitSize - 1.
Proof.
  unfold ParseUint. destruct s as [|c t]; [discriminate|].
  destruct (digits (String c t) 0) as [m|] eqn:D; [|discriminate].
  destruct (Z.leb_spec m (2 ^ bitSize - 1)); [|discriminate].
  intros [= <-]. split; [|assumption]. now apply (digits_nonneg _ 0 m) in D.
Qed.

Lemma parseStartLine_status (line : string) (msg : Message) :
  parseStartLine line = Ok msg -> statusIsUint16 (startLine msg).
Proof.
  unfold parseStartLine. destruct (isRequest line).
  - destruct (ParseRequestLine line) as [[[? [?|]] ?]| |]; simpl; try discriminate.
    now intros [= <-].
  - destruct (isResponse line); [|discriminate].
    destruct (ParseStatusLine line) as [[[v code] reason]| |] eqn:E; simpl; try discriminate.
    intros [= <-]. simpl.
    unfold ParseStatusLine in E.
    destruct (Split line " ") as [|p0 [|p1 [|p2 more]]]; try discriminate.
    destruct (ParseUint p1 16) as [n| |] eqn:U; simpl in E; try discriminate.
    injection E as <- <- <-. now apply ParseUint_range in U.
Qed.

(** C9 (as amended): every response that the framing loop emits carries a
    status code in the range of an unsigned 16-bit integer, 0 to 65535; the
    parser applies no narrower bound. *)
Theorem status_code_is_uint16 (streamed : bool) (writes : list string) :
  Forall (fun msg : Message => statusIsUint16 (startLine msg))
    (output (parse (feed (NewParser streamed) writes)).2).
Proof.
  eapply Forall_impl.
  - apply (parse_good statusIsUint16 (fun _ => True)).
    + exact parseStartLine_status.
    + intros _ _ hs _ _. apply Forall_forall. trivial.
  - intros msg [Start _]. exact Start.
Qed.

(** C9 (counterexample): a status line with the code 42 is response-like
    and parses; the emitted response carries 42, which is below 100. *)
Lemma status_code_below_100 :
  output (parse (feed (NewParser true) [status42])).2
  = [mkMessage (StatusLine "SIP/2.0" 42 "Foo") [ContentLength 0] EmptyString]
  /\ ~ (100 <= 42 <= 699).
Proof. split; [vm_compute; reflexivity | lia]. Qed.

(** * Wildcard URIs *)


Lemma addressHeaders_confined (headerName : string) (addrs : list address) :
  forall (idx : Z) (acc hs : list Header),
    Forall wildcardConfinedHeader acc ->
    addressHeaders headerName idx addrs acc = Ok hs ->
    Forall wildcardConfinedHeader hs.
Proof.
  induction addrs as [|[[displayName uri] paramSet] rest IH]; intros idx acc hs Acc;
    cbn [addressHeaders].
  - now intros [= <-].
  - destruct (isToName headerName).
    { destruct (0 <? idx); [discriminate|]. destruct uri as [su|]; [|discriminate].
      apply IH. apply Forall_app. split; [exact Acc|]. now repeat constructor. }
    destruct (isFromName headerName).
    { destruct (0 <? idx); [discriminate|]. destruct uri as [su|]; [|discriminate].
      apply IH. apply Forall_app. split; [exact Acc|]. now repeat constructor. }
    destruct (isContactName headerName); [|now intros [= <-]].
    destruct (IsWildcard uri && (0 <? Params_Length paramSet)) eqn:P; [discriminate|].
    destruct (IsWildcard uri && bool_decide (displayName <> None)) eqn:D; [discriminate|].
    apply IH. apply Forall_app. split; [exact Acc|].
    constructor; [|constructor]. intros ->. simpl in P, D. split.
    + apply bool_decide_eq_false in D. now destruct displayName; [contradict D|].
    + apply Z.ltb_ge in P. unfold Params_Length in P. destruct paramSet; [reflexivity|].
      simpl in P. lia.
Qed.

Create HintDb confined.

Ltac other_header f :=
  intros ? ? hs; unfold f, mbind, outcome_bind;
  repeat case_match; intros; simplify_eq; repeat constructor.

Lemma parseAddressHeader_confined headerName headerText hs :
  parseAddressHeader headerName headerText = Ok hs -> Forall wildcardConfinedHeader hs.
Proof.
  unfold parseAddressHeader.
  destruct (_ || _); [|now intros [= <-]].
  destruct (ParseAddressValues headerText) as [addrs| |]; simpl; try discriminate.
  now apply addressHeaders_confined.
Qed.

Lemma parseCallId_confined headerName headerText hs :
  parseCallId headerName headerText = Ok hs -> Forall wildcardConfinedHeader hs.
Proof. revert headerName headerText hs. other_header parseCallId. Qed.

Lemma parseCSeq_confined headerName headerText hs :
  parseCSeq headerName headerText = Ok hs -> Forall wildcardConfinedHeader hs.
Proof. revert headerName headerText hs. other_header parseCSeq. Qed.

Lemma parseViaHeader_confined headerName headerText hs :
  parseViaHeader headerName headerText = Ok hs -> Forall wildcardConfinedHeader hs.
Proof. revert headerName headerText hs. other_header parseViaHeader. Qed.

Lemma parseMaxForwards_confined headerName headerText hs :
  parseMaxForwards headerName headerText = Ok hs -> Forall wildcardConfinedHeader hs.
Proof. revert headerName headerText hs. other_header parseMaxForwards. Qed.

Lemma parseContentLength_confined headerName headerText hs :
  parseContentLength headerName headerText = Ok hs -> Forall wildcardConfinedHeader hs.
Proof. revert headerName headerText hs. other_header parseContentLength. Qed.

Lemma parseExpires_confined headerName headerText hs :
  parseExpires headerName headerText = Ok hs -> Forall wildcardConfinedHeader hs.
Proof. revert headerName headerText hs. other_header parseExpires. Qed.

Lemma parseUserAgent_confined headerName headerText hs :
  parseUserAgent headerName headerText = Ok hs -> Forall wildcardConfinedHeader hs.
Proof. revert headerName headerText hs. other_header parseUserAgent. Qed.

Lemma parseAllow_confined headerName headerText hs :
  parseAllow headerName headerText = Ok hs -> Forall wildcardConfinedHeader hs.
Proof. revert headerName headerText hs. other_header parseAllow. Qed.

Lemma parseContentType_confined headerName headerText hs :
  parseContentType headerName headerText = Ok hs -> Forall wildcardConfinedHeader hs.
Proof. revert headerName headerText hs. other_header parseContentType. Qed.

Lemma parseAccept_confined headerName headerText hs :
  parseAccept headerName headerText = Ok hs -> Forall wildcardConfinedHeader hs.
Proof. revert headerName headerText hs. other_header parseAccept. Qed.

Lemma parseRequire_confined headerName headerText hs :
  parseRequire headerName headerText = Ok hs -> Forall wildcardConfinedHeader hs.
Proof. revert headerName headerText hs. other_header parseRequire. Qed.

Lemma parseSupported_confined headerName headerText hs :
  parseSupported headerName headerText = Ok hs -> Forall wildcardConfinedHeader hs.
Proof. revert headerName headerText hs. other_header parseSupported. Qed.

Lemma parseRouteHeader_confined headerName headerText hs :
  parseRouteHeader headerName headerText = Ok hs -> Forall wildcardConfinedHeader hs.
Proof. revert headerName headerText hs. other_header parseRouteHeader. Qed.

Lemma parseRecordRouteHeader_confined headerName headerText hs :
  parseRecordRouteHeader headerName headerText = Ok hs -> Forall wildcardConfinedHeader hs.
Proof. revert headerName headerText hs. other_header parseRecordRouteHeader. Qed.

Lemma parseAuthorization_confined headerName headerText hs :
  parseAuthorization headerName headerText = Ok hs -> Forall wildcardConfinedHeader hs.
Proof. revert headerName headerText hs. other_header parseAuthorization. Qed.

#[global] Hint Resolve parseAddressHeader_confined parseCallId_confined parseCSeq_confined
  parseViaHeader_confined parseMaxForwards_confined parseContentLength_confined
  parseExpires_confined parseUserAgent_confined parseAllow_confined
  parseContentType_confined parseAccept_confined parseRequire_confined
  parseSupported_confined parseRouteHeader_confined parseRecordRouteHeader_confined
  parseAuthorization_confined : confined.

Lemma registered_confined :
  Forall (fun entry : string * HeaderParser =>
            forall headerName headerText hs,
              entry.2 headerName headerText = Ok hs -> Forall wildcardConfinedHeader hs)
    registeredParsers.
Proof.
  unfold registeredParsers.
  repeat (constructor; [cbn [snd]; eauto with confined|]). constructor.
Qed.

Lemma ParseHeader_confined (p : parser) (text : string) (hs : list Header) :
  headerParsers p = list_to_map registeredParsers ->
  ParseHeader text (Some p) = Ok hs -> Forall wildcardConfinedHeader hs.
Proof.
  intros Reg. unfold ParseHeader.
  destruct (Index text ":" =? -1); [discriminate|]. cbv zeta. rewrite Reg.
  destruct (list_to_map registeredParsers !! _) as [f|] eqn:L.
  - apply elem_of_list_to_map_2 in L.
    pose proof registered_confined as All. rewrite Forall_forall in All.
    apply (All _ L).
  - intros [= <-]. now repeat constructor.
Qed.



(** The lines of C4 that are rejected, and the one wildcard that is not. *)
Example wildcard_rejected :
  ParseRequestLine "REGISTER * SIP/2.0"
  = Err (Errorf "wildcard URI * not permitted in request line")
  /\ ParseHeader "To: *" (Some (NewParser true))
     = Err (Errorf "wildcard uri not permitted in to: header")
  /\ ParseHeader "f: <*>" (Some (NewParser true))
     = Err (Errorf "wildcard uri not permitted in from: header")
  /\ ParseHeader "Contact: *;expires=0" (Some (NewParser true))
     = Err (Errorf "wildcard contact header should contain no parameters")
  /\ ParseHeader "Contact: Everyone <*>" (Some (NewParser true))
     = Err (Errorf "wildcard contact header should contain no display name")
  /\ ParseHeader "Contact: *" (Some (NewParser true))
     = Ok [ContactHeader None WildcardUri []].
Proof. repeat split; vm_compute; reflexivity. Qed.
(** * Further properties of the grammar-level parsers *)

(** X1: [ParseParams] never panics, and the number of bytes it reports as
    consumed lies within the source, so a caller may slice the source at that
    offset. *)
Theorem ParseParams_consumed_within_source (source : string) (start sep end_ : ascii)
    (quoteValues permitSingletons : bool) :
  ParseParams source start sep end_ quoteValues permitSingletons <> Panic
  /\ forall (params : Params) (n : Z),
       ParseParams source start sep end_ quoteValues permitSingletons = Ok (params, n) ->
       0 <= n <= Str.len source.
Proof.
  pose proof (ParseParams_outcome source start sep end_ quoteValues permitSingletons) as H.
  destruct (ParseParams source start sep end_ quoteValues permitSingletons)
    as [[ps m]| |]; split; try discriminate; try contradiction.
  now intros params n [= <- <-].
Qed.

Lemma parseLoop_valued (sep end_ : ascii) (quoteValues : bool) (rest : string) :
  forall (consumed : Z) (st st' : scan) (n : Z),
    Forall (fun kv : string * MaybeString => is_Some kv.2) (sc_params st) ->
    parseLoop sep end_ quoteValues false rest consumed st = Ok (st', n) ->
    Forall (fun kv : string * MaybeString => is_Some kv.2) (sc_params st').
Proof.
  induction rest as [|c t IH]; intros consumed st st' n Valued; cbn [parseLoop].
  - now intros [= <- _].
  - assert (Added : Forall (fun kv : string * MaybeString => is_Some kv.2)
                      (Params_Add (sc_params st) (sc_key st) (Some (sc_buffer st)))).
    { apply Forall_app. split; [exact Valued|]. repeat constructor. now eexists. }
    rewrite andb_false_r.
    repeat (match goal with
            | |- context [if ?b then _ else _] => destruct b
            end; try discriminate;
            try (intros [= <- _]; exact Valued);
            try (apply IH; assumption)).
Qed.

(** X2: when singletons are not permitted, every parameter that
    [ParseParams] returns carries a value. *)
Theorem ParseParams_without_singletons (source : string) (start sep end_ : ascii)
    (quoteValues : bool) (params : Params) (n : Z) :
  ParseParams source start sep end_ quoteValues false = Ok (params, n) ->
  Forall (fun kv : string * MaybeString => is_Some kv.2) params.
Proof.
  assert (Fin : forall st ps,
            Forall (fun kv : string * MaybeString => is_Some kv.2) (sc_params st) ->
            finishParams false st = Ok ps ->
            Forall (fun kv : string * MaybeString => is_Some kv.2) ps).
  { intros st ps V. unfold finishParams. rewrite andb_false_r.
    destruct (sc_inQuotes st); [discriminate|].
    destruct (sc_parsingKey st); [discriminate|]. intros [= <-].
    apply Forall_app. split; [exact V|]. repeat constructor. now eexists. }
  unfold ParseParams. destruct source as [|c0 t0]; [intros [= <- _]; constructor|].
  destruct (negb (Ascii.eqb start NUL)).
  - destruct (negb (Ascii.eqb c0 start)); [discriminate|].
    destruct (parseLoop sep end_ quoteValues false t0 1 _) as [[st m]| |] eqn:E;
      simpl; try discriminate.
    apply parseLoop_valued in E; [|constructor].
    destruct (finishParams false st) as [ps| |] eqn:F; simpl; try discriminate.
    intros [= <- _]. now apply (Fin st).
  - destruct (parseLoop sep end_ quoteValues false (String c0 t0) 0 _)
      as [[st m]| |] eqn:E; simpl; try discriminate.
    apply parseLoop_valued in E; [|constructor].
    destruct (finishParams false st) as [ps| |] eqn:F; simpl; try discriminate.
    intros [= <- _]. now apply (Fin st).
Qed.

Lemma ParseParams_without_singletons_witness :
  ParseParams "?subject=hi&priority=urgent" "?" "&" NUL true false
  = Ok ([("subject", Some "hi"); ("priority", Some "urgent")], 27)
  /\ Forall (fun kv : string * MaybeString => is_Some kv.2)
       [("subject", Some "hi"); ("priority", Some "urgent")].
Proof.
  split; [reflexivity|].
  apply (ParseParams_without_singletons "?subject=hi&priority=urgent" "?" "&" NUL true _ 27).
  reflexivity.
Defined.

(** X3: [ParseUri] never panics, whatever the text: it returns a URI or an
    error. *)
Theorem ParseUri_never_panics (uriStr : string) : ParseUri uriStr <> Panic.
Proof. exact (ParseUri_no_panic uriStr). Qed.

(** X4: called on its own, [ParseSipUri] panics exactly on the texts that
    are shorter than three bytes and on the bare protocol names [sip] and
    [sips], in any case: it slices and indexes the text before it looks at
    its length. *)
Theorem ParseSipUri_panics_iff (uriStr : string) :
  ParseSipUri uriStr = Panic <->
  Str.len uriStr < 3 \/ ToLower uriStr = "sip" \/ ToLower uriStr = "sips".
Proof.
  destruct uriStr as [|a [|b [|c rest]]];
    try (split; [intros _; left; unfold Str.len; simpl; lia | reflexivity]).
  assert (Long : ~ Str.len (String a (String b (String c rest))) < 3)
    by (unfold Str.len; simpl; lia).
  assert (Head : Str.slice (String a (String b (String c rest))) 0 3
                 = Ok (String a (String b (String c EmptyString)))).
  { rewrite slice_in_range by (unfold Str.len; simpl; lia). reflexivity. }
  assert (Tail : Str.slice (String a (String b (String c rest))) 3
                   (Str.len (String a (String b (String c rest)))) = Ok rest).
  { change 3 with (Z.of_nat 3) at 1.
    rewrite slice_in_range, sub_suffix by (unfold Str.len; simpl; lia). reflexivity. }
  unfold ParseSipUri. rewrite Head. cbn [mbind outcome_bind]. rewrite Tail.
  cbn [mbind outcome_bind].
  change (ToLower (String a (String b (String c EmptyString))))
    with (String (lowerByte a) (String (lowerByte b) (String (lowerByte c) EmptyString))).
  change (ToLower (String a (String b (String c rest))))
    with (String (lowerByte a) (String (lowerByte b) (String (lowerByte c) (ToLower rest)))).
  destruct (String.eqb_spec
              (String (lowerByte a) (String (lowerByte b) (String (lowerByte c) EmptyString)))
              "sip") as [Sip|NoSip]; cbn [negb].
  - injection Sip as -> -> ->.
    destruct rest as [|d rest'].
    + split; [now right; left | reflexivity].
    + rewrite (slice_in_range (String d rest') 0 1) by (unfold Str.len; simpl; lia).
      change (Str.sub (String d rest') 0 1) with (String d EmptyString).
      cbn [mbind outcome_bind].
      change (ToLower (String d EmptyString)) with (String (lowerByte d) EmptyString).
      change (ToLower (String d rest')) with (String (lowerByte d) (ToLower rest')).
      destruct (String.eqb_spec (String (lowerByte d) EmptyString) "s") as [S|NoS].
      * injection S as ->. rewrite slice_tail. cbn [mbind outcome_bind].
        destruct rest' as [|e rest''].
        -- split; [now right; right | reflexivity].
        -- split.
           ++ intros P. now apply afterColon_no_panic in P.
           ++ intros [L|[E|E]]; [contradiction | discriminate E | discriminate E].
      * cbn [mbind outcome_bind]. split.
        -- intros P. now apply afterColon_no_panic in P.
        -- intros [L|[E|E]]; [contradiction | discriminate E|].
           injection E as E _. contradict NoS. now rewrite E.
  - split; [discriminate|].
    intros [L|[E|E]]; [contradiction | |].
    + injection E as E1 E2 E3 _. contradict NoSip. now rewrite E1, E2, E3.
    + injection E as E1 E2 E3 _. contradict NoSip. now rewrite E1, E2, E3.
Qed.

(** X5: [ParseHostPort] splits at the first colon: the host holds no colon;
    without a colon the whole text is the host and there is no port;
    otherwise the text is host, colon and a port text that parses as an
    unsigned 16-bit integer. *)
Theorem ParseHostPort_splits_at_first_colon (rawText : string) (d : Domain) :
  ParseHostPort rawText = Ok d ->
  Str.mem ":" (Host d) = false
  /\ match Port d with
     | None => rawText = Host d
     | Some port =>
         0 <= port <= 65535
         /\ exists portText : string,
              rawText = Host d +:+ ":" +:+ portText
              /\ ParseUint portText 16 = Ok port
     end.
Proof.
  unfold ParseHostPort.
  destruct (Index rawText ":" =? -1) eqn:C.
  - apply Z.eqb_eq, Index_char_absent in C. intros [= <-]. simpl. now split.
  - apply Z.eqb_neq, Index_char_present in C as (i & Ei & Es & M & L).
    rewrite Ei, sub_prefix.
    replace (Z.of_nat i + 1) with (Z.of_nat (S i)) by lia. rewrite sub_suffix.
    destruct (ParseUint (Str.drop (S i) rawText) 16) as [port| |] eqn:U;
      simpl; try discriminate.
    intros [= <-]. simpl. split; [exact M|]. split.
    + now apply ParseUint_range in U.
    + exists (Str.drop (S i) rawText). split; [exact Es | exact U].
Qed.

Lemma ParseHostPort_splits_at_first_colon_witness :
  ParseHostPort "example.com:5060" = Ok (mkDomain "example.com" (Some 5060))
  /\ Str.mem ":" "example.com" = false.
Proof.
  assert (E : ParseHostPort "example.com:5060" = Ok (mkDomain "example.com" (Some 5060)))
    by reflexivity.
  split; [exact E|].
  exact (proj1 (ParseHostPort_splits_at_first_colon _ _ E)).
Defined.

(** * Bytes and runes *)

Lemma byteOf_byteVal (c : ascii) : byteOf (byteVal c) = c.
Proof. unfold byteOf, byteVal. now rewrite Nat2Z.id, ascii_nat_embedding. Qed.

Lemma byteVal_range (c : ascii) : 0 <= byteVal c < 256.
Proof. unfold byteVal. pose proof (nat_ascii_bounded c). lia. Qed.

Lemma byteVal_byteOf (n : Z) : 0 <= n < 256 -> byteVal (byteOf n) = n.
Proof.
  intros R. unfold byteOf, byteVal. rewrite nat_ascii_embedding by lia. lia.
Qed.

(** [string(b)] is the byte itself exactly for the ASCII bytes. *)
Lemma byteString_ascii (c : ascii) :
  isAsciiByte c = true -> byteString c = String c EmptyString.
Proof.
  unfold isAsciiByte, byteString, runeString. intros A. apply Z.ltb_lt in A.
  pose proof (byteVal_range c) as R.
  destruct (Z.leb_spec 0 (byteVal c)); [|lia].
  destruct (Z.leb_spec (byteVal c) 0x7F); [|lia].
  cbn [andb]. now rewrite byteOf_byteVal.
Qed.

Lemma decodeRune_ascii (c : ascii) (t : string) :
  isAsciiByte c = true -> decodeRune (String c t) = (byteVal c, 1%nat).
Proof. unfold isAsciiByte, decodeRune. cbv zeta. now intros ->. Qed.

Lemma runeString_nonempty (r : Z) : runeString r <> EmptyString.
Proof. unfold runeString. repeat case_match; discriminate. Qed.

Lemma high_byte_not_ws (n : Z) : 0x80 <= n < 256 -> Str.mem (byteOf n) abnfWs = false.
Proof.
  intros R. unfold abnfWs. cbn [Str.mem]. rewrite orb_false_r.
  apply orb_false_iff. split; apply Ascii.eqb_neq; intros E;
    apply (f_equal byteVal) in E; rewrite byteVal_byteOf in E by lia;
    vm_compute in E; lia.
Qed.

(** The test [strings.Contains(abnfWs, string(c))] on a byte. *)
Lemma inAbnfWs_byteString (c : ascii) : Contains abnfWs (byteString c) = inAbnfWs c.
Proof. destruct c as [[] [] [] [] [] [] [] []]; vm_compute; reflexivity. Qed.

Lemma find_first_byte_absent (c : ascii) (sub s : string) :
  Str.mem c s = false -> Str.find (String c sub) s = None.
Proof.
  induction s as [|a s IH]; [reflexivity|]. cbn [Str.mem Str.find Str.isPrefix].
  intros M. apply orb_false_iff in M as [X M]. rewrite Ascii.eqb_sym, X.
  now rewrite (IH M).
Qed.

Lemma ascii_text_high_byte (c : ascii) (s : string) :
  allBytes isAsciiByte s = true -> isAsciiByte c = false -> Str.mem c s = false.
Proof.
  intros A H. induction s as [|a s IH]; [reflexivity|].
  cbn [allBytes Str.mem] in *. apply andb_true_iff in A as [Aa A].
  rewrite (IH A), orb_false_r. apply Ascii.eqb_neq. congruence.
Qed.

(** The test [strings.Contains(targets, string(b))] of [findAnyUnescaped]
    on a byte [b], when the targets are ASCII bytes. *)
Lemma Contains_byteString (targets : string) (c : ascii) :
  allBytes isAsciiByte targets = true ->
  Contains targets (byteString c) = Str.mem c targets.
Proof.
  intros A. destruct (isAsciiByte c) eqn:Byte.
  - now rewrite (byteString_ascii c Byte), Contains_char.
  - rewrite (ascii_text_high_byte c targets A Byte).
    unfold isAsciiByte in Byte. apply Z.ltb_ge in Byte.
    pose proof (byteVal_range c) as R.
    unfold byteString, runeString.
    destruct (Z.leb_spec (byteVal c) 0x7F); [lia|]. rewrite andb_false_r.
    destruct (Z.leb_spec 0x80 (byteVal c)); [|lia].
    destruct (Z.leb_spec (byteVal c) 0x7FF); [|lia]. cbn [andb].
    unfold Contains, Index. rewrite find_first_byte_absent; [reflexivity|].
    apply (ascii_text_high_byte _ _ A). unfold isAsciiByte.
    rewrite byteVal_byteOf by (Z.div_mod_to_equations; lia).
    apply Z.ltb_ge. Z.div_mod_to_equations. lia.
Qed.

(** What the conversions do to a byte that is not ASCII: [ParseParams]
    returns the byte 0xE9 of a value as the two bytes 0xC3 0xA9, and
    [SplitByWhitespace] returns the byte 0xFF, which is not valid UTF-8, as
    the three bytes of U+FFFD. *)
Example bytes_rewritten :
  ParseParams (";k=" +:+ String (byteOf 0xE9) EmptyString) ";" ";" NUL true true
  = Ok ([("k", Some (String (byteOf 0xC3) (String (byteOf 0xA9) EmptyString)))], 4)
  /\ SplitByWhitespace (String (byteOf 0xFF) EmptyString)
     = [String (byteOf 0xEF) (String (byteOf 0xBF) (String (byteOf 0xBD) EmptyString))]
  /\ SplitByWhitespace (String (byteOf 0xC3) (String (byteOf 0xA9) " x"))
     = [String (byteOf 0xC3) (String (byteOf 0xA9) EmptyString); "x"].
Proof. repeat split; vm_compute; reflexivity. Qed.

Lemma findAny_single (chars : string) (c : ascii) :
  Str.findAny chars (String c EmptyString) = None <-> Str.mem c chars = false.
Proof.
  cbn [Str.findAny]. destruct (Str.mem c chars); split; intros H;
    (discriminate H || reflexivity).
Qed.

Lemma findAny_cons_None (chars : string) (c : ascii) (s : string) :
  Str.mem c chars = false -> Str.findAny chars s = None ->
  Str.findAny chars (String c s) = None.
Proof. intros M F. cbn [Str.findAny]. now rewrite M, F. Qed.

(** * Reading back a list of parameters *)

Lemma parseLoop_plain (sep end_ : ascii) (quoteValues permitSingletons : bool)
    (token rest : string) :
  allBytes (plainByte sep end_) token = true ->
  forall (consumed : Z) (params : Params) (buffer key : string) (parsingKey : bool),
    parseLoop sep end_ quoteValues permitSingletons (token +:+ rest) consumed
      (mkScan params buffer key parsingKey false)
    = parseLoop sep end_ quoteValues permitSingletons rest (consumed + Str.len token)
        (mkScan params (buffer +:+ token) key parsingKey false).
Proof.
  induction token as [|c t IH]; intros Plain consumed params buffer key parsingKey.
  - rewrite app_Empty, app_Empty_r. change (Str.len EmptyString) with 0.
    now rewrite Z.add_0_r.
  - cbn [allBytes] in Plain. apply andb_true_iff in Plain as [Byte Plain].
    unfold plainByte in Byte. apply andb_true_iff in Byte as [Ascii Byte].
    apply negb_true_iff in Byte.
    repeat (apply orb_false_iff in Byte as [Byte ?]).
    rewrite app_String. cbn [parseLoop]. cbv zeta.
    cbn [sc_params sc_buffer sc_key sc_parsingKey sc_inQuotes].
    rewrite (byteString_ascii c Ascii). clear Ascii.
    repeat match goal with H : _ = false |- _ => rewrite H; clear H end.
    cbn [negb andb]. rewrite (IH Plain).
    rewrite append_assoc. f_equal. unfold Str.len. cbn [String.length]. lia.
Qed.

Lemma parseLoop_pairs (sep end_ : ascii) (quoteValues permitSingletons : bool)
    (pairs : list (string * string)) :
  sep <> end_ -> sep <> "="%char -> end_ <> "="%char ->
  Forall (fun kv : string * string =>
            kv.1 <> EmptyString
            /\ allBytes (plainByte sep end_) kv.1 = true
            /\ allBytes (plainByte sep end_) kv.2 = true) pairs ->
  forall (consumed : Z) (params : Params) (key value : string),
    ('(st, n) ← parseLoop sep end_ quoteValues permitSingletons (renderParams sep pairs)
                  consumed (mkScan params value key false false);
     ps ← finishParams permitSingletons st; Ok (ps, n))
    = Ok (params ++ (key, Some value) :: ((fun kv : string * string => (kv.1, Some kv.2)) <$> pairs),
          consumed + Str.len (renderParams sep pairs)).
Proof.
  intros SepEnd SepEq EndEq. induction 1 as [|[k v] pairs (NonEmpty & PlainK & PlainV) _ IH];
    intros consumed params key value.
  - cbn. unfold Params_Add. now rewrite Z.add_0_r.
  - cbn [renderParams foldr fst snd] in *. cbn [parseLoop]. cbv zeta.
    cbn [sc_params sc_buffer sc_key sc_parsingKey sc_inQuotes].
    rewrite (proj2 (Ascii.eqb_neq sep end_) SepEnd), Ascii.eqb_refl. cbn [andb].
    rewrite (parseLoop_plain _ _ _ _ k _ PlainK). rewrite app_Empty.
    cbn [parseLoop]. cbv zeta.
    cbn [sc_params sc_buffer sc_key sc_parsingKey sc_inQuotes].
    assert (E1 : Ascii.eqb "=" end_ = false)
      by (apply Ascii.eqb_neq; congruence).
    assert (E2 : Ascii.eqb "=" sep = false)
      by (apply Ascii.eqb_neq; congruence).
    rewrite E1, E2. change (Ascii.eqb "=" quoteChar) with false.
    change (Ascii.eqb "=" "=") with true. cbv iota.
    destruct k as [|k0 k']; [contradiction|]. cbn [Str.isEmpty negb].
    rewrite (parseLoop_plain _ _ _ _ v _ PlainV). rewrite app_Empty.
    fold (renderParams sep pairs). rewrite IH. unfold Params_Add.
    rewrite <- app_assoc. cbn [app fmap list_fmap fst snd]. f_equal. f_equal.
    unfold Str.len. cbn [String.length]. rewrite ?length_app. cbn [String.length].
    rewrite ?length_app. lia.
Qed.

(** X6: [ParseParams] reads back a rendered list of ASCII keys and values.
    For a separator that is also the start byte (and is neither NUL, nor the
    end byte, nor the equals sign) and a list of keys with values, the keys
    non-empty, keys and values made of ASCII bytes other than the separator,
    the end byte, double quote, equals sign, space and tab: the text in which
    every pair is written as separator, key, equals sign, value parses to
    exactly these pairs, in order, every one with its value, and the whole
    text is consumed.  (A byte from 0x80 on does not come back as it is: the
    loop writes [string(source[consumed])], two bytes.) *)
Theorem ParseParams_reads_back (sep end_ : ascii) (quoteValues permitSingletons : bool)
    (pairs : list (string * string)) :
  sep <> NUL -> sep <> end_ -> sep <> "="%char -> end_ <> "="%char ->
  Forall (fun kv : string * string =>
            kv.1 <> EmptyString
            /\ allBytes (plainByte sep end_) kv.1 = true
            /\ allBytes (plainByte sep end_) kv.2 = true) pairs ->
  ParseParams (renderParams sep pairs) sep sep end_ quoteValues permitSingletons
  = Ok ((fun kv : string * string => (kv.1, Some kv.2)) <$> pairs,
        Str.len (renderParams sep pairs)).
Proof.
  intros SepNul SepEnd SepEq EndEq Plain.
  destruct pairs as [|[k v] pairs]; [reflexivity|].
  apply Forall_cons in Plain as [(NonEmpty & PlainK & PlainV) Plain].
  cbn [renderParams foldr fst snd] in *. unfold ParseParams.
  rewrite (proj2 (Ascii.eqb_neq sep NUL) SepNul), Ascii.eqb_refl. cbn [negb].
  rewrite (parseLoop_plain _ _ _ _ k _ PlainK). rewrite app_Empty.
  cbn [parseLoop]. cbv zeta.
  cbn [sc_params sc_buffer sc_key sc_parsingKey sc_inQuotes].
  assert (E1 : Ascii.eqb "=" end_ = false) by (apply Ascii.eqb_neq; congruence).
  assert (E2 : Ascii.eqb "=" sep = false) by (apply Ascii.eqb_neq; congruence).
  rewrite E1, E2. change (Ascii.eqb "=" quoteChar) with false.
  change (Ascii.eqb "=" "=") with true. cbv iota.
  destruct k as [|k0 k']; [contradiction|]. cbn [Str.isEmpty negb].
  rewrite (parseLoop_plain _ _ _ _ v _ PlainV). rewrite app_Empty.
  fold (renderParams sep pairs).
  rewrite (parseLoop_pairs sep end_ quoteValues permitSingletons pairs SepEnd SepEq EndEq Plain).
  cbn [app fmap list_fmap fst snd NewParams]. f_equal. f_equal.
  unfold Str.len. cbn [String.length]. rewrite ?length_app. cbn [String.length].
  rewrite ?length_app. lia.
Qed.

Lemma ParseParams_reads_back_witness :
  ParseParams ";transport=tcp;ttl=15" ";" ";" "?" true true
  = Ok ([("transport", Some "tcp"); ("ttl", Some "15")], 21).
Proof.
  exact (ParseParams_reads_back ";" "?" true true [("transport", "tcp"); ("ttl", "15")]
           ltac:(discriminate) ltac:(discriminate) ltac:(discriminate) ltac:(discriminate)
           ltac:(repeat constructor; discriminate)).
Defined.

(** * SIP URIs of the plain form *)

Lemma find_char_skip (c : ascii) (a b : string) :
  Str.mem c a = false ->
  Str.find (String c EmptyString) (a +:+ b)
  = (fun i : nat => (String.length a + i)%nat) <$> Str.find (String c EmptyString) b.
Proof.
  induction a as [|x a IH]; intros M.
  - rewrite app_Empty. destruct (Str.find _ b); reflexivity.
  - cbn [Str.mem] in M. apply orb_false_iff in M as [X M].
    rewrite app_String. cbn [Str.find Str.isPrefix]. rewrite Ascii.eqb_sym, X.
    rewrite (IH M). destruct (Str.find _ b); reflexivity.
Qed.

Lemma Index_char_skip (c : ascii) (a b : string) :
  Str.mem c a = false ->
  Index (a +:+ b) (String c EmptyString)
  = if Index b (String c EmptyString) =? -1 then -1
    else Str.len a + Index b (String c EmptyString).
Proof.
  intros M. unfold Index. rewrite (find_char_skip _ _ _ M).
  destruct (Str.find _ b) as [i|]; cbn [fmap option_fmap option_map ofIndex].
  - destruct (Z.eqb_spec (Z.of_nat i) (-1)); [lia|]. unfold Str.len. lia.
  - reflexivity.
Qed.

Lemma Index_char_first (c : ascii) (a b : string) :
  Str.mem c a = false ->
  Index (a +:+ String c b) (String c EmptyString) = Str.len a.
Proof.
  intros M. rewrite (Index_char_skip _ _ _ M).
  assert (E : Index (String c b) (String c EmptyString) = 0).
  { unfold Index. cbn [Str.find Str.isPrefix]. now rewrite Ascii.eqb_refl. }
  rewrite E. cbn. lia.
Qed.

Lemma slice_take (s : string) (n : nat) :
  (n <= String.length s)%nat -> Str.slice s 0 (Z.of_nat n) = Ok (Str.take n s).
Proof.
  intros L. rewrite slice_in_range; [now rewrite sub_prefix | lia | unfold Str.len; lia].
Qed.

Lemma slice_drop (s : string) (n : nat) :
  (n <= String.length s)%nat -> Str.slice s (Z.of_nat n) (Str.len s) = Ok (Str.drop n s).
Proof.
  intros L. rewrite slice_in_range; [now rewrite sub_suffix | unfold Str.len; lia | lia].
Qed.

Lemma parseSipUriRest_plain (secure : bool) (user password : MaybeString)
    (hostPort : string) :
  Str.mem ";" hostPort = false -> Str.mem "?" hostPort = false ->
  parseSipUriRest secure user password hostPort
  = (fun domain : Domain => mkSipUri secure user password domain NewParams NewParams)
      <$> ParseHostPort hostPort.
Proof.
  intros Semi Quest. unfold parseSipUriRest, endOfUriPart. cbv zeta.
  apply Index_char_absent in Semi, Quest. rewrite Semi, Quest. cbn [Z.eqb].
  rewrite sub_whole, sub_end.
  destruct (ParseHostPort hostPort) as [domain| |]; reflexivity.
Qed.

Lemma ParseSipUri_after_scheme (secure : bool) (rest : string) :
  ParseSipUri ((if secure then "sips:" else "sip:") +:+ rest)
  = let endOfUserInfoPart := Index rest "@" in
    if negb (endOfUserInfoPart =? -1) then
      let endOfUsernamePart := Index rest ":" in
      let endOfUsernamePart :=
        if endOfUserInfoPart <? endOfUsernamePart then -1 else endOfUsernamePart in
      let '(user, password) :=
        if endOfUsernamePart =? -1
        then (Some (Str.sub rest 0 endOfUserInfoPart), None)
        else (Some (Str.sub rest 0 endOfUsernamePart),
              Some (Str.sub rest (endOfUsernamePart + 1) endOfUserInfoPart)) in
      parseSipUriRest secure user password
        (Str.sub rest (endOfUserInfoPart + 1) (Str.len rest))
    else parseSipUriRest secure None None rest.
Proof.
  unfold ParseSipUri. destruct secure.
  - change ("sips:" +:+ rest) with (String "s" (String "i" (String "p" (String "s" (String ":" rest))))).
    rewrite (slice_take _ 3) by (simpl; lia). cbn [Str.take mbind outcome_bind].
    change (String.eqb (ToLower "sip") "sip") with true. cbn [negb].
    rewrite (slice_drop _ 3) by (simpl; lia). cbn [Str.drop mbind outcome_bind].
    rewrite (slice_take _ 1) by (simpl; lia). cbn [Str.take mbind outcome_bind].
    change (String.eqb (ToLower "s") "s") with true. cbv iota.
    rewrite slice_tail. cbn [mbind outcome_bind]. rewrite at_head.
    cbn [mbind outcome_bind]. change (Ascii.eqb ":" ":") with true. cbn [negb].
    rewrite slice_tail. reflexivity.
  - change ("sip:" +:+ rest) with (String "s" (String "i" (String "p" (String ":" rest)))).
    rewrite (slice_take _ 3) by (simpl; lia). cbn [Str.take mbind outcome_bind].
    change (String.eqb (ToLower "sip") "sip") with true. cbn [negb].
    rewrite (slice_drop _ 3) by (simpl; lia). cbn [Str.drop mbind outcome_bind].
    rewrite (slice_take _ 1) by (simpl; lia). cbn [Str.take mbind outcome_bind].
    change (String.eqb (ToLower ":") "s") with false. cbv iota.
    cbn [mbind outcome_bind]. rewrite at_head.
    cbn [mbind outcome_bind]. change (Ascii.eqb ":" ":") with true. cbn [negb].
    rewrite slice_tail. reflexivity.
Qed.

(** X7: a SIP or SIPS URI of the form [scheme:user@host[:port]], where the
    user holds neither [@] nor [:] and the host-and-port text holds none of
    [@], [;] and [?], parses to that user without password, the domain
    [ParseHostPort] reads from the host-and-port text, and no parameters or
    headers; it fails exactly as [ParseHostPort] fails. *)
Theorem ParseSipUri_user_at_host (secure : bool) (user hostPort : string) :
  Str.mem "@" user = false -> Str.mem ":" user = false ->
  Str.mem "@" hostPort = false -> Str.mem ";" hostPort = false ->
  Str.mem "?" hostPort = false ->
  ParseSipUri ((if secure then "sips:" else "sip:") +:+ user +:+ "@" +:+ hostPort)
  = (fun domain : Domain =>
       mkSipUri secure (Some user) None domain NewParams NewParams)
      <$> ParseHostPort hostPort.
Proof.
  intros UserAt UserColon HostAt HostSemi HostQuest.
  rewrite ParseSipUri_after_scheme. cbv zeta.
  change ("@" +:+ hostPort) with (String "@" hostPort).
  rewrite (Index_char_first "@" user hostPort UserAt).
  pose proof (len_nonneg user) as Pos.
  destruct (Z.eqb_spec (Str.len user) (-1)) as [E|_]; [lia|]. cbn [negb].
  rewrite (Index_char_skip ":" user (String "@" hostPort) UserColon).
  assert (Colon : (if Str.len user
                        <? (if Index (String "@" hostPort) ":" =? -1 then -1
                            else Str.len user + Index (String "@" hostPort) ":")
                   then -1
                   else if Index (String "@" hostPort) ":" =? -1 then -1
                        else Str.len user + Index (String "@" hostPort) ":") = -1).
  { destruct (Z.eqb_spec (Index (String "@" hostPort) ":") (-1)) as [E|NE].
    - destruct (Z.ltb_spec (Str.len user) (-1)); reflexivity.
    - assert (0 < Index (String "@" hostPort) ":").
      { revert NE. unfold Index. cbn [Str.find Str.isPrefix].
        change (Ascii.eqb ":" "@") with false. cbv iota.
        destruct (Str.find ":" hostPort); cbn; [lia | congruence]. }
      destruct (Z.ltb_spec (Str.len user) (Str.len user + Index (String "@" hostPort) ":"));
        [reflexivity | lia]. }
  rewrite Colon. cbn [Z.eqb].
  unfold Str.len at 1. rewrite sub_prefix, take_app_length.
  replace (Str.len user + 1) with (Z.of_nat (S (String.length user)))
    by (unfold Str.len; lia).
  rewrite sub_suffix.
  replace (Str.drop (S (String.length user)) (user +:+ String "@" hostPort)) with hostPort.
  - now apply parseSipUriRest_plain.
  - change (String "@" hostPort) with ("@" +:+ hostPort).
    rewrite <- append_assoc.
    replace (S (String.length user)) with (String.length (user +:+ "@"))
      by (rewrite length_app; simpl; lia).
    now rewrite drop_app_length.
Qed.

Lemma ParseSipUri_user_at_host_witness :
  ParseSipUri "sips:alice@atlanta.example.com:5061"
  = Ok (mkSipUri true (Some "alice") None (mkDomain "atlanta.example.com" (Some 5061))
          NewParams NewParams).
Proof.
  exact (ParseSipUri_user_at_host true "alice" "atlanta.example.com:5061"
           eq_refl eq_refl eq_refl eq_refl eq_refl).
Defined.

(** * Start lines, split at their spaces *)

Lemma Join_cons (x y : string) (rest : list string) (sep : string) :
  Join (x :: y :: rest) sep = x +:+ sep +:+ Join (y :: rest) sep.
Proof. reflexivity. Qed.

Lemma split_go_char (c : ascii) (s : string) :
  Join ((split_go (String c EmptyString) s O).1 :: (split_go (String c EmptyString) s O).2)
    (String c EmptyString) = s
  /\ Forall (fun part : string => Str.mem c part = false)
       ((split_go (String c EmptyString) s O).1 :: (split_go (String c EmptyString) s O).2).
Proof.
  induction s as [|a t [IHj IHm]]; [split; [reflexivity | now repeat constructor]|].
  cbn [split_go Str.isPrefix String.length Nat.sub].
  destruct (split_go (String c EmptyString) t O) as [p ps] eqn:E. cbn [fst snd] in *.
  destruct (Ascii.eqb_spec c a) as [<-|NE].
  - cbn [fst snd]. split.
    + rewrite Join_cons, IHj. reflexivity.
    + constructor; [reflexivity | exact IHm].
  - cbn [fst snd]. apply Forall_cons in IHm as [Mp Mps]. split.
    + destruct ps as [|q qs]; [cbn [Join] in *; now rewrite IHj|].
      rewrite Join_cons in *. rewrite app_String. now rewrite IHj.
    + constructor; [|exact Mps]. cbn [Str.mem]. rewrite Mp.
      destruct (Ascii.eqb_spec a c); [congruence | reflexivity].
Qed.

Lemma Split_char (c : ascii) (s : string) :
  Join (Split s (String c EmptyString)) (String c EmptyString) = s
  /\ Forall (fun part : string => Str.mem c part = false) (Split s (String c EmptyString)).
Proof.
  unfold Split. pose proof (split_go_char c s) as H.
  now destruct (split_go (String c EmptyString) s O).
Qed.

Lemma Split_clean (c : ascii) (a : string) :
  Str.mem c a = false -> Split a (String c EmptyString) = [a].
Proof.
  unfold Split. induction a as [|x a IH]; [reflexivity|].
  cbn [Str.mem split_go Str.isPrefix]. intros M.
  apply orb_false_iff in M as [X M]. rewrite Ascii.eqb_sym, X.
  specialize (IH M). destruct (split_go (String c EmptyString) a O) as [p ps].
  now injection IH as -> ->.
Qed.

Lemma Split_first (c : ascii) (a b : string) :
  Str.mem c a = false ->
  Split (a +:+ String c b) (String c EmptyString) = a :: Split b (String c EmptyString).
Proof.
  unfold Split. induction a as [|x a IH].
  - intros _. rewrite app_Empty. cbn [split_go Str.isPrefix String.length Nat.sub].
    rewrite Ascii.eqb_refl. now destruct (split_go (String c EmptyString) b O).
  - cbn [Str.mem]. intros M. apply orb_false_iff in M as [X M].
    rewrite app_String. cbn [split_go Str.isPrefix]. rewrite Ascii.eqb_sym, X.
    specialize (IH M).
    destruct (split_go (String c EmptyString) (a +:+ String c b) O) as [p ps].
    destruct (split_go (String c EmptyString) b O) as [q qs].
    now injection IH as -> ->.
Qed.

(** X8: [ParseStatusLine] accepts exactly the lines made of a version
    without spaces, a space, a status text without spaces that parses as an
    unsigned 16-bit integer, a space and a reason phrase; the reason phrase
    is returned verbatim, spaces included. *)
Theorem ParseStatusLine_accepts_iff (statusLine sipVersion reasonPhrase : string)
    (statusCode : Z) :
  ParseStatusLine statusLine = Ok (sipVersion, statusCode, reasonPhrase) <->
  exists statusText : string,
    statusLine = sipVersion +:+ " " +:+ statusText +:+ " " +:+ reasonPhrase
    /\ Str.mem " " sipVersion = false
    /\ Str.mem " " statusText = false
    /\ ParseUint statusText 16 = Ok statusCode.
Proof.
  unfold ParseStatusLine. split.
  - destruct (Split_char " " statusLine) as [J M].
    destruct (Split statusLine " ") as [|p0 [|p1 [|p2 more]]]; try discriminate.
    destruct (ParseUint p1 16) as [n| |] eqn:U; simpl; try discriminate.
    intros [= <- <- <-]. exists p1.
    apply Forall_cons in M as [M0 M]. apply Forall_cons in M as [M1 _].
    repeat split; try assumption. rewrite <- J. reflexivity.
  - intros (statusText & -> & M0 & M1 & U).
    rewrite !app_String, !app_Empty.
    rewrite (Split_first " " sipVersion _ M0), (Split_first " " statusText _ M1).
    destruct (Split_char " " reasonPhrase) as [J _].
    destruct (Split reasonPhrase " ") as [|p2 more] eqn:S.
    + unfold Split in S. now destruct (split_go " " reasonPhrase O).
    + rewrite U. cbn [mbind outcome_bind]. now rewrite J.
Qed.

(** X9: [ParseRequestLine] accepts exactly the lines made of three parts
    without spaces, separated by single spaces, whose middle part parses as a
    URI other than the wildcard; the method is returned in upper case, the
    version as written. *)
Theorem ParseRequestLine_accepts_iff (requestLine method sipVersion : string)
    (recipient : Uri) :
  ParseRequestLine requestLine = Ok (method, recipient, sipVersion) <->
  exists methodText uriText : string,
    requestLine = methodText +:+ " " +:+ uriText +:+ " " +:+ sipVersion
    /\ Str.mem " " methodText = false
    /\ Str.mem " " uriText = false
    /\ Str.mem " " sipVersion = false
    /\ method = ToUpper methodText
    /\ ParseUri uriText = Ok recipient
    /\ recipient <> WildcardUri.
Proof.
  unfold ParseRequestLine. split.
  - destruct (Split_char " " requestLine) as [J M].
    destruct (Split requestLine " ") as [|p0 [|p1 [|p2 [|? ?]]]]; try discriminate.
    destruct (ParseUri p1) as [[su|]| |] eqn:U; simpl; try discriminate.
    intros [= <- <- <-]. exists p0, p1.
    apply Forall_cons in M as [M0 M]. apply Forall_cons in M as [M1 M].
    apply Forall_cons in M as [M2 _].
    repeat split; try assumption; try discriminate. rewrite <- J. reflexivity.
  - intros (methodText & uriText & -> & M0 & M1 & M2 & -> & U & NW).
    rewrite !app_String, !app_Empty.
    rewrite (Split_first " " methodText _ M0), (Split_first " " uriText _ M1),
      (Split_clean " " sipVersion M2), U. simpl.
    destruct recipient; [reflexivity | contradiction].
Qed.

(** * Further properties of the header parsers *)

Lemma findAny_app_None (chars s t : string) :
  Str.findAny chars (s +:+ t) = None <->
  Str.findAny chars s = None /\ Str.findAny chars t = None.
Proof.
  induction s as [|a s IH]; [rewrite app_Empty; tauto|].
  rewrite app_String. cbn [Str.findAny].
  destruct (Str.mem a chars); [split; [discriminate | intros [H _]; discriminate]|].
  destruct (Str.findAny chars (s +:+ t)) eqn:E1, (Str.findAny chars s) eqn:E2; simpl.
  - split; [discriminate | intros [H _]; discriminate].
  - split; [discriminate|]. intros [_ H]. destruct IH as [_ IH].
    discriminate (IH (conj eq_refl H)).
  - destruct IH as [IH _]. destruct (IH eq_refl) as [H _]. discriminate.
  - split; [|reflexivity]. intros _. split; [reflexivity | now apply IH].
Qed.

Lemma ContainsAny_false (s chars : string) :
  ContainsAny s chars = false <-> Str.findAny chars s = None.
Proof.
  unfold ContainsAny, IndexAny, ofIndex.
  destruct (Str.findAny chars s) as [i|]; [|split; reflexivity].
  split; [|discriminate]. intros H. apply negb_false_iff, Z.eqb_eq in H. lia.
Qed.

Lemma ContainsAny_app (s t : string) :
  ContainsAny s abnfWs = false -> ContainsAny t abnfWs = false ->
  ContainsAny (s +:+ t) abnfWs = false.
Proof.
  rewrite !ContainsAny_false. intros S T. apply findAny_app_None. now split.
Qed.

(** A rune that is neither space nor tab has no space and no tab among the
    bytes of its encoding. *)
Lemma runeString_not_ws (r : Z) :
  Contains abnfWs (runeString r) = false -> ContainsAny (runeString r) abnfWs = false.
Proof.
  intros NotWs. apply ContainsAny_false. revert NotWs. unfold runeString.
  destruct ((0 <=? r) && (r <=? 0x7F)) eqn:One.
  { rewrite Contains_char. intros M. now apply findAny_single. }
  intros _.
  destruct ((0x80 <=? r) && (r <=? 0x7FF)) eqn:Two.
  { apply andb_true_iff in Two as [L H]. apply Z.leb_le in L, H.
    repeat apply findAny_cons_None; try reflexivity; apply high_byte_not_ws;
      Z.div_mod_to_equations; lia. }
  destruct (((0x800 <=? r) && (r <? 0xD800)) || ((0xE000 <=? r) && (r <=? 0xFFFF)))
    eqn:Three.
  { assert (R : 0x800 <= r <= 0xFFFF).
    { apply orb_true_iff in Three as [T|T]; apply andb_true_iff in T as [L H];
        apply Z.leb_le in L; first [apply Z.ltb_lt in H | apply Z.leb_le in H]; lia. }
    repeat apply findAny_cons_None; try reflexivity; apply high_byte_not_ws;
      Z.div_mod_to_equations; lia. }
  destruct ((0x10000 <=? r) && (r <=? 0x10FFFF)) eqn:Four.
  { apply andb_true_iff in Four as [L H]. apply Z.leb_le in L, H.
    repeat apply findAny_cons_None; try reflexivity; apply high_byte_not_ws;
      Z.div_mod_to_equations; lia. }
  reflexivity.
Qed.

Lemma withoutAbnfWs_token (tok : string) :
  ContainsAny tok abnfWs = false -> withoutAbnfWs tok = tok.
Proof.
  rewrite ContainsAny_false. induction tok as [|c t IH]; [reflexivity|].
  cbn [Str.findAny withoutAbnfWs]. unfold inAbnfWs.
  destruct (Str.mem c abnfWs); [discriminate|].
  destruct (Str.findAny abnfWs t); [discriminate|]. intros _. now rewrite IH.
Qed.

Lemma foldr_append_snoc (parts : list string) (last : string) :
  foldr String.append EmptyString (parts ++ [last])
  = foldr String.append EmptyString parts +:+ last.
Proof.
  induction parts as [|p parts IH]; simpl.
  - now rewrite app_Empty_r.
  - now rewrite IH, append_assoc.
Qed.

Lemma tail_snoc_nonempty (result : list string) (buffer : string) :
  Forall (fun tok : string => tok <> EmptyString) (tail result) ->
  (result <> [] -> buffer <> EmptyString) ->
  Forall (fun tok : string => tok <> EmptyString) (tail (result ++ [buffer])).
Proof.
  destruct result as [|r rs]; intros T B; [constructor|]. simpl in *.
  apply Forall_app. split; [exact T|]. constructor; [now apply B | constructor].
Qed.

(** Whatever the bytes of the text: no token holds a space or a tab, and
    only the first token can be empty. *)
Lemma SplitByWhitespace_go_tokens (text : string) :
  forall (skip : nat) (buffer : string) (inString : bool) (result : list string),
    Forall (fun tok : string => ContainsAny tok abnfWs = false) result ->
    ContainsAny buffer abnfWs = false ->
    Forall (fun tok : string => tok <> EmptyString) (tail result) ->
    (result <> [] -> inString = true -> buffer <> EmptyString) ->
    (inString = false -> buffer = EmptyString) ->
    let out := SplitByWhitespace_go text skip buffer inString result in
    Forall (fun tok : string => ContainsAny tok abnfWs = false) out
    /\ Forall (fun tok : string => tok <> EmptyString) (tail out).
Proof.
  induction text as [|c t IH];
    intros skip buffer inString result Toks Buf Tail Pending Idle;
    cbn [SplitByWhitespace_go]; cbv zeta.
  - destruct buffer as [|b buffer']; cbn [Str.isEmpty negb]; [now split|].
    split; [apply Forall_app; split; [exact Toks | now repeat constructor]|].
    apply tail_snoc_nonempty; [exact Tail | discriminate].
  - destruct skip as [|skip]; [|now apply IH].
    destruct (decodeRune (String c t)) as [char width].
    destruct (Contains abnfWs (runeString char)) eqn:Ws.
    + destruct inString.
      * apply IH.
        -- apply Forall_app. split; [exact Toks | now repeat constructor].
        -- reflexivity.
        -- apply tail_snoc_nonempty; [exact Tail | auto].
        -- discriminate.
        -- reflexivity.
      * rewrite (Idle eq_refl) in *. apply IH; [exact Toks | exact Buf | exact Tail | |];
          [discriminate | reflexivity].
    + apply IH; [exact Toks | | exact Tail | |].
      * apply ContainsAny_app; [exact Buf | now apply runeString_not_ws].
      * intros _ _ E. destruct buffer; [|discriminate E].
        rewrite app_Empty in E. now apply runeString_nonempty in E.
      * discriminate.
Qed.

(** On an ASCII text every rune is one byte, written as it is. *)
Lemma SplitByWhitespace_go_ascii (text : string) :
  allBytes isAsciiByte text = true ->
  forall (buffer : string) (inString : bool) (result : list string),
    (inString = false -> buffer = EmptyString) ->
    foldr String.append EmptyString (SplitByWhitespace_go text O buffer inString result)
    = foldr String.append EmptyString result +:+ buffer +:+ withoutAbnfWs text.
Proof.
  induction text as [|c t IH]; intros Ascii buffer inString result Idle;
    cbn [SplitByWhitespace_go withoutAbnfWs]; cbv zeta.
  - destruct buffer as [|b buffer']; cbn [Str.isEmpty negb].
    + now rewrite !app_Empty_r.
    + now rewrite foldr_append_snoc, app_Empty_r.
  - cbn [allBytes] in Ascii. apply andb_true_iff in Ascii as [Byte Ascii].
    rewrite (decodeRune_ascii c t Byte).
    change (runeString (byteVal c)) with (byteString c).
    rewrite (byteString_ascii c Byte), Contains_char. fold (inAbnfWs c).
    cbn [Nat.sub].
    destruct (inAbnfWs c).
    + destruct inString.
      * rewrite (IH Ascii) by reflexivity.
        now rewrite foldr_append_snoc, app_Empty, append_assoc.
      * rewrite (Idle eq_refl) in *. now rewrite (IH Ascii) by reflexivity.
    + rewrite (IH Ascii) by discriminate.
      now rewrite !append_assoc.
Qed.

(** X10: the tokens of [SplitByWhitespace] hold no space or tab, and every
    token but the first is non-empty (the first is empty when the text starts
    with white space).  For an ASCII text the tokens, put together, are the
    text without its spaces and tabs.  (The loop steps through runes and
    writes [string(char)]: a byte that is not valid UTF-8 comes back as
    U+FFFD.) *)
Theorem SplitByWhitespace_tokens (text : string) :
  Forall (fun tok : string => ContainsAny tok abnfWs = false) (SplitByWhitespace text)
  /\ Forall (fun tok : string => tok <> EmptyString) (tail (SplitByWhitespace text))
  /\ (allBytes isAsciiByte text = true ->
      foldr String.append EmptyString (SplitByWhitespace text) = withoutAbnfWs text).
Proof.
  unfold SplitByWhitespace.
  destruct (SplitByWhitespace_go_tokens text O EmptyString true []) as (A & B).
  - constructor.
  - reflexivity.
  - constructor.
  - congruence.
  - discriminate.
  - split; [exact A|]. split; [exact B|]. intros Ascii.
    now rewrite (SplitByWhitespace_go_ascii text Ascii) by discriminate.
Qed.

Lemma addressHeaders_single_only (headerName : string) (idx : Z) (addrs : list address)
    (acc hs : list Header) :
  isToName headerName || isFromName headerName = true -> 0 < idx ->
  addressHeaders headerName idx addrs acc = Ok hs -> addrs = [] /\ hs = acc.
Proof.
  intros Name Pos. destruct addrs as [|[[displayName uri] paramSet] rest]; simpl.
  - now intros [= <-].
  - apply Z.ltb_lt in Pos. rewrite Pos.
    destruct (isToName headerName); [discriminate|].
    simpl in Name. rewrite Name. discriminate.
Qed.

(** X11: a To or From header line (long or short name) that parses yields at
    most one header: a second address in the line is an error, not a second
    header. *)
Theorem to_from_yield_at_most_one (headerName headerText : string) (hs : list Header) :
  isToName headerName || isFromName headerName = true ->
  parseAddressHeader headerName headerText = Ok hs ->
  (length hs <= 1)%nat.
Proof.
  intros Name. unfold parseAddressHeader.
  destruct (isToName headerName || isFromName headerName || isContactName headerName);
    [|intros [= <-]; simpl; lia].
  destruct (ParseAddressValues headerText) as [addrs| |]; cbn [mbind outcome_bind];
    try discriminate.
  destruct addrs as [|[[displayName uri] paramSet] rest]; [intros [= <-]; simpl; lia|].
  cbn [addressHeaders]. change (0 <? 0) with false. cbv iota.
  destruct (isToName headerName) eqn:To.
  - destruct uri; [|discriminate]. intros H.
    apply addressHeaders_single_only in H as [_ ->];
      [simpl; lia | now rewrite To | lia].
  - simpl in Name. rewrite Name.
    destruct uri; [|discriminate]. intros H.
    apply addressHeaders_single_only in H as [_ ->];
      [simpl; lia | now rewrite To, Name | lia].
Qed.

Lemma to_from_yield_at_most_one_witness :
  exists hs : list Header,
    parseAddressHeader "f" "Bob <sip:bob@biloxi.com>;tag=a6c85cf" = Ok hs
    /\ (length hs <= 1)%nat.
Proof.
  eexists. split; [vm_compute; reflexivity|].
  apply (to_from_yield_at_most_one "f" "Bob <sip:bob@biloxi.com>;tag=a6c85cf");
    vm_compute; reflexivity.
Defined.

Lemma len_zero_false (s : string) : (Str.len s =? 0) = false -> s <> EmptyString.
Proof. intros H ->. discriminate. Qed.

Lemma viaSections_hops (sections : list string) :
  forall (via : list ViaHop) (err : option error) (out : list ViaHop),
    Forall hopComplete via ->
    viaSections sections via err = Ok out ->
    length out = (length via + length sections)%nat /\ Forall hopComplete out.
Proof.
  induction sections as [|section more IH]; intros via err out Via; cbn [viaSections].
  - destruct err; [discriminate|]. intros [= <-]. split; [simpl; lia | exact Via].
  - destruct (Split section "/") as [|part0 [|part1 [|part2 rest2]]]; try discriminate.
    cbv zeta. set (p2 := Join (part2 :: rest2) "/").
    set (sentByIdx := IndexAny _ _ + _ + 1).
    destruct (sentByIdx =? 0); [discriminate|].
    destruct (sentByIdx =? 1); [discriminate|].
    destruct (Str.slice p2 0 (sentByIdx - 1)) as [transportRaw| |];
      cbn [mbind outcome_bind]; try discriminate.
    destruct (Str.len (TrimSpace part0) =? 0) eqn:N; [discriminate|].
    destruct (Str.len (TrimSpace part1) =? 0) eqn:V; [discriminate|].
    destruct (Str.len (TrimSpace transportRaw) =? 0) eqn:T; [discriminate|].
    destruct err as [e|]; [discriminate|].
    assert (Step : forall (d : Domain) (ps : Params),
              Forall hopComplete
                (via ++ [mkViaHop (TrimSpace part0) (TrimSpace part1)
                           (TrimSpace transportRaw) (Host d) (Port d) ps])).
    { intros d ps. apply Forall_app. split; [exact Via|].
      constructor; [|constructor].
      split; [|split]; cbn; now apply len_zero_false. }
    destruct (Str.slice p2 sentByIdx (Str.len p2)) as [viaBody| |];
      cbn [mbind outcome_bind]; try discriminate.
    destruct (Index viaBody ";" =? -1).
    + destruct (ParseHostPort viaBody) as [d| |]; cbn [mbind outcome_bind];
        try discriminate.
      intros H. apply IH in H as [L F]; [|apply Step]. split; [|exact F].
      rewrite L, List.length_app. simpl. lia.
    + destruct (ParseHostPort _) as [d| |]; cbn [mbind outcome_bind]; try discriminate.
      destruct (ParseParams _ _ _ _ _ _) as [[ps consumed]|e|]; try discriminate.
      * intros H. apply IH in H as [L F]; [|apply Step]. split; [|exact F].
        rewrite L, List.length_app. simpl. lia.
      * intros H. apply IH in H as [L F]; [|apply Step]. split; [|exact F].
        rewrite L, List.length_app. simpl. lia.
Qed.

(** X12: a Via line that parses yields exactly one Via header, with one hop
    per comma-separated section of the line, so never zero hops; every hop
    has a non-empty protocol name, version and transport. *)
Theorem parseViaHeader_hops (headerName headerText : string) (hs : list Header) :
  parseViaHeader headerName headerText = Ok hs ->
  exists via : list ViaHop,
    hs = [ViaHeader via]
    /\ length via = length (Split headerText ",")
    /\ via <> []
    /\ Forall hopComplete via.
Proof.
  unfold parseViaHeader.
  destruct (viaSections (Split headerText ",") [] None) as [via| |] eqn:E;
    cbn [mbind outcome_bind]; try discriminate.
  intros [= <-]. exists via.
  apply viaSections_hops in E as [L F]; [|constructor].
  split; [reflexivity|]. split; [exact L|]. split; [|exact F].
  intros ->. revert L. unfold Split. destruct (split_go "," headerText 0). discriminate.
Qed.

Lemma parseViaHeader_hops_witness :
  parseViaHeader "v" "SIP/2.0/UDP a.example.com, SIP/2.0/TCP b.example.com:5061"
  = Ok [ViaHeader [mkViaHop "SIP" "2.0" "UDP" "a.example.com" None NewParams;
                   mkViaHop "SIP" "2.0" "TCP" "b.example.com" (Some 5061) NewParams]]
  /\ exists via : list ViaHop, length via = 2%nat /\ Forall hopComplete via.
Proof.
  assert (E : parseViaHeader "v" "SIP/2.0/UDP a.example.com, SIP/2.0/TCP b.example.com:5061"
              = Ok [ViaHeader [mkViaHop "SIP" "2.0" "UDP" "a.example.com" None NewParams;
                               mkViaHop "SIP" "2.0" "TCP" "b.example.com" (Some 5061)
                                 NewParams]])
    by (vm_compute; reflexivity).
  split; [exact E|].
  destruct (parseViaHeader_hops _ _ _ E) as (via & _ & L & _ & F).
  exists via. split; [exact L | exact F].
Defined.

(** * Addresses in angle brackets *)

Lemma dropWhileEnd_last (p : ascii -> bool) (s : string) (c : ascii) :
  p c = false ->
  Str.dropWhileEnd p (s +:+ String c EmptyString) = s +:+ String c EmptyString.
Proof.
  intros Keep. induction s as [|a s IH].
  - rewrite app_Empty. cbn [Str.dropWhileEnd]. now rewrite Keep.
  - rewrite app_String. cbn [Str.dropWhileEnd]. rewrite IH.
    destruct s; reflexivity.
Qed.

Lemma bracketed_address_value (uriText : string) :
  uriText <> EmptyString -> Str.mem ">" uriText = false ->
  ParseAddressValue ("<" +:+ uriText +:+ ">")
  = (fun uri : Uri => (None, uri, NewParams)) <$> ParseUri uriText.
Proof.
  intros NonEmpty NoClose. unfold ParseAddressValue.
  change ("<" +:+ uriText +:+ ">") with (String "<" (uriText +:+ ">")).
  change (Str.len (String "<" (uriText +:+ ">")) =? 0) with false.
  cbv beta iota.
  assert (T : TrimSpace (String "<" (uriText +:+ ">")) = String "<" (uriText +:+ ">")).
  { rewrite TrimSpace_bracket. now rewrite dropWhileEnd_last. }
  rewrite T.
  change (findUnescaped (String "<" (uriText +:+ ">")) "<" [quotesDelim]) with 0.
  change (0 <? 0) with false. cbn [mbind outcome_bind].
  rewrite T, at_head. cbn [mbind outcome_bind].
  change (negb ("<" =? "<")%char) with false. cbv beta iota.
  rewrite slice_tail. cbn [mbind outcome_bind].
  rewrite (Index_char_first ">" uriText EmptyString NoClose).
  assert (Pos : 0 < Str.len uriText).
  { destruct uriText; [contradiction|]. unfold Str.len. simpl. lia. }
  destruct (Z.eqb_spec (Str.len uriText) 0) as [E|_]; [lia|].
  cbn [mbind outcome_bind].
  assert (Inside : Str.slice (uriText +:+ ">") 0 (Str.len uriText) = Ok uriText).
  { unfold Str.len. rewrite slice_take by (rewrite length_app; lia).
    now rewrite take_app_length. }
  rewrite Inside. cbn [mbind outcome_bind].
  destruct (ParseUri uriText) as [uri| |]; cbn [mbind outcome_bind fmap outcome_fmap];
    try reflexivity.
  rewrite len_app. change (Str.len ">") with 1.
  destruct (Z.leb_spec (Str.len uriText + 1) (Str.len uriText + 1)); [reflexivity | lia].
Qed.

(** X13: an address made of a non-empty text between angle brackets, the
    text holding no closing bracket, parses to the URI that [ParseUri] reads
    from the text, with no display name and no parameters, and fails exactly
    as [ParseUri] fails. *)
Theorem bracketed_address (uriText : string) :
  uriText <> EmptyString -> Str.mem ">" uriText = false ->
  ParseAddressValue ("<" +:+ uriText +:+ ">")
  = (fun uri : Uri => (None, uri, NewParams)) <$> ParseUri uriText.
Proof. exact (bracketed_address_value uriText). Qed.

Lemma bracketed_address_witness :
  ParseAddressValue "<sip:bob@biloxi.com>"
  = Ok (None,
        SipUriOf (mkSipUri false (Some "bob") None (mkDomain "biloxi.com" None)
                    NewParams NewParams),
        NewParams).
Proof.
  change "<sip:bob@biloxi.com>" with ("<" +:+ "sip:bob@biloxi.com" +:+ ">").
  rewrite (bracketed_address "sip:bob@biloxi.com"); [reflexivity | discriminate | reflexivity].
Defined.

(** * Lists of addresses *)

Lemma ParseAddressValues_go_inside (addresses uriText post : string) :
  Str.mem ">" uriText = false -> Str.mem quoteChar uriText = false ->
  forall (idx prevIdx : Z) (acc : list address),
    ParseAddressValues_go addresses (uriText +:+ String ">" post) idx prevIdx true false acc
    = ParseAddressValues_go addresses post (idx + Str.len uriText + 1) prevIdx
        false false acc.
Proof.
  induction uriText as [|c t IH]; intros NoClose NoQuote idx prevIdx acc.
  - rewrite app_Empty. cbn [ParseAddressValues_go]. change (Str.len EmptyString) with 0.
    change (Ascii.eqb ">" "<") with false. change (Ascii.eqb ">" ">") with true.
    cbn [andb negb]. f_equal. lia.
  - rewrite app_String. cbn [ParseAddressValues_go].
    cbn [Str.mem] in NoClose, NoQuote.
    apply orb_false_iff in NoClose as [C1 NoClose].
    apply orb_false_iff in NoQuote as [C2 NoQuote].
    rewrite C1, C2. cbn [andb negb].
    assert (Next : ParseAddressValues_go addresses (t +:+ String ">" post) (idx + 1)
                     prevIdx true false acc
                   = ParseAddressValues_go addresses post
                       (idx + Str.len (String c t) + 1) prevIdx false false acc).
    { rewrite (IH NoClose NoQuote). f_equal. unfold Str.len. cbn [String.length]. lia. }
    destruct (Ascii.eqb c "<"); cbn [andb]; exact Next.
Qed.

Lemma slice_middle (pre seg post : string) :
  Str.slice (pre +:+ seg +:+ post) (Str.len pre) (Str.len pre + Str.len seg) = Ok seg.
Proof.
  pose proof (len_nonneg pre). pose proof (len_nonneg seg). pose proof (len_nonneg post).
  rewrite slice_in_range by (rewrite ?len_app; lia).
  unfold Str.sub, Str.len. rewrite Nat2Z.id, drop_app_length.
  replace (Z.to_nat (Z.of_nat (String.length pre) + Z.of_nat (String.length seg)
                     - Z.of_nat (String.length pre)))
    with (String.length seg) by lia.
  now rewrite take_app_length.
Qed.

Lemma ParseAddressValues_go_segment (pre uriText post : string) (acc : list address) :
  Str.mem ">" uriText = false -> Str.mem quoteChar uriText = false ->
  let addresses := pre +:+ bracketed uriText +:+ String "," post in
  ParseAddressValues_go addresses (bracketed uriText +:+ String "," post)
    (Str.len pre) (Str.len pre) false false acc
  = a ← ParseAddressValue (bracketed uriText);
    ParseAddressValues_go addresses post
      (Str.len (pre +:+ bracketed uriText +:+ ","))
      (Str.len (pre +:+ bracketed uriText +:+ ",")) false false (acc ++ [a]).
Proof.
  intros NoClose NoQuote addresses.
  assert (Shape : bracketed uriText +:+ String "," post
                  = String "<" (uriText +:+ String ">" (String "," post))).
  { unfold bracketed. rewrite !append_assoc. reflexivity. }
  rewrite Shape.
  cbn [ParseAddressValues_go]. change (Ascii.eqb "<" "<") with true. cbn [andb negb].
  rewrite (ParseAddressValues_go_inside _ _ _ NoClose NoQuote).
  cbn [ParseAddressValues_go].
  change (Ascii.eqb "," "<") with false. change (Ascii.eqb "," ">") with false.
  change (Ascii.eqb "," quoteChar) with false. change (Ascii.eqb "," ",") with true.
  cbn [andb negb].
  assert (Len : Str.len pre + 1 + Str.len uriText + 1
                = Str.len pre + Str.len (bracketed uriText)).
  { unfold bracketed. rewrite !len_app. change (Str.len "<") with 1.
    change (Str.len ">") with 1. lia. }
  rewrite Len. unfold addresses.
  change (String "," post) with ("," +:+ post) at 1.
  rewrite slice_middle. cbn [mbind outcome_bind].
  destruct (ParseAddressValue (bracketed uriText)) as [a| |]; cbn [mbind outcome_bind];
    try reflexivity.
  rewrite !len_app. change (Str.len ",") with 1.
  replace (Str.len pre + Str.len (bracketed uriText) + 1)
    with (Str.len pre + (Str.len (bracketed uriText) + 1)) by lia.
  reflexivity.
Qed.

Lemma ParseAddressValues_go_list (uriTexts : list string) :
  forall (pre : string) (acc : list address) (uris : list Uri),
    Forall (fun u : string =>
              u <> EmptyString /\ Str.mem ">" u = false /\ Str.mem quoteChar u = false)
      uriTexts ->
    Forall2 (fun (u : string) (uri : Uri) => ParseUri u = Ok uri) uriTexts uris ->
    let rest := foldr (fun (u : string) (r : string) => bracketed u +:+ String "," r)
                  EmptyString uriTexts in
    ParseAddressValues_go (pre +:+ rest) rest (Str.len pre) (Str.len pre) false false acc
    = Ok (acc ++ ((fun uri : Uri => (None, uri, NewParams)) <$> uris)).
Proof.
  induction uriTexts as [|u us IH]; intros pre acc uris Plain Parsed.
  - apply Forall2_nil_inv_l in Parsed as ->. cbn. now rewrite app_nil_r.
  - apply Forall2_cons_inv_l in Parsed as (uri & uris' & U & Parsed & ->).
    apply Forall_cons in Plain as [(NonEmpty & NoClose & NoQuote) Plain].
    cbn [foldr]. cbv zeta.
    rewrite (ParseAddressValues_go_segment pre u _ acc NoClose NoQuote).
    change (ParseAddressValue (bracketed u)) with (ParseAddressValue ("<" +:+ u +:+ ">")).
    rewrite (bracketed_address_value u NonEmpty NoClose), U.
    cbn [fmap outcome_fmap mbind outcome_bind].
    replace (pre +:+ bracketed u +:+
             String "," (foldr (fun u0 r => bracketed u0 +:+ String "," r) EmptyString us))
      with ((pre +:+ bracketed u +:+ ",") +:+
            foldr (fun u0 r => bracketed u0 +:+ String "," r) EmptyString us)
      by (now rewrite !append_assoc).
    rewrite (IH _ _ uris' Plain Parsed). cbn [fmap list_fmap].
    now rewrite <- app_assoc.
Qed.

Lemma Join_bracketed (uriTexts : list string) :
  uriTexts <> [] ->
  Join (bracketed <$> uriTexts) "," +:+ ","
  = foldr (fun (u : string) (r : string) => bracketed u +:+ String "," r)
      EmptyString uriTexts.
Proof.
  induction uriTexts as [|u [|v us] IH]; intros NonEmpty; [contradiction|reflexivity|].
  cbn [fmap list_fmap foldr] in *. rewrite Join_cons, !append_assoc.
  rewrite (IH ltac:(discriminate)). reflexivity.
Qed.

(** X14: a comma-separated list of URIs in angle brackets parses, address by
    address and in order, to those URIs; commas inside the brackets do not
    split.  Each text between brackets is non-empty and holds neither a
    closing bracket nor a double quote, and [ParseUri] accepts it.  A Route
    header with such a text has exactly these URIs. *)
Theorem bracketed_list_parses_in_order (uriTexts : list string) (uris : list Uri)
    (headerName : string) :
  uriTexts <> [] ->
  Forall (fun u : string =>
            u <> EmptyString /\ Str.mem ">" u = false /\ Str.mem quoteChar u = false)
    uriTexts ->
  Forall2 (fun (u : string) (uri : Uri) => ParseUri u = Ok uri) uriTexts uris ->
  ParseAddressValues (Join (bracketed <$> uriTexts) ",")
  = Ok ((fun uri : Uri => (None, uri, NewParams)) <$> uris)
  /\ parseRouteHeader headerName (Join (bracketed <$> uriTexts) ",")
     = Ok [RouteHeader uris].
Proof.
  intros NonEmpty Plain Parsed.
  assert (Values : ParseAddressValues (Join (bracketed <$> uriTexts) ",")
                   = Ok ((fun uri : Uri => (None, uri, NewParams)) <$> uris)).
  { unfold ParseAddressValues. cbv zeta. rewrite (Join_bracketed _ NonEmpty).
    pose proof (ParseAddressValues_go_list uriTexts EmptyString [] uris Plain Parsed) as H.
    cbv zeta in H. rewrite app_Empty in H. exact H. }
  split; [exact Values|].
  unfold parseRouteHeader. rewrite Values. cbn [mbind outcome_bind].
  unfold addressUris. rewrite <- list_fmap_compose.
  f_equal. f_equal. f_equal. apply list_fmap_id.
Qed.

Lemma bracketed_list_parses_in_order_witness :
  parseRouteHeader "route" "<sip:p1.example.com;lr>,<sip:p2.example.com,x>"
  = Ok [RouteHeader
          [SipUriOf (mkSipUri false None None (mkDomain "p1.example.com" None)
                       [("lr", None)] NewParams);
           SipUriOf (mkSipUri false None None (mkDomain "p2.example.com,x" None)
                       NewParams NewParams)]].
Proof.
  change "<sip:p1.example.com;lr>,<sip:p2.example.com,x>"
    with (Join (bracketed <$> ["sip:p1.example.com;lr"; "sip:p2.example.com,x"]) ",").
  apply (bracketed_list_parses_in_order ["sip:p1.example.com;lr"; "sip:p2.example.com,x"]).
  - discriminate.
  - repeat constructor; discriminate.
  - repeat constructor.
Defined.

(** X15: [ParseAddressValue] panics on a non-empty text made of white space
    only: the text passes the emptiness check, is trimmed to nothing, and its
    first byte is then read.  A list such as [a, ,b] in an address header has
    such an element. *)
Theorem blank_address_panics (addressText : string) :
  addressText <> EmptyString -> TrimSpace addressText = EmptyString ->
  ParseAddressValue addressText = Panic.
Proof.
  intros NE Blank. unfold ParseAddressValue.
  destruct addressText as [|c t]; [contradiction|].
  change (Str.len (String c t) =? 0) with (Z.of_nat (S (String.length t)) =? 0).
  destruct (Z.eqb_spec (Z.of_nat (S (String.length t))) 0) as [E|_]; [lia|].
  cbv zeta. rewrite Blank. reflexivity.
Qed.

Lemma blank_address_panics_witness :
  ParseAddressValue " " = Panic
  /\ parseAddressHeader "contact" "<sip:a@example.com>, ,<sip:b@example.com>" = Panic.
Proof.
  split; [apply blank_address_panics; [discriminate | reflexivity]|].
  vm_compute. reflexivity.
Defined.

(** * The registry *)

Lemma ParseHeader_unfold (headerText : string) (p : option parser) :
  Index headerText ":" <> -1 ->
  ParseHeader headerText p =
  let registry := match p with
                  | Some p => headerParsers p
                  | None => defaultHeaderParsers
                  end in
  let registered : option HeaderParser := registry !! ToLower (fieldNameOf headerText) in
  match registered with
  | Some headerParser =>
      headerParser (ToLower (fieldNameOf headerText)) (fieldTextOf headerText)
  | None => Ok [GenericHeader (fieldNameOf headerText) (fieldTextOf headerText)]
  end.
Proof.
  intros Colon. unfold ParseHeader, fieldNameOf, fieldTextOf.
  destruct (Z.eqb_spec (Index headerText ":") (-1)); [contradiction | reflexivity].
Qed.

Lemma addressHeaders_name (n1 n2 : string) :
  isToName n1 = isToName n2 -> isFromName n1 = isFromName n2 ->
  isContactName n1 = isContactName n2 ->
  forall (addrs : list address) (idx : Z) (acc : list Header),
    addressHeaders n1 idx addrs acc = addressHeaders n2 idx addrs acc.
Proof.
  intros T F C. induction addrs as [|[[displayName uri] paramSet] rest IH];
    intros idx acc; [reflexivity|].
  cbn [addressHeaders]. rewrite T, F, C.
  destruct (isToName n2); [destruct (0 <? idx), uri; auto|].
  destruct (isFromName n2); [destruct (0 <? idx), uri; auto|].
  destruct (isContactName n2); [|reflexivity].
  repeat case_match; auto.
Qed.

Lemma parseAddressHeader_name (n1 n2 text : string) :
  isToName n1 = isToName n2 -> isFromName n1 = isFromName n2 ->
  isContactName n1 = isContactName n2 ->
  parseAddressHeader n1 text = parseAddressHeader n2 text.
Proof.
  intros T F C. unfold parseAddressHeader. rewrite T, F, C.
  destruct (_ || _); [|reflexivity].
  destruct (ParseAddressValues text); cbn [mbind outcome_bind]; try reflexivity.
  now apply addressHeaders_name.
Qed.

Lemma short_forms_registered (registry : gmap string HeaderParser) :
  registry = defaultHeaderParsers \/ registry = list_to_map registeredParsers ->
  Forall (fun names : string * string =>
            exists headerParser : HeaderParser,
              registry !! names.1 = Some headerParser
              /\ registry !! names.2 = Some headerParser
              /\ forall text, headerParser names.1 text = headerParser names.2 text)
    shortForms.
Proof.
  assert (A : forall text, parseAddressHeader "t" text = parseAddressHeader "to" text)
    by (intros; now apply parseAddressHeader_name).
  assert (B : forall text, parseAddressHeader "f" text = parseAddressHeader "from" text)
    by (intros; now apply parseAddressHeader_name).
  assert (C : forall text, parseAddressHeader "m" text = parseAddressHeader "contact" text)
    by (intros; now apply parseAddressHeader_name).
  assert (V : forall text, parseViaHeader "v" text = parseViaHeader "via" text)
    by reflexivity.
  assert (L : forall text,
             parseContentLength "l" text = parseContentLength "content-length" text)
    by reflexivity.
  assert (T : forall text, parseContentType "c" text = parseContentType "content-type" text)
    by reflexivity.
  unfold shortForms, defaultHeaderParsers, registeredParsers.
  revert A B C V L T. abstract_parsers.
  destruct H as [-> | ->]; repeat constructor; cbn [fst snd]; eexists;
    (split; [vm_compute; reflexivity|]); (split; [vm_compute; reflexivity|]); assumption.
Qed.

(** X16: a header line under a short name (t, f, m, v, l, c) parses exactly
    as the line with the same field text under the long name (to, from,
    contact, via, content-length, content-type), with the default registry of
    a [nil] parser and with a parser built by [NewParser]; the case of the
    name and the white space around it do not matter. *)
Theorem short_forms_parse_alike (short long text1 text2 : string) (streamed : bool) :
  (short, long) ∈ shortForms ->
  Index text1 ":" <> -1 -> Index text2 ":" <> -1 ->
  ToLower (fieldNameOf text1) = short -> ToLower (fieldNameOf text2) = long ->
  fieldTextOf text1 = fieldTextOf text2 ->
  ParseHeader text1 None = ParseHeader text2 None
  /\ ParseHeader text1 (Some (NewParser streamed))
     = ParseHeader text2 (Some (NewParser streamed)).
Proof.
  intros Short C1 C2 N1 N2 Text.
  rewrite !ParseHeader_unfold by assumption. cbv beta iota zeta.
  rewrite NewParser_headerParsers, N1, N2, Text.
  split.
  - pose proof (short_forms_registered defaultHeaderParsers (or_introl eq_refl)) as F.
    rewrite Forall_forall in F. destruct (F _ Short) as (f & E1 & E2 & E).
    cbn [fst snd] in E1, E2, E. rewrite E1, E2. apply E.
  - pose proof (short_forms_registered (list_to_map registeredParsers)
                  (or_intror eq_refl)) as F.
    rewrite Forall_forall in F. destruct (F _ Short) as (f & E1 & E2 & E).
    cbn [fst snd] in E1, E2, E. rewrite E1, E2. apply E.
Qed.

Lemma short_forms_parse_alike_witness :
  ParseHeader "T: <sip:bob@biloxi.com>" None
  = ParseHeader "To : <sip:bob@biloxi.com>" None.
Proof.
  apply (short_forms_parse_alike "t" "to" "T: <sip:bob@biloxi.com>"
           "To : <sip:bob@biloxi.com>" true).
  - apply elem_of_cons. left. reflexivity.
  - vm_compute. discriminate.
  - vm_compute. discriminate.
  - reflexivity.
  - reflexivity.
  - reflexivity.
Defined.

(** X17: with a parser built by [NewParser], a header line whose lowercased
    field name is not one of the registered names is kept as a
    [GenericHeader]: the field name trimmed but in its original case, the
    field text trimmed and otherwise verbatim. *)
Theorem unregistered_header_is_generic (headerText : string) (streamed : bool) :
  Index headerText ":" <> -1 ->
  ToLower (fieldNameOf headerText) ∉ registeredParsers.*1 ->
  ParseHeader headerText (Some (NewParser streamed))
  = Ok [GenericHeader (fieldNameOf headerText) (fieldTextOf headerText)].
Proof.
  intros Colon Unknown. rewrite ParseHeader_unfold by assumption. cbv beta iota zeta.
  rewrite NewParser_headerParsers.
  now rewrite (not_elem_of_list_to_map_1 _ _ Unknown).
Qed.

Lemma unregistered_header_is_generic_witness :
  ParseHeader "X-Trace-Id :  a1, b2 " (Some (NewParser true))
  = Ok [GenericHeader "X-Trace-Id" "a1, b2"].
Proof.
  apply (unregistered_header_is_generic "X-Trace-Id :  a1, b2 " true).
  - vm_compute. discriminate.
  - apply (bool_decide_unpack _). vm_compute. exact I.
Defined.

(** X18: [SetHeaderParser] registers the parser under the lowercased name:
    afterwards a header line with that name, in any case, is handed to the
    new parser with the lowercased name and the trimmed field text, and a
    line with any other name parses as before. *)
Theorem SetHeaderParser_registers (p : parser) (headerName : string)
    (headerParser : HeaderParser) (headerText : string) :
  Index headerText ":" <> -1 ->
  (ToLower (fieldNameOf headerText) = ToLower headerName ->
   ParseHeader headerText (Some (SetHeaderParser p headerName headerParser))
   = headerParser (ToLower headerName) (fieldTextOf headerText))
  /\ (ToLower (fieldNameOf headerText) <> ToLower headerName ->
      ParseHeader headerText (Some (SetHeaderParser p headerName headerParser))
      = ParseHeader headerText (Some p)).
Proof.
  intros Colon. rewrite !ParseHeader_unfold by assumption. cbv beta iota zeta.
  cbn [SetHeaderParser headerParsers]. split.
  - intros ->. now rewrite lookup_insert_eq.
  - intros NE. now rewrite lookup_insert_ne.
Qed.

Lemma SetHeaderParser_registers_witness :
  ParseHeader "x-trace-id: a1" (Some (SetHeaderParser (NewParser true) "X-Trace-Id"
                                        parseUserAgent))
  = Ok [UserAgentHeader "a1"].
Proof.
  destruct (SetHeaderParser_registers (NewParser true) "X-Trace-Id" parseUserAgent
              "x-trace-id: a1") as [Same _]; [vm_compute; discriminate|].
  rewrite Same; reflexivity.
Defined.

(** X19: a Max-Forwards, Expires or Content-Length text that parses yields
    exactly one header of that kind, whose value is the trimmed text read as
    an unsigned decimal number and lies in the 32-bit range; it is never
    negative. *)
Theorem numeric_headers_in_range (headerName headerText : string) (hs : list Header) :
  parseMaxForwards headerName headerText = Ok hs
  \/ parseExpires headerName headerText = Ok hs
  \/ parseContentLength headerName headerText = Ok hs ->
  exists value : Z,
    ParseUint (TrimSpace headerText) 32 = Ok value
    /\ 0 <= value < 2 ^ 32
    /\ (parseMaxForwards headerName headerText = Ok hs -> hs = [MaxForwards value])
    /\ (parseExpires headerName headerText = Ok hs -> hs = [Expires value])
    /\ (parseContentLength headerName headerText = Ok hs -> hs = [ContentLength value]).
Proof.
  unfold parseMaxForwards, parseExpires, parseContentLength.
  destruct (ParseUint (TrimSpace headerText) 32) as [value| |] eqn:U;
    cbn [mbind outcome_bind mret outcome_ret].
  - intros _. exists value. split; [reflexivity|].
    apply ParseUint_range in U. split; [lia|].
    repeat split; now intros [= <-].
  - intros [H|[H|H]]; discriminate.
  - intros [H|[H|H]]; discriminate.
Qed.

Lemma numeric_headers_in_range_witness :
  exists value : Z,
    ParseUint (TrimSpace " 70 ") 32 = Ok value /\ 0 <= value < 2 ^ 32.
Proof.
  destruct (numeric_headers_in_range "max-forwards" " 70 " [MaxForwards 70]
              (or_introl eq_refl)) as (value & U & R & _).
  exists value. exact (conj U R).
Defined.

(** * Search outside delimiters *)

Lemma findAny_index (chars text : string) :
  match Str.findAny chars text with
  | None => True
  | Some i => exists c, String.get i text = Some c /\ Str.mem c chars = true
  end.
Proof.
  induction text as [|a t IH]; [exact I|]. cbn [Str.findAny].
  destruct (Str.mem a chars) eqn:M; [now exists a|].
  destruct (Str.findAny chars t) as [i|]; [|exact I]. exact IH.
Qed.

Lemma findAnyUnescaped_go_result (endChars : gmap ascii ascii) (targets text : string) :
  forall (idx : Z) (escaped : bool) (endEscape : ascii),
    let r := findAnyUnescaped_go endChars targets text idx escaped endEscape in
    r = -1
    \/ exists (i : nat) (c : ascii),
         r = idx + Z.of_nat i
         /\ String.get i text = Some c /\ Str.mem c targets = true
         /\ exists first : nat, Str.findAny targets text = Some first /\ (first <= i)%nat.
Proof.
  induction text as [|a t IH]; intros idx escaped endEscape; [now left|].
  cbn [findAnyUnescaped_go Str.findAny]. cbv zeta.
  assert (Later : forall r : Z,
             (r = -1
              \/ exists (i : nat) (c : ascii),
                   r = idx + 1 + Z.of_nat i
                   /\ String.get i t = Some c /\ Str.mem c targets = true
                   /\ exists first : nat,
                        Str.findAny targets t = Some first /\ (first <= i)%nat) ->
             r = -1
             \/ exists (i : nat) (c : ascii),
                  r = idx + Z.of_nat i
                  /\ String.get i (String a t) = Some c /\ Str.mem c targets = true
                  /\ exists first : nat,
                       (if Str.mem a targets then Some O else S <$> Str.findAny targets t)
                       = Some first /\ (first <= i)%nat).
  { intros r [->|(i & c & -> & G & M & first & F & Le)]; [now left|]. right.
    exists (S i), c. split; [lia|]. split; [exact G|]. split; [exact M|].
    destruct (Str.mem a targets); [exists O; split; [reflexivity | lia]|].
    exists (S first). rewrite F. split; [reflexivity | lia]. }
  destruct (Str.mem a targets) eqn:M; destruct escaped; cbn [negb andb].
  - apply Later, IH.
  - right. exists O, a. split; [lia|]. split; [reflexivity|]. split; [exact M|].
    exists O. split; [reflexivity | lia].
  - apply Later, IH.
  - destruct (endChars !! a); apply Later, IH.
Qed.

(** X20: [findAnyUnescaped] (and so [findUnescaped]) returns -1 or the index
    of a byte of the text that is one of the targets; that index is never
    before the first target in the text, so a text without any target gives
    -1. *)
Theorem findAnyUnescaped_result (text targets : string) (delims : list delimiter) :
  let r := findAnyUnescaped text targets delims in
  r = -1
  \/ exists c : ascii,
       Str.at_ text r = Ok c /\ Str.mem c targets = true
       /\ 0 <= IndexAny text targets <= r.
Proof.
  unfold findAnyUnescaped. cbv zeta.
  destruct (findAnyUnescaped_go_result
              (foldl (fun m d => <[d_start d := d_end d]> m) ∅ delims)
              targets text 0 false NUL)
    as [E|(i & c & E & G & M & first & F & Le)]; [now left|].
  right. exists c. rewrite E. unfold IndexAny. rewrite F. cbn [ofIndex].
  split; [|split; [exact M | lia]].
  unfold Str.at_. replace (Z.to_nat (0 + Z.of_nat i)) with i by lia. rewrite G.
  assert (i < String.length text)%nat.
  { clear - G. revert i G. induction text as [|a t IH]; intros [|i] G;
      simpl in *; try discriminate; try lia. apply IH in G. lia. }
  unfold Str.len.
  destruct (Z.leb_spec 0 (0 + Z.of_nat i)); [|lia].
  destruct (Z.ltb_spec (0 + Z.of_nat i) (Z.of_nat (String.length text))); [|lia].
  reflexivity.
Qed.

Lemma endChars_start (delims : list delimiter) (c e : ascii) :
  forall endChars : gmap ascii ascii,
    foldl (fun m d => <[d_start d := d_end d]> m) endChars delims !! c = Some e ->
    endChars !! c = Some e \/ exists d : delimiter, d ∈ delims /\ d_start d = c.
Proof.
  induction delims as [|d delims IH]; intros endChars; [now left|].
  cbn [foldl]. intros H. apply IH in H as [H|(d' & In & S)].
  - destruct (decide (d_start d = c)) as [<-|NE].
    + right. exists d. split; [apply elem_of_cons; now left | reflexivity].
    + left. now rewrite lookup_insert_ne in H.
  - right. exists d'. split; [apply elem_of_cons; now right | exact S].
Qed.

Lemma findAnyUnescaped_go_plain (endChars : gmap ascii ascii) (targets text : string) :
  (forall c e, endChars !! c = Some e -> Str.mem c text = false) ->
  forall (idx : Z) (endEscape : ascii),
    findAnyUnescaped_go endChars targets text idx false endEscape
    = match Str.findAny targets text with
      | Some i => idx + Z.of_nat i
      | None => -1
      end.
Proof.
  induction text as [|a t IH]; intros Plain idx endEscape; [reflexivity|].
  cbn [findAnyUnescaped_go Str.findAny negb andb].
  destruct (Str.mem a targets); [lia|].
  assert (Rest : forall c e, endChars !! c = Some e -> Str.mem c t = false).
  { intros c e H. specialize (Plain c e H). cbn [Str.mem] in Plain.
    now apply orb_false_iff in Plain. }
  destruct (endChars !! a) as [e|] eqn:L.
  - specialize (Plain a e L). cbn [Str.mem] in Plain.
    rewrite Ascii.eqb_refl in Plain. discriminate.
  - rewrite (IH Rest). destruct (Str.findAny targets t); simpl; lia.
Qed.

(** X21: on a text that holds none of the opening delimiters,
    [findAnyUnescaped] is [strings.IndexAny]: the index of the first byte
    that is one of the targets, or -1. *)
Theorem findAnyUnescaped_without_delimiters (text targets : string)
    (delims : list delimiter) :
  (forall d : delimiter, d ∈ delims -> Str.mem (d_start d) text = false) ->
  findAnyUnescaped text targets delims = IndexAny text targets.
Proof.
  intros Plain. unfold findAnyUnescaped, IndexAny. cbv zeta.
  rewrite findAnyUnescaped_go_plain.
  - destruct (Str.findAny targets text); simpl; lia.
  - intros c e H. apply endChars_start in H as [H|(d & In & <-)].
    + now rewrite lookup_empty in H.
    + now apply Plain.
Qed.

Lemma findAnyUnescaped_without_delimiters_witness :
  findAnyUnescaped "sip:alice@atlanta.com;transport=tcp" ";?" [quotesDelim; anglesDelim]
  = IndexAny "sip:alice@atlanta.com;transport=tcp" ";?".
Proof.
  apply findAnyUnescaped_without_delimiters.
  intros d In. apply elem_of_cons in In as [->|In]; [reflexivity|].
  apply elem_of_cons in In as [->|In]; [reflexivity|].
  now apply elem_of_nil in In.
Defined.

Lemma findAnyUnescaped_go_shift (endChars : gmap ascii ascii) (targets text : string) :
  forall (idx : Z) (escaped : bool) (endEscape : ascii),
    findAnyUnescaped_go endChars targets text idx escaped endEscape
    = let r := findAnyUnescaped_go endChars targets text 0 escaped endEscape in
      if r =? -1 then -1 else idx + r.
Proof.
  induction text as [|a t IH]; intros idx escaped endEscape; [reflexivity|].
  cbn [findAnyUnescaped_go]. cbv zeta.
  assert (Range : forall esc ee,
             findAnyUnescaped_go endChars targets t 0 esc ee = -1
             \/ 0 <= findAnyUnescaped_go endChars targets t 0 esc ee).
  { intros esc ee.
    destruct (findAnyUnescaped_go_result endChars targets t 0 esc ee)
      as [E|(i & c & E & _)]; [now left | right; lia]. }
  assert (Step : forall esc ee,
             findAnyUnescaped_go endChars targets t (idx + 1) esc ee
             = (if findAnyUnescaped_go endChars targets t (0 + 1) esc ee =? -1
                then -1
                else idx + findAnyUnescaped_go endChars targets t (0 + 1) esc ee)).
  { intros esc ee. rewrite (IH (idx + 1)), (IH (0 + 1)). cbv zeta.
    destruct (Range esc ee) as [->|R]; [reflexivity|].
    destruct (Z.eqb_spec (findAnyUnescaped_go endChars targets t 0 esc ee) (-1)); [lia|].
    destruct (Z.eqb_spec (0 + 1 + findAnyUnescaped_go endChars targets t 0 esc ee) (-1));
      lia. }
  destruct (negb escaped && Str.mem a targets); [simpl; lia|].
  destruct escaped; [apply Step|].
  destruct (endChars !! a); apply Step.
Qed.

Lemma findAnyUnescaped_go_idle (endChars : gmap ascii ascii) (targets text : string)
    (idx : Z) (e1 e2 : ascii) :
  findAnyUnescaped_go endChars targets text idx false e1
  = findAnyUnescaped_go endChars targets text idx false e2.
Proof. destruct text; reflexivity. Qed.

Lemma findAnyUnescaped_go_before (endChars : gmap ascii ascii) (targets before rest : string) :
  Str.findAny targets before = None ->
  (forall c e, endChars !! c = Some e -> Str.mem c before = false) ->
  forall (idx : Z) (endEscape : ascii),
    findAnyUnescaped_go endChars targets (before +:+ rest) idx false endEscape
    = findAnyUnescaped_go endChars targets rest (idx + Str.len before) false NUL.
Proof.
  induction before as [|a t IH]; intros NoTarget Plain idx endEscape.
  - rewrite app_Empty. change (Str.len EmptyString) with 0. rewrite Z.add_0_r.
    apply findAnyUnescaped_go_idle.
  - rewrite app_String. cbn [findAnyUnescaped_go negb andb].
    cbn [Str.findAny] in NoTarget.
    destruct (Str.mem a targets); [discriminate|].
    destruct (Str.findAny targets t) eqn:F; [discriminate|].
    assert (Rest : forall c e, endChars !! c = Some e -> Str.mem c t = false).
    { intros c e H. specialize (Plain c e H). cbn [Str.mem] in Plain.
      now apply orb_false_iff in Plain. }
    destruct (endChars !! a) as [e|] eqn:L.
    + specialize (Plain a e L). cbn [Str.mem] in Plain.
      rewrite Ascii.eqb_refl in Plain. discriminate.
    + rewrite (IH eq_refl Rest). f_equal. unfold Str.len. cbn [String.length]. lia.
Qed.

Lemma findAnyUnescaped_go_inside (endChars : gmap ascii ascii) (targets inside rest : string)
    (closing : ascii) :
  Str.mem closing inside = false ->
  forall idx : Z,
    findAnyUnescaped_go endChars targets (inside +:+ String closing rest) idx true closing
    = findAnyUnescaped_go endChars targets rest (idx + Str.len inside + 1) false NUL.
Proof.
  induction inside as [|a t IH]; intros NoClose idx.
  - rewrite app_Empty. cbn [findAnyUnescaped_go negb andb].
    rewrite Ascii.eqb_refl. cbn [negb]. change (Str.len EmptyString) with 0.
    rewrite Z.add_0_r. apply findAnyUnescaped_go_idle.
  - rewrite app_String. cbn [findAnyUnescaped_go negb andb].
    cbn [Str.mem] in NoClose. apply orb_false_iff in NoClose as [Ne NoClose].
    rewrite Ne. cbn [negb]. rewrite (IH NoClose). f_equal.
    unfold Str.len. cbn [String.length]. lia.
Qed.

(** X22: [findAnyUnescaped] skips a delimited region.  With one delimiter
    whose opening byte is not a target: when the text is a part without
    target or opening byte, then the opening byte, a region without the
    closing byte, the closing byte and a rest, the targets inside the region
    are not seen, and the result is the result on the rest, moved by the
    length of what precedes it (or -1). *)
Theorem findAnyUnescaped_skips_region (d : delimiter) (targets before inside rest : string) :
  Str.mem (d_start d) targets = false ->
  IndexAny before targets = -1 ->
  Str.mem (d_start d) before = false ->
  Str.mem (d_end d) inside = false ->
  findAnyUnescaped
    (before +:+ String (d_start d) (inside +:+ String (d_end d) rest)) targets [d]
  = let r := findAnyUnescaped rest targets [d] in
    if r =? -1 then -1 else Str.len before + 1 + Str.len inside + 1 + r.
Proof.
  intros Opening NoTarget NoOpen NoClose. unfold findAnyUnescaped. cbv zeta.
  cbn [foldl].
  assert (None' : Str.findAny targets before = None).
  { unfold IndexAny in NoTarget. destruct (Str.findAny targets before); [|reflexivity].
    simpl in NoTarget. lia. }
  rewrite findAnyUnescaped_go_before; [|exact None'|].
  - cbn [findAnyUnescaped_go negb andb]. rewrite Opening.
    rewrite lookup_insert_eq.
    rewrite (findAnyUnescaped_go_inside _ _ _ _ _ NoClose).
    rewrite findAnyUnescaped_go_shift. cbv zeta.
    destruct (_ =? -1); [reflexivity | lia].
  - intros c e H. destruct (decide (d_start d = c)) as [<-|NE]; [exact NoOpen|].
    rewrite lookup_insert_ne in H by exact NE. now rewrite lookup_empty in H.
Qed.

Lemma findAnyUnescaped_skips_region_witness :
  findAnyUnescaped
    ("Bob " +:+ String (d_start quotesDelim)
                  ("a;b" +:+ String (d_end quotesDelim) " <sip:bob@biloxi.com>;tag=1"))
    ";" [quotesDelim]
  = 4 + 1 + 3 + 1 + 21.
Proof.
  rewrite (findAnyUnescaped_skips_region quotesDelim ";" "Bob " "a;b"
             " <sip:bob@biloxi.com>;tag=1"); reflexivity.
Defined.

(** * Folded header lines *)

Lemma nextHeaderLine_go_groups (more : list string) :
  forall (buffer : string) (consumed : Z),
  exists cont rest : list string,
    more = cont ++ rest
    /\ Forall (fun line : string => continuation line = true) cont
    /\ head (continuation <$> rest) <> Some true
    /\ nextHeaderLine_go more buffer consumed
       = (buffer +:+ foldr String.append EmptyString
                       ((fun line : string => " " +:+ TrimSpace line) <$> cont),
          consumed + Z.of_nat (length cont)).
Proof.
  induction more as [|line more IH]; intros buffer consumed.
  - exists [], []. repeat split; try constructor; try discriminate.
    cbn. now rewrite app_Empty_r, Z.add_0_r.
  - destruct line as [|firstChar tl] eqn:Line.
    + exists [], (EmptyString :: more). repeat split; try constructor; try discriminate.
      cbn. now rewrite app_Empty_r, Z.add_0_r.
    + cbn [nextHeaderLine_go]. destruct (isSpace firstChar) eqn:Sp; cbn [negb].
      * destruct (IH (buffer +:+ " " +:+ TrimSpace (String firstChar tl)) (consumed + 1))
          as (cont & rest & -> & C & R & E).
        exists (String firstChar tl :: cont), rest.
        split; [reflexivity|]. split; [constructor; [exact Sp | exact C]|].
        split; [exact R|]. rewrite E. f_equal.
        -- cbn [fmap list_fmap foldr]. now rewrite !append_assoc.
        -- cbn [length]. lia.
      * exists [], (String firstChar tl :: more).
        repeat split; try constructor.
        -- cbn. rewrite Sp. discriminate.
        -- cbn. now rewrite app_Empty_r, Z.add_0_r.
Qed.

(** X23: [GetNextHeaderLine] consumes nothing when there is no line or the
    first line is empty.  Otherwise it consumes the first line and the
    longest run of lines after it that start with white space; the lines of
    the run are joined to the first one, each trimmed and preceded by one
    space; the line after the run, if any, is empty or does not start with
    white space. *)
Theorem GetNextHeaderLine_groups (contents : list string) :
  match contents with
  | [] => GetNextHeaderLine contents = (EmptyString, 0)
  | EmptyString :: _ => GetNextHeaderLine contents = (EmptyString, 0)
  | first :: more =>
      exists cont rest : list string,
        more = cont ++ rest
        /\ Forall (fun line : string => continuation line = true) cont
        /\ head (continuation <$> rest) <> Some true
        /\ GetNextHeaderLine contents
           = (first +:+ foldr String.append EmptyString
                          ((fun line : string => " " +:+ TrimSpace line) <$> cont),
              1 + Z.of_nat (length cont))
  end.
Proof.
  destruct contents as [|[|c first] more]; try reflexivity.
  cbn [GetNextHeaderLine]. apply nextHeaderLine_go_groups.
Qed.

(** * Datagram framing *)

Lemma isPrefix_length (pre s : string) :
  Str.isPrefix pre s = true -> (String.length pre <= String.length s)%nat.
Proof.
  revert s. induction pre as [|a pre IH]; intros [|b s]; simpl; try lia; try discriminate.
  destruct (Ascii.eqb a b); [|discriminate]. intros H. apply IH in H. lia.
Qed.

Lemma isPrefix_within (pre s tail : string) :
  Str.isPrefix pre (s +:+ tail) = true ->
  (String.length pre <= String.length s)%nat ->
  Str.isPrefix pre s = true.
Proof.
  revert s. induction pre as [|a pre IH]; intros [|b s]; simpl; try lia; try reflexivity.
  destruct (Ascii.eqb a b); [|discriminate]. intros H L. apply IH; [exact H | lia].
Qed.

Lemma find_length (sub s : string) (i : nat) :
  Str.find sub s = Some i -> (i + String.length sub <= String.length s)%nat.
Proof.
  revert i. induction s as [|c t IH]; intros i; cbn [Str.find].
  - destruct (Str.isPrefix sub EmptyString) eqn:P; [|discriminate].
    intros [= <-]. apply isPrefix_length in P. simpl in *. lia.
  - destruct (Str.isPrefix sub (String c t)) eqn:P.
    + intros [= <-]. apply isPrefix_length in P. simpl in *. lia.
    + destruct (Str.find sub t) as [j|]; [|discriminate].
      intros [= <-]. specialize (IH j eq_refl). simpl. lia.
Qed.

Lemma find_app (sub s tail : string) (i : nat) :
  Str.find sub s = Some i -> Str.find sub (s +:+ tail) = Some i.
Proof.
  revert i. induction s as [|c t IH]; intros i.
  - cbn [Str.find]. destruct (Str.isPrefix sub EmptyString) eqn:P; [|discriminate].
    intros [= <-]. destruct sub; [|discriminate]. rewrite app_Empty. now destruct tail.
  - rewrite app_String. cbn [Str.find]. rewrite <- app_String.
    destruct (Str.isPrefix sub (String c t)) eqn:P.
    + intros [= <-]. now rewrite (isPrefix_app _ _ tail P).
    + destruct (Str.find sub t) as [j|] eqn:F; [|discriminate].
      intros [= <-].
      destruct (Str.isPrefix sub (String c t +:+ tail)) eqn:Q.
      * apply find_length in F.
        apply isPrefix_within in Q; [congruence|].
        destruct sub as [|a sub]; [discriminate P|].
        cbn [Str.isPrefix] in P. rewrite app_String in Q. cbn [Str.isPrefix] in Q.
        simpl in *. lia.
      * now rewrite (IH j eq_refl).
Qed.

Lemma drop_app_le (n : nat) (s tail : string) :
  (n <= String.length s)%nat -> Str.drop n (s +:+ tail) = Str.drop n s +:+ tail.
Proof.
  revert s. induction n as [|n IH]; intros [|a s]; simpl; try lia; try reflexivity.
  intros L. rewrite ?app_String. simpl. apply IH. lia.
Qed.

Lemma drop_drop (n m : nat) (s : string) : Str.drop n (Str.drop m s) = Str.drop (m + n) s.
Proof.
  revert s. induction m as [|m IH]; intros s; [reflexivity|].
  destruct s as [|a s]; simpl; [now destruct n | apply IH].
Qed.

Lemma find_blank_line (t line rest : string) :
  NextLine t = Some (line, rest) ->
  Str.find (CRLF +:+ CRLF) t
  = (fun k : nat => (String.length line + k)%nat) <$> Str.find (CRLF +:+ CRLF) (CRLF +:+ rest).
Proof.
  revert line. induction t as [|c t IH]; intros line; [discriminate|].
  cbn [NextLine]. destruct (Str.isPrefix CRLF (String c t)) eqn:P.
  - apply isPrefix_CRLF in P as [t' E].
    change (CRLF +:+ t') with (String CR (String LF t')) in E. injection E as -> ->.
    cbn [Str.drop]. intros [= <- <-].
    change (String CR (String LF t')) with (CRLF +:+ t').
    destruct (Str.find (CRLF +:+ CRLF) (CRLF +:+ t')); reflexivity.
  - destruct (NextLine t) as [[l r]|] eqn:N; [|discriminate].
    cbn. intros [= <- <-]. cbn [Str.find].
    destruct (Str.isPrefix (CRLF +:+ CRLF) (String c t)) eqn:Q.
    + apply isPrefix_shorter in Q. congruence.
    + rewrite (IH _ eq_refl).
      destruct (Str.find (CRLF +:+ CRLF) (CRLF +:+ r)); reflexivity.
Qed.

Lemma find_after_terminator (t : string) :
  Str.isPrefix CRLF t = false ->
  Str.find (CRLF +:+ CRLF) (CRLF +:+ t)
  = (fun k : nat => (2 + k)%nat) <$> Str.find (CRLF +:+ CRLF) t.
Proof.
  intros P. change (CRLF +:+ t) with (String CR (String LF t)).
  assert (Q : Str.isPrefix (CRLF +:+ CRLF) (String CR (String LF t)) = false).
  { change (Str.isPrefix (CRLF +:+ CRLF) (String CR (String LF t)))
      with (Str.isPrefix CRLF t). exact P. }
  cbn [Str.find]. rewrite Q.
  change (Str.isPrefix (CRLF +:+ CRLF) (String LF t)) with false.
  destruct (Str.find (CRLF +:+ CRLF) t); reflexivity.
Qed.

Lemma NextLine_empty_line (t rest : string) :
  NextLine t = Some (EmptyString, rest) -> t = CRLF +:+ rest.
Proof. intros H. apply NextLine_split in H. now rewrite app_Empty in H. Qed.

Lemma NextLine_text_line (t rest : string) (c : ascii) (line : string) :
  NextLine t = Some (String c line, rest) -> Str.isPrefix CRLF t = false.
Proof.
  destruct t as [|a t]; [discriminate|]. cbn [NextLine].
  destruct (Str.isPrefix CRLF (String a t)); [discriminate | reflexivity].
Qed.

Lemma readHeaders_blank_line (p : parser) (n : nat) :
  forall (t : string) (k : nat) (buffer : string) (hs hs' : list Header) (rest : string),
    (String.length t < n)%nat ->
    Str.find (CRLF +:+ CRLF) (CRLF +:+ t) = Some k ->
    readHeaders p (lines t) buffer hs = Ok (hs', rest) ->
    rest = Str.drop (k + 2) t /\ (k + 2 <= String.length t)%nat.
Proof.
  induction n as [|n IH]; intros t k buffer hs hs' rest Len Find; [lia|].
  assert (Bound : (k + 2 <= String.length t)%nat).
  { apply find_length in Find. rewrite !length_app in Find. simpl in Find. lia. }
  rewrite lines_NextLine.
  destruct (NextLine t) as [[line t']|] eqn:Line.
  - destruct line as [|c line].
    + apply NextLine_empty_line in Line. subst t.
      assert (k = O) as ->.
      { rewrite <- append_assoc in Find.
        assert (P : Str.isPrefix (CRLF +:+ CRLF) ((CRLF +:+ CRLF) +:+ t') = true)
          by reflexivity.
        destruct ((CRLF +:+ CRLF) +:+ t') as [|a s] eqn:E; [discriminate E|].
        cbn [Str.find] in Find. rewrite P in Find. now injection Find. }
      cbn [readHeaders].
      destruct (flushBuffer p buffer hs) as [hs''| |]; cbn [mbind outcome_bind];
        try discriminate.
      intros [= _ <-]. split; [reflexivity | exact Bound].
    + pose proof (NextLine_text_line _ _ _ _ Line) as NoBlank.
      rewrite (find_after_terminator _ NoBlank), (find_blank_line _ _ _ Line) in Find.
      destruct (Str.find (CRLF +:+ CRLF) (CRLF +:+ t')) as [k'|] eqn:Find';
        [|discriminate].
      cbn in Find. injection Find as <-.
      pose proof (NextLine_shorter _ _ _ Line) as Shorter.
      pose proof (NextLine_split _ _ _ Line) as Split.
      assert (Tail : forall b a,
                 readHeaders p (lines t') b a = Ok (hs', rest) ->
                 rest = Str.drop (2 + S (String.length line + k') + 2) t
                 /\ (2 + S (String.length line + k') + 2 <= String.length t)%nat).
      { intros b a H. apply (IH t' k') in H as [-> L]; [|lia|exact Find'].
        split; [|exact Bound].
        rewrite Split at 1.
        replace (2 + S (String.length line + k') + 2)%nat
          with (String.length (String c line +:+ CRLF) + (k' + 2))%nat
          by (rewrite length_app; simpl; lia).
        rewrite <- (drop_drop (k' + 2) (String.length (String c line +:+ CRLF))).
        rewrite <- append_assoc, drop_app_length. reflexivity. }
      cbn [readHeaders].
      destruct (negb (inAbnfWs c)).
      * destruct (flushBuffer p buffer hs) as [hs''| |]; cbn [mbind outcome_bind];
          try discriminate. apply Tail.
      * destruct (negb (Str.isEmpty buffer)); apply Tail.
  - exfalso.
    destruct (Str.isPrefix CRLF t) eqn:P.
    + apply isPrefix_CRLF in P as [t' ->].
      assert (N : NextLine (CRLF +:+ t') = Some (EmptyString, t')) by reflexivity.
      congruence.
    + rewrite (find_after_terminator _ P) in Find.
      destruct (Str.find (CRLF +:+ CRLF) t) as [j|] eqn:F; [|discriminate].
      destruct (NextLine_of_datagram t) as (l & r & N); [|congruence].
      unfold getBodyLength, Index. rewrite F. cbn [ofIndex]. cbv zeta.
      apply find_length in F. simpl in F. unfold Str.len.
      destruct (Z.eqb_spec (Z.of_nat j) (-1)); lia.
Qed.

Lemma parseStartLine_body (line : string) (msg : Message) :
  parseStartLine line = Ok msg -> body msg = EmptyString.
Proof.
  unfold parseStartLine.
  destruct (isRequest line).
  - destruct (ParseRequestLine line) as [[[? [?|]] ?]| |]; simpl; try discriminate.
    now intros [= <-].
  - destruct (isResponse line); [|discriminate].
    destruct (ParseStatusLine line) as [[[? ?] ?]| |]; simpl; try discriminate.
    now intros [= <-].
Qed.

Lemma datagram_shape (d : string) :
  getBodyLength d <> -1 ->
  exists (first rest : string) (k : nat),
    NextLine d = Some (first, rest)
    /\ Str.find (CRLF +:+ CRLF) (CRLF +:+ rest) = Some k
    /\ (k + 2 <= String.length rest)%nat
    /\ Str.len d = Str.len first + 2 + Str.len rest
    /\ getBodyLength d = Str.len (Str.drop (k + 2) rest)
    /\ bodyOf d = Str.drop (k + 2) rest.
Proof.
  intros Blank. destruct (NextLine_of_datagram d Blank) as (first & rest & Line).
  exists first, rest.
  pose proof (find_blank_line _ _ _ Line) as Find.
  pose proof (NextLine_split _ _ _ Line) as Split.
  assert (Len : Str.len d = Str.len first + 2 + Str.len rest).
  { rewrite Split at 1. rewrite !len_app. change (Str.len CRLF) with 2. lia. }
  unfold bodyOf. revert Blank. unfold getBodyLength, Index. cbv zeta.
  destruct (Str.find (CRLF +:+ CRLF) d) as [idx|] eqn:F; [|now intros []].
  destruct (Str.find (CRLF +:+ CRLF) (CRLF +:+ rest)) as [k|] eqn:F'; [|discriminate].
  cbn in Find. injection Find as ->. intros _. exists k.
  pose proof (find_length _ _ _ F') as Bound. rewrite !length_app in Bound.
  cbn [String.length CRLF Nat.add] in Bound. cbn [ofIndex].
  destruct (Z.eqb_spec (Z.of_nat (String.length first + k)) (-1)) as [E|_]; [lia|].
  assert (Drop : Str.drop (String.length first + 2 + (k + 2)) d = Str.drop (k + 2) rest).
  { rewrite Split at 1. rewrite <- (drop_drop (k + 2) (String.length first + 2)).
    rewrite <- append_assoc.
    replace (String.length first + 2)%nat with (String.length (first +:+ CRLF))
      by (rewrite length_app; reflexivity).
    now rewrite drop_app_length. }
  split; [exact Line|]. split; [reflexivity|]. split; [lia|]. split; [exact Len|].
  assert (Size : Str.len d - (Z.of_nat (String.length first + k) + 4)
                 = Str.len (Str.drop (k + 2) rest)).
  { unfold Str.len in *. rewrite length_drop. lia. }
  split; [exact Size|].
  rewrite Size.
  replace (Str.len d - Str.len (Str.drop (k + 2) rest))
    with (Z.of_nat (String.length first + 2 + (k + 2))).
  - rewrite sub_suffix. exact Drop.
  - unfold Str.len in *. rewrite length_drop. lia.
Qed.

Lemma NewParser_aligned : aligned (NewParser false) [].
Proof.
  destruct (NewParser_state false) as (M & I0 & Q0 & _).
  unfold aligned. rewrite M, I0, Q0. repeat split; constructor.
Qed.

Lemma Write_aligned (p : parser) (ds : list string) (d : string) :
  aligned p ds -> stopped p = false -> getBodyLength d <> -1 ->
  aligned (Write p d).1 (ds ++ [d]).
Proof.
  intros (Mode & In & Queue & Blanks) Running Blank. unfold Write.
  rewrite Running, Mode. cbn [negb andb].
  destruct (Z.eqb_spec (getBodyLength d) (-1)) as [E|_]; [contradiction|].
  cbn [fst]. unfold aligned. cbn [streamed input bodyLengths].
  rewrite In, Queue, foldr_append_snoc, fmap_app.
  split; [reflexivity|]. split; [reflexivity|]. split; [reflexivity|].
  apply Forall_app. split; [exact Blanks|]. constructor; [exact Blank | constructor].
Qed.

Lemma Write_dropped (p : parser) (d : string) :
  streamed p = false -> getBodyLength d = -1 -> (Write p d).1 = p.
Proof.
  intros Mode Blank. unfold Write. rewrite Mode, Blank.
  now destruct (stopped p).
Qed.

Lemma aligned_pass (p : parser) (d : string) (ds : list string) :
  aligned p (d :: ds) ->
  match iteration p with
  | Continue p' =>
      aligned p' ds
      /\ ((exists msg : Message,
             output p' = output p ++ [msg] /\ errs p' = errs p
             /\ body msg = if Str.isEmpty (TrimSpace (bodyOf d)) then EmptyString
                           else bodyOf d)
          \/ (exists cause : error,
                errs p' = errs p ++ [InvalidStartLineError cause]
                /\ output p' = output p))
  | Crashed _ => True
  | Break _ | Blocked _ => False
  end.
Proof.
  intros (Mode & In & Queue & Blank).
  apply Forall_cons in Blank as [Blank Blanks].
  cbn [foldr] in In. cbn [fmap list_fmap] in Queue.
  destruct (datagram_shape d Blank) as (first & rest & k & Line & Find & Bound & Len & Size & Body).
  unfold iteration. rewrite In, (NextLine_app _ (foldr String.append EmptyString ds) _ _ Line).
  cbv zeta.
  destruct (parseStartLine first) as [msg|cause|] eqn:Start; [| |exact I].
  - cbn [input withInput].
    destruct (readHeaders _ _ EmptyString []) as [[hs after]|e|] eqn:Headers;
      [|exact I|exact I].
    apply (readHeaders_blank_line _ (S (String.length (rest +:+ foldr String.append EmptyString ds)))
             _ k) in Headers as [-> _]; [|lia|].
    2:{ rewrite <- append_assoc. now apply find_app. }
    rewrite (drop_app_le _ _ _ Bound).
    unfold readBody. cbn [streamed withInput bodyLengths]. rewrite Mode, Queue.
    cbn [input withBodyLengths withInput]. rewrite Size, NextChunk_app.
    rewrite Z.eqb_refl. cbn [negb].
    cbn [emit withInput withBodyLengths output errs input bodyLengths streamed].
    split; [exact (conj Mode (conj eq_refl (conj eq_refl Blanks)))|].
    left. eexists. split; [reflexivity|]. split; [reflexivity|].
    rewrite Body, foldl_AddHeader.
    destruct (Str.isEmpty (TrimSpace (Str.drop (k + 2) rest))); cbn [negb SetBody body];
      [|reflexivity].
    now apply parseStartLine_body in Start.
  - cbn [raise streamed bodyLengths withInput]. rewrite Mode, Queue. cbn [negb].
    unfold skipChunk. cbn [input withBodyLengths].
    replace (Str.len d - Str.len first - 2) with (Str.len rest) by lia.
    cbn [input raise withInput]. rewrite NextChunk_app.
    cbn [withInput withBodyLengths raise output errs input bodyLengths streamed].
    split; [exact (conj Mode (conj eq_refl (conj eq_refl Blanks)))|].
    right. exists cause. split; reflexivity.
Qed.

(** X24: a pass of the framing loop over a datagram-mode parser that holds
    whole datagrams consumes exactly the first datagram and its body-length
    pair, whatever the datagram holds, and reports exactly one result: a
    message whose body is the bytes after the first blank line of the
    datagram (dropped when they are white space only), or one
    [InvalidStartLineError].  The only other way out is the panic of a
    header parser. *)
Theorem datagram_pass_stays_aligned (p : parser) (d : string) (ds : list string) :
  aligned p (d :: ds) ->
  match iteration p with
  | Continue p' =>
      aligned p' ds
      /\ ((exists msg : Message,
             output p' = output p ++ [msg] /\ errs p' = errs p
             /\ body msg = if Str.isEmpty (TrimSpace (bodyOf d)) then EmptyString
                           else bodyOf d)
          \/ (exists cause : error,
                errs p' = errs p ++ [InvalidStartLineError cause]
                /\ output p' = output p))
  | Crashed _ => True
  | Break _ | Blocked _ => False
  end.
Proof. exact (aligned_pass p d ds). Qed.

Lemma datagram_pass_stays_aligned_witness :
  match iteration (Write (NewParser false) register).1 with
  | Continue p' => input p' = EmptyString /\ bodyLengths p' = []
  | _ => True
  end.
Proof.
  pose proof (datagram_pass_stays_aligned (Write (NewParser false) register).1 register []) as H.
  destruct (iteration (Write (NewParser false) register).1) as [p'|p'|p'|p'];
    try exact I.
  destruct H as [(_ & In & Queue & _) _]; [|exact (conj In Queue)].
  apply (Write_aligned (NewParser false) [] register).
  - apply NewParser_aligned.
  - apply NewParser_state.
  - vm_compute. discriminate.
Defined.

Lemma Write_stopped (p : parser) (d : string) : stopped (Write p d).1 = stopped p.
Proof.
  unfold Write. destruct (stopped p) eqn:S; [exact S|].
  destruct (_ && _); [exact S | reflexivity].
Qed.

Lemma feed_aligned (writes : list string) :
  forall (p : parser) (ds : list string),
    aligned p ds -> stopped p = false ->
    aligned (feed p writes)
      (ds ++ filter (fun d : string => getBodyLength d <> -1) writes).
Proof.
  unfold feed. induction writes as [|w writes IH]; intros p ds A Running.
  - cbn. now rewrite app_nil_r.
  - cbn [foldl]. destruct (decide (getBodyLength w <> -1)) as [Blank|NoBlank].
    + rewrite filter_cons_True by exact Blank.
      replace (ds ++ w :: filter (fun d : string => getBodyLength d <> -1) writes)
        with ((ds ++ [w]) ++ filter (fun d : string => getBodyLength d <> -1) writes)
        by (now rewrite <- app_assoc).
      apply IH; [now apply Write_aligned | now rewrite Write_stopped].
    + rewrite filter_cons_False by exact NoBlank.
      rewrite Write_dropped; [now apply IH | apply A |].
      destruct (Z.eq_dec (getBodyLength w) (-1)); [assumption | contradiction].
Qed.

Lemma datagrams_length (ds : list string) :
  Forall (fun d : string => getBodyLength d <> -1) ds ->
  (length ds <= String.length (foldr String.append EmptyString ds))%nat.
Proof.
  induction 1 as [|d ds Blank _ IH]; [simpl; lia|].
  cbn [foldr length]. rewrite length_app.
  destruct (datagram_shape d Blank) as (first & rest & k & _ & _ & _ & Len & _).
  pose proof (len_nonneg first). pose proof (len_nonneg rest).
  unfold Str.len in *. lia.
Qed.

Lemma forLoop_aligned (ds : list string) :
  forall (fuel : nat) (p : parser),
    aligned p ds -> (length ds < fuel)%nat ->
    (forLoop fuel p).1 = Panicked
    \/ ((forLoop fuel p).1 = Exited
        /\ input (forLoop fuel p).2 = EmptyString
        /\ bodyLengths (forLoop fuel p).2 = []
        /\ (length (output (forLoop fuel p).2) + length (errs (forLoop fuel p).2)
            = length (output p) + length (errs p) + length ds)%nat).
Proof.
  induction ds as [|d ds IH]; intros [|fuel] p A Fuel; try (simpl in Fuel; lia).
  - destruct A as (_ & In & Queue & _). cbn [forLoop]. unfold iteration.
    rewrite In. cbn [foldr NextLine fst snd]. right.
    split; [reflexivity|]. split; [exact In|]. split; [exact Queue|]. simpl. lia.
  - cbn [forLoop]. pose proof (aligned_pass p d ds A) as Pass.
    destruct (iteration p) as [p'|p'|p'|p']; try contradiction; [|now left].
    destruct Pass as [A' Result].
    destruct (IH fuel p' A') as [Crash|(E & In & Queue & Count)];
      [simpl in Fuel; lia | now left |].
    right. split; [exact E|]. split; [exact In|]. split; [exact Queue|].
    rewrite Count. cbn [length].
    destruct Result as [(msg & -> & -> & _)|(cause & -> & ->)];
      rewrite List.length_app; simpl; lia.
Qed.

(** X25: in datagram mode the results match the datagrams one to one.  Of
    the datagrams written to a new parser, those without a blank line are
    dropped by [Write]; when the loop has run over the others without the
    panic of a header parser, it has left through the closed buffer, the
    buffer and the body-length channel are empty, and it has reported exactly
    one message or one error for each of them. *)
Theorem datagrams_match_results (writes : list string) :
  let run := parse (feed (NewParser false) writes) in
  run.1 = Panicked
  \/ (run.1 = Exited
      /\ input run.2 = EmptyString
      /\ bodyLengths run.2 = []
      /\ (length (output run.2) + length (errs run.2))%nat
         = length (filter (fun d : string => getBodyLength d <> -1) writes)).
Proof.
  cbv zeta. unfold parse.
  pose proof (feed_aligned writes (NewParser false) [] NewParser_aligned) as A.
  destruct (NewParser_state false) as (_ & _ & _ & Out & Errs & _ & Running).
  specialize (A Running). cbn [app] in A.
  assert (Start : (length (output (feed (NewParser false) writes))
                   + length (errs (feed (NewParser false) writes)) = 0)%nat).
  { clear A. unfold feed.
    assert (G : forall p : parser,
               output p = [] -> errs p = [] ->
               (length (output (foldl (fun p data => (Write p data).1) p writes))
                + length (errs (foldl (fun p data => (Write p data).1) p writes)) = 0)%nat).
    { induction writes as [|w writes IH]; intros p O E; cbn [foldl].
      - now rewrite O, E.
      - apply IH; unfold Write; destruct (stopped p); try assumption;
          destruct (_ && _); assumption. }
    now apply G. }
  destruct (forLoop_aligned _ (S (String.length (input (feed (NewParser false) writes))))
              _ A) as [Crash|(E & In & Queue & Count)].
  - destruct A as (_ & In & _ & Blanks). rewrite In.
    pose proof (datagrams_length _ Blanks). lia.
  - now left.
  - right. split; [exact E|]. split; [exact In|]. split; [exact Queue|].
    rewrite Count. lia.
Qed.

(** * What a pass of the loop reports *)

Ltac project :=
  cbn [after raise emit withInput withBodyLengths
       headerParsers streamed stopped output errs terminalErr input bodyLengths].

Lemma reports_nothing (p p' : parser) :
  headerParsers p' = headerParsers p -> streamed p' = streamed p ->
  stopped p' = stopped p -> output p' = output p -> errs p' = errs p ->
  terminalErr p' = terminalErr p -> reportsAtMostOne p p'.
Proof. intros. repeat split; try assumption. left. repeat split; assumption. Qed.

Lemma reports_message (p p' : parser) (msg : Message) :
  headerParsers p' = headerParsers p -> streamed p' = streamed p ->
  stopped p' = stopped p -> output p' = output p ++ [msg] -> errs p' = errs p ->
  terminalErr p' = terminalErr p -> reportsAtMostOne p p'.
Proof.
  intros. repeat split; try assumption. right; left. exists msg.
  repeat split; assumption.
Qed.

Lemma reports_error (p p' : parser) (e : error) :
  headerParsers p' = headerParsers p -> streamed p' = streamed p ->
  stopped p' = stopped p -> output p' = output p -> errs p' = errs p ++ [e] ->
  terminalErr p' = Some e -> reportsAtMostOne p p'.
Proof.
  intros. repeat split; try assumption. right; right. exists e.
  repeat split; assumption.
Qed.

Lemma next_effect (p q : parser) (m : Message) (n : Z) :
  headerParsers q = headerParsers p -> streamed q = streamed p ->
  stopped q = stopped p -> output q = output p -> errs q = errs p ->
  terminalErr q = terminalErr p ->
  reportsAtMostOne p
    (after
       match NextChunk n (input q) with
       | None =>
           Continue (raise (withInput q EmptyString)
                       (BrokenMessageError (Errorf "read message body failed")))
       | Some (body, rest) =>
           if negb (Str.len body =? n) then
             Continue (raise (withInput q rest)
                         (BrokenMessageError (Errorf "incomplete message body")))
           else
             Continue (emit (withInput q rest)
                         (if negb (Str.isEmpty (TrimSpace body))
                          then SetBody m body else m))
       end).
Proof.
  intros H1 H2 H3 H4 H5 H6.
  destruct (NextChunk n (input q)) as [[chunk rest']|].
  - destruct (negb (Str.len chunk =? n)).
    + eapply reports_error; project; try eassumption; [now rewrite H5 | reflexivity].
    + eapply reports_message; project; try eassumption. now rewrite H4.
  - eapply reports_error; project; try eassumption; [now rewrite H5 | reflexivity].
Qed.

Lemma iteration_effect (p : parser) : reportsAtMostOne p (after (iteration p)).
Proof.
  unfold iteration.
  destruct (NextLine (input p)) as [[first rest]|];
    [|apply reports_nothing; reflexivity].
  cbv zeta. destruct (parseStartLine first) as [msg|cause|].
  - cbn [input withInput].
    destruct (readHeaders _ _ _ _) as [[hs after']|e|];
      [|apply reports_nothing; reflexivity..].
    unfold readBody. cbn [streamed withInput].
    destruct (streamed p).
    + destruct (GetHeaders _ _) as [|h [|h' more]].
      * eapply reports_error; reflexivity.
      * destruct h; try (apply reports_nothing; reflexivity).
        apply next_effect; reflexivity.
      * eapply reports_error; reflexivity.
    + cbn [bodyLengths withInput].
      destruct (bodyLengths p) as [|[bl total] q]; [apply reports_nothing; reflexivity|].
      apply next_effect; reflexivity.
  - cbn [raise streamed bodyLengths withInput].
    destruct (negb (streamed p)).
    + destruct (bodyLengths p) as [|[bl total] q]; [eapply reports_error; reflexivity|].
      unfold skipChunk. destruct (NextChunk _ _) as [[chunk rest']|];
        eapply reports_error; reflexivity.
    + eapply reports_error; reflexivity.
  - apply reports_nothing; reflexivity.
Qed.

(** X26: one pass of the framing loop changes neither the registry nor the
    mode nor the stopped flag, and reports at most one result: nothing, or
    one message (the terminal error is left as it was), or one error, which
    also becomes the terminal error; never a message and an error, never two
    of either. *)
Theorem pass_reports_at_most_one_result (p : parser) :
  reportsAtMostOne p (after (iteration p)).
Proof. exact (iteration_effect p). Qed.

Lemma forLoop_after (fuel : nat) (p : parser) :
  (forLoop fuel p).2 = p
  \/ exists k : nat,
       (k < fuel)%nat /\ (forLoop fuel p).2 = (forLoop k (after (iteration p))).2.
Proof.
  destruct fuel as [|fuel]; [now left|]. right. cbn [forLoop].
  destruct (iteration p) as [q|q|q|q]; cbn [after snd].
  - exists fuel. split; [lia | reflexivity].
  - exists O. split; [lia | reflexivity].
  - exists O. split; [lia | reflexivity].
  - exists O. split; [lia | reflexivity].
Qed.

Lemma forLoop_invariant (I : parser -> Prop) :
  (forall p : parser, I p -> I (after (iteration p))) ->
  forall (fuel : nat) (p : parser), I p -> I (forLoop fuel p).2.
Proof.
  intros Step. induction fuel as [fuel IH] using lt_wf_ind. intros p Start.
  destruct (forLoop_after fuel p) as [->|(k & Less & ->)]; [exact Start|].
  apply IH; [exact Less | now apply Step].
Qed.

Lemma feed_unreported (writes : list string) :
  forall p : parser,
    streamed (feed p writes) = streamed p
    /\ output (feed p writes) = output p
    /\ errs (feed p writes) = errs p
    /\ terminalErr (feed p writes) = terminalErr p.
Proof.
  unfold feed. induction writes as [|w writes IH]; intros p; [now cbn|].
  cbn [foldl]. destruct (IH (Write p w).1) as (-> & -> & -> & ->).
  unfold Write. destruct (stopped p); [now cbn|].
  destruct (_ && _); now cbn.
Qed.

(** X27: over a run of the framing loop the two sinks only grow, and the
    terminal error stays the last error reported: when the terminal error of
    the parser is the last of its errors before the loop runs, as in a new
    parser, it is so when the loop has ended. *)
Theorem terminal_error_is_last_error (p : parser) :
  terminalErr p = last (errs p) ->
  terminalErr (parse p).2 = last (errs (parse p).2)
  /\ exists (msgs : list Message) (es : list error),
       output (parse p).2 = output p ++ msgs /\ errs (parse p).2 = errs p ++ es.
Proof.
  intros Start. unfold parse.
  apply (forLoop_invariant
           (fun q => terminalErr q = last (errs q)
                     /\ exists (msgs : list Message) (es : list error),
                          output q = output p ++ msgs /\ errs q = errs p ++ es)).
  - intros q (Last & msgs & es & Out & Errs).
    destruct (iteration_effect q) as (_ & _ & _ & [(O & E & T)|[(m & O & E & T)|(e & E & T & O)]]).
    + rewrite O, E, T. split; [exact Last|]. now exists msgs, es.
    + rewrite O, E, T. split; [exact Last|]. exists (msgs ++ [m]), es.
      split; [now rewrite Out, <- app_assoc | exact Errs].
    + rewrite O, E, T. split; [now rewrite last_snoc|]. exists msgs, (es ++ [e]).
      split; [exact Out | now rewrite Errs, <- app_assoc].
  - split; [exact Start|]. exists [], []. now rewrite !app_nil_r.
Qed.

Lemma terminal_error_is_last_error_witness :
  terminalErr (parse (feed (NewParser true) [status42; ok200])).2
  = last (errs (parse (feed (NewParser true) [status42; ok200])).2).
Proof.
  apply (terminal_error_is_last_error (feed (NewParser true) [status42; ok200])).
  destruct (feed_unreported [status42; ok200] (NewParser true)) as (_ & _ & -> & ->).
  destruct (NewParser_state true) as (_ & _ & _ & _ & -> & -> & _). reflexivity.
Defined.

Lemma GetHeaders_SetBody (msg : Message) (b name : string) :
  GetHeaders (SetBody msg b) name = GetHeaders msg name.
Proof. reflexivity. Qed.

Lemma stream_pass (p : parser) (m : Message) :
  streamed p = true ->
  output (after (iteration p)) = output p ++ [m] ->
  framedByContentLength m.
Proof.
  intros Mode.
  assert (Silent : forall q : parser, output q = output p -> output q = output p ++ [m] ->
                                      framedByContentLength m).
  { intros q -> H. exfalso. apply (f_equal length) in H.
    rewrite List.length_app in H. simpl in H. lia. }
  unfold iteration.
  destruct (NextLine (input p)) as [[first rest]|]; [|now apply Silent].
  cbv zeta. destruct (parseStartLine first) as [msg|cause|] eqn:Start.
  - cbn [input withInput].
    destruct (readHeaders _ _ _ _) as [[hs after']|e|]; [|now apply Silent..].
    unfold readBody. cbn [streamed withInput]. rewrite Mode.
    destruct (GetHeaders _ _) as [|h [|h' more]] eqn:Lengths; [now apply Silent| |now apply Silent].
    destruct h as [| | | | | | n | | | | | | | | | | | | ]; try now apply Silent.
    unfold NextChunk. cbn [input withInput].
    destruct (Z.leb_spec 0 n) as [Pos|]; cbn [andb]; [|now apply Silent].
    destruct (n <=? Str.len after'); [|now apply Silent].
    destruct (negb (Str.len (Str.take (Z.to_nat n) after') =? n)) eqn:Size;
      [now apply Silent|].
    project. intros H. apply app_inj_tail in H as [_ <-].
    apply negb_false_iff, Z.eqb_eq in Size.
    exists n. destruct (negb (Str.isEmpty (TrimSpace _))).
    + rewrite GetHeaders_SetBody. split; [exact Lengths|]. split; [exact Pos|].
      right. exact Size.
    + split; [exact Lengths|]. split; [exact Pos|]. left.
      rewrite foldl_AddHeader. cbn [body]. now apply parseStartLine_body in Start.
  - cbn [raise streamed bodyLengths withInput]. rewrite Mode. now apply Silent.
  - now apply Silent.
Qed.

(** X28: in stream mode every message the loop emits has exactly one
    Content-Length header, and its body is empty or has exactly the length
    that header gives (a body of white space only is dropped). *)
Theorem stream_messages_framed (writes : list string) :
  Forall framedByContentLength (output (parse (feed (NewParser true) writes)).2).
Proof.
  unfold parse.
  apply (forLoop_invariant
           (fun q => streamed q = true /\ Forall framedByContentLength (output q))).
  - intros q [Mode Framed].
    pose proof (stream_pass q) as Pass.
    destruct (iteration_effect q) as (_ & M & _ & [(O & _)|[(m & O & _)|(e & _ & _ & O)]]).
    + rewrite M, O. now split.
    + rewrite M, O. split; [exact Mode|]. apply Forall_app. split; [exact Framed|].
      constructor; [|constructor]. now apply Pass.
    + rewrite M, O. now split.
  - destruct (feed_unreported writes (NewParser true)) as (-> & -> & _).
    destruct (NewParser_state true) as (-> & _ & _ & -> & _). split; [reflexivity|constructor].
Qed.

(** X29: the framing loop ends.  A pass that goes on to the next one has
    consumed at least its start line from the buffer, so the buffer gets
    strictly shorter; the loop over a buffer of [n] bytes is over after at
    most [n + 1] passes. *)
Theorem framing_loop_terminates (p : parser) :
  (parse p).1 <> OutOfFuel
  /\ forall p' : parser,
       iteration p = Continue p' ->
       (String.length (input p') < String.length (input p))%nat.
Proof.
  split; [apply forLoop_enough_fuel; lia|].
  intros p'. apply iteration_consumes.
Qed.

(** * Wildcard URIs in header lines *)

(** X30: with a parser built by [NewParser], the headers that [ParseHeader]
    returns for a header line keep the wildcard where it may be: a To or From
    header never holds the wildcard URI, and a Contact header that holds it
    has no display name and no parameters. *)
Theorem header_lines_confine_wildcard (streamed : bool) (headerText : string)
    (hs : list Header) :
  ParseHeader headerText (Some (NewParser streamed)) = Ok hs ->
  Forall wildcardConfinedHeader hs.
Proof. apply ParseHeader_confined, NewParser_headerParsers. Qed.

Lemma header_lines_confine_wildcard_witness :
  ParseHeader "Contact: *" (Some (NewParser true)) = Ok [ContactHeader None WildcardUri []]
  /\ Forall wildcardConfinedHeader [ContactHeader None WildcardUri []].
Proof.
  assert (E : ParseHeader "Contact: *" (Some (NewParser true))
              = Ok [ContactHeader None WildcardUri []]) by reflexivity.
  split; [exact E|].
  exact (header_lines_confine_wildcard true "Contact: *" _ E).
Defined.
